(** * The wagon interpreter core (package [exec]) as a shallow embedding

    The Go sources embedded here are [exec/vm.go] (stack and decoder helpers,
    [ExecCode], the dispatch loop, [opLog]), [exec/num.go], [exec/conv.go],
    [exec/const.go], [exec/var.go], [exec/control.go], [exec/memory.go] and
    [exec/call.go].

    Conventions.
    - A Go integer of any width is a [Z] holding its mathematical value
      (negative for a negative [int32]); every Go conversion [T(x)] is the
      wrap-around into the range of [T], written out with [uint32], [int32],
      ...  Go's [int] is taken to be 64 bits wide.
    - A byte is a [Z] in [0, 256); a slice is a [list]; [len] is its length.
    - A float32 / float64 is carried as its IEEE-754 bit pattern
      ([math.Float32bits] and [math.Float32frombits] are the identity on it).
    - The operand stack is a list whose head is the top of the stack (the Go
      slice keeps the top at its end).
    - A Go [panic] ends a computation with the panic value and the machine
      state reached so far.
    - The PostgreSQL server behind the telemetry sink is a parameter: the
      class [Server] gives its answer to every insert, commit and begin. *)

From Stdlib Require Import String ZArith List Lia Bool.
Import ListNotations.
Local Open Scope Z_scope.

(** ** Machine integers *)

Definition wrapU (n z : Z) : Z := z mod 2 ^ n.
Definition wrapS (n z : Z) : Z := (z + 2 ^ (n - 1)) mod 2 ^ n - 2 ^ (n - 1).

Definition uint8 : Z -> Z := wrapU 8.
Definition uint16 : Z -> Z := wrapU 16.
Definition uint32 : Z -> Z := wrapU 32.
Definition uint64 : Z -> Z := wrapU 64.
Definition int8 : Z -> Z := wrapS 8.
Definition int16 : Z -> Z := wrapS 16.
Definition int32 : Z -> Z := wrapS 32.
Definition int64 : Z -> Z := wrapS 64.
(** Go's [int] on the 64-bit targets. *)
Definition int : Z -> Z := wrapS 64.

Definition INT32_MIN : Z := - 2 ^ 31.
Definition INT64_MIN : Z := - 2 ^ 63.

Definition len {A} (l : list A) : Z := Z.of_nat (List.length l).

(** ** Panics and outcomes *)

(** The values a handler can panic with: the package's trap values and the
    Go runtime errors. *)
Inductive panic : Type :=
| ErrOutOfBoundsMemoryAccess
| ErrSignatureMismatch
| ErrUndefinedElementIndex
| ErrUnreachable
| RuntimeDivideByZero        (* runtime error: integer divide by zero *)
| RuntimeIndexOutOfRange     (* runtime error: index or slice bounds out of range *)
| RuntimeNilDereference      (* runtime error: invalid memory address or nil pointer dereference *)
| NotCompiledFunction (fn : Z) (* "exec: function at index %d is not a compiled function" *)
| DatabaseError.             (* the error of a refused [Commit] or [Begin], passed to [panic] *)

(** Why a run of the model stops without an answer. *)
Inductive halt : Type :=
| OutOfFuel      (* the dispatch loop was still running when the fuel ran out *)
| BeyondModel.   (* a reslice into the spare capacity of the stack *)

(** ** Module, functions, VM state *)

Inductive ValueType : Type := ValueTypeI32 | ValueTypeI64 | ValueTypeF32 | ValueTypeF64
| ValueTypeOther (t : Z).

Definition ValueType_eqb (a b : ValueType) : bool :=
  match a, b with
  | ValueTypeI32, ValueTypeI32 | ValueTypeI64, ValueTypeI64
  | ValueTypeF32, ValueTypeF32 | ValueTypeF64, ValueTypeF64 => true
  | ValueTypeOther x, ValueTypeOther y => x =? y
  | _, _ => false
  end.

Record FunctionSig : Type := mkSig {
  ParamTypes : list ValueType;
  ReturnTypes : list ValueType }.

Record Function : Type := mkFunction {
  Sig : FunctionSig;
  IsHost : bool;
  Name : string }.

Record Module : Type := mkModule {
  Types_Entries : list FunctionSig;
  FunctionIndexSpace : list Function;
  TableIndexSpace : list (list Z) }.

(** [compile.Target] and [compile.BranchTable]. *)
Record Target : Type := mkTarget {
  Addr : Z;
  Discard : Z;
  PreserveTop : bool;
  Return : bool }.

Record BranchTable : Type := mkBranchTable {
  Targets : list Target;
  DefaultTarget : Target }.

Record compiledFunction : Type := mkCompiled {
  cf_code : list Z;
  branchTables : list BranchTable;
  maxDepth : Z;
  totalLocalVars : Z;
  args : Z;
  returns : bool }.

(** The [function] interface has two implementations. *)
Inductive function : Type :=
| goFunction (typ : FunctionSig)
| compiled (c : compiledFunction).

Record context : Type := mkContext {
  stack : list Z;
  locals : list Z;
  code : list Z;
  pc : Z;
  curFunc : Z }.

(** One row of the [execution_run] table; the operand columns are left out. *)
Record logRow : Type := mkRow {
  op_num : Z;
  run_num : Z;
  op_code : Z;
  op_name : string }.

(** What the package sends through a transaction. *)
Inductive request : Type :=
| Insert (r : logRow) (n : Z)   (* [tx.Exec] of the INSERT that names [n] fields *)
| CommitTx.                     (* [tx.Commit] *)

(** A transaction is what has been sent through it, oldest first, each
    request with the server's answer ([true]: no error).  The connection pool
    is the list of the transactions committed through it. *)
Definition Tx : Type := list (request * bool).
Definition ConnPool : Type := list Tx.

Record VM : Type := mkVM {
  ctx : context;
  module : Module;
  globals : list Z;
  memory : list Z;
  funcs : list function;
  RecoverPanic : bool;
  abort : bool;
  pg : option ConnPool;
  PgTx : option Tx;
  PgRunNum : Z;
  opNum : Z }.

Definition set_ctx (vm : VM) (c : context) : VM :=
  mkVM c (module vm) (globals vm) (memory vm) (funcs vm) (RecoverPanic vm)
       (abort vm) (pg vm) (PgTx vm) (PgRunNum vm) (opNum vm).
Definition set_memory (vm : VM) (m : list Z) : VM :=
  mkVM (ctx vm) (module vm) (globals vm) m (funcs vm) (RecoverPanic vm)
       (abort vm) (pg vm) (PgTx vm) (PgRunNum vm) (opNum vm).
Definition set_log (vm : VM) (p : option ConnPool) (t : option Tx) (n : Z) : VM :=
  mkVM (ctx vm) (module vm) (globals vm) (memory vm) (funcs vm) (RecoverPanic vm)
       (abort vm) p t (PgRunNum vm) n.

Definition set_stack (vm : VM) (s : list Z) : VM :=
  set_ctx vm (mkContext s (locals (ctx vm)) (code (ctx vm)) (pc (ctx vm)) (curFunc (ctx vm))).
Definition set_pc (vm : VM) (p : Z) : VM :=
  set_ctx vm (mkContext (stack (ctx vm)) (locals (ctx vm)) (code (ctx vm)) p (curFunc (ctx vm))).

(** ** The state-and-panic monad of the handlers *)

Inductive outcome (A : Type) : Type :=
| Ok (a : A) (vm : VM)
| Panic (p : panic) (vm : VM)
| Halt (h : halt).
Arguments Ok {A} a vm.
Arguments Panic {A} p vm.
Arguments Halt {A} h.

Definition M (A : Type) : Type := VM -> outcome A.

Definition ret {A} (a : A) : M A := fun vm => Ok a vm.
Definition bind {A B} (m : M A) (k : A -> M B) : M B :=
  fun vm => match m vm with
            | Ok a vm' => k a vm'
            | Panic p vm' => Panic p vm'
            | Halt h => Halt h
            end.
Definition throw {A} (p : panic) : M A := fun vm => Panic p vm.
Definition gets {A} (f : VM -> A) : M A := fun vm => Ok (f vm) vm.
Definition modify (f : VM -> VM) : M unit := fun vm => Ok tt (f vm).

Declare Scope vm_scope.
Delimit Scope vm_scope with vm.
Notation "x <- m ;; k" := (bind m (fun x => k))
  (at level 61, m at next level, right associativity) : vm_scope.
Notation "m ;; k" := (bind m (fun _ => k))
  (at level 61, right associativity) : vm_scope.
Local Open Scope vm_scope.

(** ** Slices and [binary.LittleEndian] *)

(** [s[i:]]; panics unless [0 <= i <= len(s)]. *)
Definition sliceFrom {A} (s : list A) (i : Z) : M (list A) :=
  if (0 <=? i) && (i <=? len s) then ret (skipn (Z.to_nat i) s)
  else throw RuntimeIndexOutOfRange.

(** [s[i]]; panics unless [0 <= i < len(s)]. *)
Definition indexAt {A} (s : list A) (i : Z) : M A :=
  if 0 <=? i then
    match nth_error s (Z.to_nat i) with
    | Some x => ret x
    | None => throw RuntimeIndexOutOfRange
    end
  else throw RuntimeIndexOutOfRange.

(** [s[i] = x] and [copy(s[i:], bs)] for a run of bytes that fits. *)
Definition splice {A} (s : list A) (i : Z) (bs : list A) : list A :=
  firstn (Z.to_nat i) s ++ bs ++ skipn (Z.to_nat i + List.length bs) s.

Module LittleEndian.

(** [UintN(b)] assembles the first N/8 bytes of [b], least significant
    first, into a [uintN]; it panics on a shorter slice. *)

Definition Uint16 (b : list Z) : M Z :=
  match b with
  | b0 :: b1 :: _ => ret (uint16 (b0 + b1 * 2 ^ 8))
  | _ => throw RuntimeIndexOutOfRange
  end.

Definition Uint32 (b : list Z) : M Z :=
  match b with
  | b0 :: b1 :: b2 :: b3 :: _ =>
      ret (uint32 (b0 + b1 * 2 ^ 8 + b2 * 2 ^ 16 + b3 * 2 ^ 24))
  | _ => throw RuntimeIndexOutOfRange
  end.

Definition Uint64 (b : list Z) : M Z :=
  match b with
  | b0 :: b1 :: b2 :: b3 :: b4 :: b5 :: b6 :: b7 :: _ =>
      ret (uint64 (b0 + b1 * 2 ^ 8 + b2 * 2 ^ 16 + b3 * 2 ^ 24
                   + b4 * 2 ^ 32 + b5 * 2 ^ 40 + b6 * 2 ^ 48 + b7 * 2 ^ 56))
  | _ => throw RuntimeIndexOutOfRange
  end.

(** The little-endian bytes of [v], [n] of them. *)
Fixpoint bytes (n : nat) (v : Z) : list Z :=
  match n with
  | O => []
  | S k => uint8 v :: bytes k (Z.shiftr v 8)
  end.

End LittleEndian.

(** [binary.LittleEndian.PutUintN(vm.memory[addr:], v)] with [n] = N/8: the
    slice expression, the length check of [PutUintN], then the write into the
    shared backing array. *)
Definition putBytes (addr : Z) (n : nat) (v : Z) : M unit :=
  mem <- gets memory ;;
  tl <- sliceFrom mem addr ;;
  if Z.of_nat n <=? len tl
  then modify (fun vm => set_memory vm (splice (memory vm) addr (LittleEndian.bytes n v)))
  else throw RuntimeIndexOutOfRange.

(** ** Decoder helpers *)

Definition fetchInt8 : M Z :=
  c <- gets (fun vm => code (ctx vm)) ;;
  p <- gets (fun vm => pc (ctx vm)) ;;
  b <- indexAt c p ;;
  modify (fun vm => set_pc vm (pc (ctx vm) + 1)) ;;
  ret (int8 b).

Definition fetchBool : M bool :=
  i <- fetchInt8 ;; ret (negb (i =? 0)).

Definition fetchUint32 : M Z :=
  c <- gets (fun vm => code (ctx vm)) ;;
  p <- gets (fun vm => pc (ctx vm)) ;;
  z <- sliceFrom c p ;;
  v <- LittleEndian.Uint32 z ;;
  modify (fun vm => set_pc vm (pc (ctx vm) + 4)) ;;
  ret v.

Definition fetchInt32 : M Z := v <- fetchUint32 ;; ret (int32 v).

Definition fetchUint64 : M Z :=
  c <- gets (fun vm => code (ctx vm)) ;;
  p <- gets (fun vm => pc (ctx vm)) ;;
  z <- sliceFrom c p ;;
  v <- LittleEndian.Uint64 z ;;
  modify (fun vm => set_pc vm (pc (ctx vm) + 8)) ;;
  ret v.

Definition fetchInt64 : M Z := v <- fetchUint64 ;; ret (int64 v).

(** ** Stack helpers *)

(** [math.Float32bits] and [math.Float64bits] give the pattern as a [uint32]
    and a [uint64]; [math.Float32frombits] is the way back. *)
Definition Float32bits (f : Z) : Z := uint32 f.
Definition Float64bits (f : Z) : Z := uint64 f.
Definition Float32frombits (b : Z) : Z := b.
Definition Float64frombits (b : Z) : Z := b.

Definition popUint64 : M Z :=
  s <- gets (fun vm => stack (ctx vm)) ;;
  match s with
  | [] => throw RuntimeIndexOutOfRange
  | i :: s' => modify (fun vm => set_stack vm s') ;; ret i
  end.

Definition popInt64 : M Z := v <- popUint64 ;; ret (int64 v).
Definition popFloat64 : M Z := v <- popUint64 ;; ret (Float64frombits v).
Definition popUint32 : M Z := v <- popUint64 ;; ret (uint32 v).
Definition popInt32 : M Z := v <- popUint32 ;; ret (int32 v).
Definition popFloat32 : M Z := v <- popUint32 ;; ret (Float32frombits v).

(** [debugStackDepth] is a constant set by a build tag and false in the
    default build, where its check is compiled out. *)
Definition pushUint64 (i : Z) : M unit :=
  modify (fun vm => set_stack vm (i :: stack (ctx vm))).

Definition pushInt64 (i : Z) : M unit := pushUint64 (uint64 i).
Definition pushFloat64 (f : Z) : M unit := pushUint64 (Float64bits f).
Definition pushUint32 (i : Z) : M unit := pushUint64 (uint64 i).
Definition pushInt32 (i : Z) : M unit := pushUint64 (uint64 i).
Definition pushFloat32 (f : Z) : M unit := pushUint32 (Float32bits f).

Definition pushBool (v : bool) : M unit :=
  if v then pushUint64 1 else pushUint64 0.

(** ** Operation logging *)

(** The PostgreSQL server and the [pgx] client are outside the package; the
    server's answers are a parameter.  An answer may depend on the request
    and on everything sent through the transaction before it, so a server
    that refuses every statement after a refused one, or every request on a
    committed transaction, is an instance.  [true] stands for a nil error. *)
Class Server : Type := {
  execOk : Tx -> logRow -> Z -> bool;   (* [tx.Exec] of an insert *)
  commitOk : Tx -> bool;                (* [tx.Commit] *)
  beginOk : ConnPool -> bool }.         (* [pool.Begin] *)

Section Sink.

Context `{Server}.

(** [opLog(vm, opCode, opName, fields, data)].  At every call site of the
    package [fields] and [data] have the same length, passed here as [n];
    the names in [fields] are fixed by the call site, that is by [opCode] and
    [opName], which the row carries to the server.  A refused insert is
    printed and the call returns before [opNum++]; a refused commit or begin
    is passed to [panic]. *)
Definition opLog (opCode : Z) (opName : string) (n : Z) : M unit :=
  fun vm =>
    match pg vm with
    | None => Ok tt vm                       (* Operating logging isn't enabled *)
    | Some pool =>
        if 8 <? n then Ok tt vm              (* "Need to add a case ..." *)
        else
          match PgTx vm with
          | None => Panic RuntimeNilDereference vm
          | Some tx =>
              let row := mkRow (opNum vm) (PgRunNum vm) opCode opName in
              if execOk tx row n then
                let tx' := tx ++ [(Insert row n, true)] in
                if Z.rem (opNum vm) 10000 =? 0 then
                  if commitOk tx' then
                    let pool' := pool ++ [tx' ++ [(CommitTx, true)]] in
                    if beginOk pool'
                    then Ok tt (set_log vm (Some pool') (Some []) (opNum vm + 1))
                    else Panic DatabaseError (set_log vm (Some pool') None (opNum vm))
                  else Panic DatabaseError
                         (set_log vm (Some pool) (Some (tx' ++ [(CommitTx, false)])) (opNum vm))
                else Ok tt (set_log vm (Some pool) (Some tx') (opNum vm + 1))
              else                           (* log.Print(err); return *)
                Ok tt (set_log vm (Some pool) (Some (tx ++ [(Insert row n, false)])) (opNum vm))
          end
    end.

(** ** Linear memory: [exec/memory.go] *)

Definition wasmPageSize : Z := 65536.

Definition fetchBaseAddr : M Z :=
  off <- fetchUint32 ;;
  base <- popInt32 ;;
  ret (int (uint32 (off + uint32 base))).

Definition inBounds (offset : Z) : M bool :=
  c <- gets (fun vm => code (ctx vm)) ;;
  p <- gets (fun vm => pc (ctx vm)) ;;
  z <- sliceFrom c p ;;
  imm <- LittleEndian.Uint32 z ;;
  s <- gets (fun vm => stack (ctx vm)) ;;
  match s with
  | [] => throw RuntimeIndexOutOfRange
  | top :: _ =>
      let addr := uint32 (imm + uint32 top) in
      mem <- gets memory ;;
      ret (int (int addr + offset) <? len mem)
  end.

Definition curMem : M (list Z) :=
  addr <- fetchBaseAddr ;;
  mem <- gets memory ;;
  sliceFrom mem addr.

(** [if !vm.inBounds(k) { panic(ErrOutOfBoundsMemoryAccess) }] *)
Definition checkBounds (k : Z) : M unit :=
  ok <- inBounds k ;;
  if negb ok then throw ErrOutOfBoundsMemoryAccess else ret tt.

Definition i32Load : M unit :=
  checkBounds 3 ;;
  addr <- fetchBaseAddr ;;
  mem <- gets memory ;;
  tl <- sliceFrom mem addr ;;
  val <- LittleEndian.Uint32 tl ;;
  pushUint32 val ;;
  opLog 0x28 "i32 load" 5.

Definition i32Load8s : M unit :=
  checkBounds 0 ;;
  addr <- fetchBaseAddr ;;
  mem <- gets memory ;;
  b <- indexAt mem addr ;;
  pushInt32 (int32 (int8 b)) ;;
  opLog 0x2C "i32 load 8-bit signed" 5.

Definition i32Load8u : M unit :=
  checkBounds 0 ;;
  addr <- fetchBaseAddr ;;
  mem <- gets memory ;;
  b <- indexAt mem addr ;;
  pushUint32 (uint32 (uint8 b)) ;;
  opLog 0x2D "i32 load 8-bit unsigned" 5.

Definition i32Load16s : M unit :=
  checkBounds 1 ;;
  addr <- curMem ;;
  v <- LittleEndian.Uint16 addr ;;
  pushInt32 (int32 (int16 v)) ;;
  opLog 0x2E "i32 load 16-bit signed" 5.

Definition i32Load16u : M unit :=
  checkBounds 1 ;;
  addr <- curMem ;;
  v <- LittleEndian.Uint16 addr ;;
  pushUint32 (uint32 v) ;;
  opLog 0x2F "i32 load 16-bit unsigned" 5.

Definition i64Load : M unit :=
  checkBounds 7 ;;
  addr <- fetchBaseAddr ;;
  mem <- gets memory ;;
  tl <- sliceFrom mem addr ;;
  val <- LittleEndian.Uint64 tl ;;
  pushUint64 val ;;
  opLog 0x29 "i64 load" 5.

Definition i64Load8s : M unit :=
  checkBounds 0 ;;
  addr <- fetchBaseAddr ;;
  mem <- gets memory ;;
  b <- indexAt mem addr ;;
  pushInt64 (int64 (int8 b)) ;;
  opLog 0x30 "i64 load 8-bit signed" 5.

Definition i64Load8u : M unit :=
  checkBounds 0 ;;
  addr <- fetchBaseAddr ;;
  mem <- gets memory ;;
  b <- indexAt mem addr ;;
  pushUint64 (uint64 (uint8 b)) ;;
  opLog 0x31 "i64 load 8-bit unsigned" 5.

Definition i64Load16s : M unit :=
  checkBounds 1 ;;
  addr <- fetchBaseAddr ;;
  mem <- gets memory ;;
  tl <- sliceFrom mem addr ;;
  v <- LittleEndian.Uint16 tl ;;
  pushInt64 (int64 (int16 v)) ;;
  opLog 0x32 "i64 load 16-bit signed" 5.

Definition i64Load16u : M unit :=
  checkBounds 1 ;;
  addr <- fetchBaseAddr ;;
  mem <- gets memory ;;
  tl <- sliceFrom mem addr ;;
  v <- LittleEndian.Uint16 tl ;;
  pushUint64 (uint64 v) ;;
  opLog 0x33 "i64 load 16-bit unsigned" 5.

Definition i64Load32s : M unit :=
  checkBounds 3 ;;
  addr <- fetchBaseAddr ;;
  mem <- gets memory ;;
  tl <- sliceFrom mem addr ;;
  v <- LittleEndian.Uint32 tl ;;
  pushInt64 (int64 (int32 v)) ;;
  opLog 0x34 "i64 load 32-bit signed" 5.

Definition i64Load32u : M unit :=
  checkBounds 3 ;;
  addr <- fetchBaseAddr ;;
  mem <- gets memory ;;
  tl <- sliceFrom mem addr ;;
  v <- LittleEndian.Uint32 tl ;;
  pushUint64 (uint64 v) ;;
  opLog 0x35 "i64 load 32-bit signed" 5.

Definition f32Load : M unit :=
  checkBounds 3 ;;
  addr <- fetchBaseAddr ;;
  mem <- gets memory ;;
  tl <- sliceFrom mem addr ;;
  b <- LittleEndian.Uint32 tl ;;
  let val := Float32frombits b in
  pushFloat32 val ;;
  opLog 0x2A "f32 load" 5.

Definition f64Load : M unit :=
  checkBounds 7 ;;
  addr <- fetchBaseAddr ;;
  mem <- gets memory ;;
  tl <- sliceFrom mem addr ;;
  b <- LittleEndian.Uint64 tl ;;
  let val := Float64frombits b in
  pushFloat64 val ;;
  opLog 0x2B "f64 load" 5.

Definition f32Store : M unit :=
  f <- popFloat32 ;;
  let val := Float32bits f in
  checkBounds 3 ;;
  addr <- fetchBaseAddr ;;
  putBytes addr 4 val ;;
  opLog 0x38 "f32 store" 5.

Definition f64Store : M unit :=
  f <- popFloat64 ;;
  let v := Float64bits f in
  checkBounds 7 ;;
  addr <- fetchBaseAddr ;;
  putBytes addr 8 v ;;
  opLog 0x38 "f64 store" 5.

Definition i32Store : M unit :=
  val <- popUint32 ;;
  checkBounds 3 ;;
  addr <- fetchBaseAddr ;;
  putBytes addr 4 val ;;
  opLog 0x36 "i32 store" 5.

(** [vm.memory[addr] = val] *)
Definition putByte (addr : Z) (val : Z) : M unit :=
  mem <- gets memory ;;
  _ <- indexAt mem addr ;;
  modify (fun vm => set_memory vm (splice (memory vm) addr [val])).

Definition i32Store8 : M unit :=
  v <- popUint32 ;;
  let val := uint8 v in
  checkBounds 0 ;;
  addr <- fetchBaseAddr ;;
  putByte addr val ;;
  opLog 0x3A "i32 store 8-bit" 5.

Definition i32Store16 : M unit :=
  v <- popUint32 ;;
  let val := uint16 v in
  checkBounds 1 ;;
  addr <- fetchBaseAddr ;;
  putBytes addr 2 val ;;
  opLog 0x3B "i32 store 16-bit" 5.

Definition i64Store : M unit :=
  val <- popUint64 ;;
  checkBounds 7 ;;
  addr <- fetchBaseAddr ;;
  putBytes addr 8 val ;;
  opLog 0x37 "i64 store" 5.

Definition i64Store8 : M unit :=
  v <- popUint64 ;;
  let val := uint8 v in
  checkBounds 0 ;;
  addr <- fetchBaseAddr ;;
  putByte addr val ;;
  opLog 0x3C "i64 store 8-bit" 5.

Definition i64Store16 : M unit :=
  v <- popUint64 ;;
  let val := uint16 v in
  checkBounds 1 ;;
  addr <- fetchBaseAddr ;;
  putBytes addr 2 val ;;
  opLog 0x3D "i64 store 16-bit" 5.

Definition i64Store32 : M unit :=
  v <- popUint64 ;;
  let val := uint32 v in
  checkBounds 3 ;;
  addr <- fetchBaseAddr ;;
  putBytes addr 4 val ;;
  opLog 0x3E "i64 store 32-bit" 5.

(** The typed loads and stores, with the width in bytes of each access. *)
Inductive memop : Type :=
| I32Load | I32Load8s | I32Load8u | I32Load16s | I32Load16u
| I64Load | I64Load8s | I64Load8u | I64Load16s | I64Load16u | I64Load32s | I64Load32u
| F32Load | F64Load
| F32Store | F64Store
| I32Store | I32Store8 | I32Store16
| I64Store | I64Store8 | I64Store16 | I64Store32.

Definition isStore (o : memop) : bool :=
  match o with
  | F32Store | F64Store | I32Store | I32Store8 | I32Store16
  | I64Store | I64Store8 | I64Store16 | I64Store32 => true
  | _ => false
  end.

Definition width (o : memop) : Z :=
  match o with
  | I32Load8s | I32Load8u | I64Load8s | I64Load8u | I32Store8 | I64Store8 => 1
  | I32Load16s | I32Load16u | I64Load16s | I64Load16u | I32Store16 | I64Store16 => 2
  | I32Load | I64Load32s | I64Load32u | F32Load | F32Store | I32Store | I64Store32 => 4
  | I64Load | F64Load | F64Store | I64Store => 8
  end.

Definition handler (o : memop) : M unit :=
  match o with
  | I32Load => i32Load | I32Load8s => i32Load8s | I32Load8u => i32Load8u
  | I32Load16s => i32Load16s | I32Load16u => i32Load16u
  | I64Load => i64Load | I64Load8s => i64Load8s | I64Load8u => i64Load8u
  | I64Load16s => i64Load16s | I64Load16u => i64Load16u
  | I64Load32s => i64Load32s | I64Load32u => i64Load32u
  | F32Load => f32Load | F64Load => f64Load
  | F32Store => f32Store | F64Store => f64Store
  | I32Store => i32Store | I32Store8 => i32Store8 | I32Store16 => i32Store16
  | I64Store => i64Store | I64Store8 => i64Store8 | I64Store16 => i64Store16
  | I64Store32 => i64Store32
  end.

(** ** Go arithmetic used by the numeric handlers *)

(** [x / y] and [x % y] on integers: a run-time panic on a zero divisor,
    otherwise truncated division; the caller wraps into the operand type. *)
Definition quo (x y : Z) : M Z :=
  if y =? 0 then throw RuntimeDivideByZero else ret (Z.quot x y).
Definition rem (x y : Z) : M Z :=
  if y =? 0 then throw RuntimeDivideByZero else ret (Z.rem x y).

(** [x << s] and [x >> s] with an unsigned count: Go shifts by the count as
    it is, whatever its size; [>>] on a signed operand is arithmetic. *)
Definition shl (wrap : Z -> Z) (x s : Z) : Z := wrap (Z.shiftl x s).
Definition shr (x s : Z) : Z := Z.shiftr x s.

(** [math/bits] *)
Fixpoint ctz_pos (p : positive) : Z :=
  match p with xO q => 1 + ctz_pos q | _ => 0 end.
Fixpoint ones_pos (p : positive) : Z :=
  match p with xH => 1 | xO q => ones_pos q | xI q => 1 + ones_pos q end.
Definition bitLen (x : Z) : Z := if x <=? 0 then 0 else Z.log2 x + 1.
Definition LeadingZeros (n x : Z) : Z := n - bitLen x.
Definition TrailingZeros (n x : Z) : Z :=
  match x with Zpos p => ctz_pos p | _ => n end.
Definition OnesCount (x : Z) : Z :=
  match x with Zpos p => ones_pos p | _ => 0 end.
(** [RotateLeft32(x, k)]: [s := uint(k) & 31; x<<s | x>>(32-s)]. *)
Definition RotateLeft (n : Z) (wrap : Z -> Z) (x k : Z) : Z :=
  let s := Z.land (uint64 k) (n - 1) in
  Z.lor (shl wrap x s) (shr x (n - s)).

(** ** Integer operators: [exec/num.go] *)

Definition i32Clz : M unit :=
  v1 <- popUint32 ;;
  let val := uint64 (LeadingZeros 32 v1) in
  pushUint64 val ;;
  opLog 0x67 "i32 Count leading zero bits" 5.

Definition i32Ctz : M unit :=
  v1 <- popUint32 ;;
  let val := uint64 (TrailingZeros 32 v1) in
  pushUint64 val ;;
  opLog 0x68 "i32 Count trailing zero bits" 5.

Definition i32Popcnt : M unit :=
  v1 <- popUint32 ;;
  let val := uint64 (OnesCount v1) in
  pushUint64 val ;;
  opLog 0x69 "i32 Count number of one bits" 5.

Definition i32Add : M unit :=
  v1 <- popUint32 ;;
  v2 <- popUint32 ;;
  let val := uint32 (v1 + v2) in
  pushUint32 val ;;
  opLog 0x6A "i32 Add" 6.

Definition i32Sub : M unit :=
  v2 <- popUint32 ;;
  v1 <- popUint32 ;;
  let val := uint32 (v1 - v2) in
  pushUint32 val ;;
  opLog 0x6B "i32 Sub" 6.

Definition i32Mul : M unit :=
  v2 <- popUint32 ;;
  v1 <- popUint32 ;;
  let val := uint32 (v1 * v2) in
  pushUint32 val ;;
  opLog 0x6C "i32 Multiply" 6.

Definition i32DivS : M unit :=
  v2 <- popInt32 ;;
  v1 <- popInt32 ;;
  q <- quo v1 v2 ;;
  let val := int32 q in
  pushInt32 val ;;
  opLog 0x6D "i32 Divide signed" 6.

Definition i32DivU : M unit :=
  v2 <- popUint32 ;;
  v1 <- popUint32 ;;
  q <- quo v1 v2 ;;
  let val := uint32 q in
  pushUint32 val ;;
  opLog 0x6E "i32 Divide unsigned" 6.

Definition i32RemS : M unit :=
  v2 <- popInt32 ;;
  v1 <- popInt32 ;;
  r <- rem v1 v2 ;;
  let val := int32 r in
  pushInt32 val ;;
  opLog 0x6F "i32 Remainder signed" 6.

Definition i32RemU : M unit :=
  v2 <- popUint32 ;;
  v1 <- popUint32 ;;
  r <- rem v1 v2 ;;
  let val := uint32 r in
  pushUint32 val ;;
  opLog 0x70 "i32 Remainder unsigned" 6.

Definition i32And : M unit :=
  v2 <- popUint32 ;;
  v1 <- popUint32 ;;
  let val := Z.land v1 v2 in
  pushUint32 val ;;
  opLog 0x71 "i32 And" 6.

Definition i32Or : M unit :=
  v2 <- popUint32 ;;
  v1 <- popUint32 ;;
  let val := Z.lor v1 v2 in
  pushUint32 val ;;
  opLog 0x72 "i32 Or" 6.

Definition i32Xor : M unit :=
  v2 <- popUint32 ;;
  v1 <- popUint32 ;;
  let val := Z.lxor v1 v2 in
  pushUint32 val ;;
  opLog 0x73 "i32 Xor" 6.

Definition i32Shl : M unit :=
  v2 <- popUint32 ;;
  v1 <- popUint32 ;;
  let val := shl uint32 v1 v2 in
  pushUint32 val ;;
  opLog 0x74 "i32 Shift left" 6.

Definition i32ShrS : M unit :=
  v2 <- popUint32 ;;
  v1 <- popInt32 ;;
  let val := shr v1 v2 in
  pushInt32 val ;;
  opLog 0x75 "i32 Shift right signed" 6.

Definition i32ShrU : M unit :=
  v2 <- popUint32 ;;
  v1 <- popUint32 ;;
  let val := shr v1 v2 in
  pushUint32 val ;;
  opLog 0x76 "i32 Shift right unsigned" 6.

Definition i32Rotl : M unit :=
  v2 <- popUint32 ;;
  v1 <- popUint32 ;;
  let val := RotateLeft 32 uint32 v1 (int v2) in
  pushUint32 val ;;
  opLog 0x77 "i32 Rotate left" 6.

Definition i32Rotr : M unit :=
  v2 <- popUint32 ;;
  v1 <- popUint32 ;;
  let val := RotateLeft 32 uint32 v1 (int (- int v2)) in
  pushUint32 val ;;
  opLog 0x78 "i32 Rotate right" 6.

Definition i32LeS : M unit :=
  v2 <- popInt32 ;;
  v1 <- popInt32 ;;
  let cond := v1 <=? v2 in
  pushBool cond ;;
  opLog 0x4C "i32 Less than or equal signed" 6.

Definition i32LeU : M unit :=
  v2 <- popUint32 ;;
  v1 <- popUint32 ;;
  let cond := v1 <=? v2 in
  pushBool cond ;;
  opLog 0x4D "i32 Less than or equal unsigned" 6.

Definition i32LtS : M unit :=
  v2 <- popInt32 ;;
  v1 <- popInt32 ;;
  let cond := v1 <? v2 in
  pushBool cond ;;
  opLog 0x48 "i32 Less than signed" 6.

Definition i32LtU : M unit :=
  v2 <- popUint32 ;;
  v1 <- popUint32 ;;
  let cond := v1 <? v2 in
  pushBool cond ;;
  opLog 0x49 "i32 Less than unsigned" 6.

Definition i32GtS : M unit :=
  v2 <- popInt32 ;;
  v1 <- popInt32 ;;
  let cond := v1 >? v2 in
  pushBool cond ;;
  opLog 0x4A "i32 Greater than signed" 6.

Definition i32GtU : M unit :=
  v2 <- popUint32 ;;
  v1 <- popUint32 ;;
  let cond := v1 >? v2 in
  pushBool cond ;;
  opLog 0x4B "i32 Greater than unsigned" 6.

Definition i32GeS : M unit :=
  v2 <- popInt32 ;;
  v1 <- popInt32 ;;
  let cond := v1 >=? v2 in
  pushBool cond ;;
  opLog 0x4E "i32 Greater than or equal signed" 6.

Definition i32GeU : M unit :=
  v2 <- popUint32 ;;
  v1 <- popUint32 ;;
  let cond := v1 >=? v2 in
  pushBool cond ;;
  opLog 0x4F "i32 Greater than or equal unsigned" 6.

Definition i32Eqz : M unit :=
  val <- popUint32 ;;
  let cond := val =? 0 in
  pushBool cond ;;
  opLog 0x45 "i32 Equal to zero" 5.

Definition i32Eq : M unit :=
  arg1 <- popUint32 ;;
  arg2 <- popUint32 ;;
  let cond := arg1 =? arg2 in
  pushBool cond ;;
  opLog 0x46 "i32 Equal" 6.

Definition i32Ne : M unit :=
  v2 <- popUint32 ;;
  v1 <- popUint32 ;;
  let cond := negb (v1 =? v2) in
  pushBool cond ;;
  opLog 0x47 "i32 Not equal" 6.

Definition i64DivS : M unit :=
  v2 <- popInt64 ;;
  v1 <- popInt64 ;;
  q <- quo v1 v2 ;;
  pushInt64 (int64 q).

Definition i64DivU : M unit :=
  v2 <- popUint64 ;;
  v1 <- popUint64 ;;
  q <- quo v1 v2 ;;
  pushUint64 (uint64 q).

Definition i64RemS : M unit :=
  v2 <- popInt64 ;;
  v1 <- popInt64 ;;
  r <- rem v1 v2 ;;
  pushInt64 (int64 r).

Definition i64RemU : M unit :=
  v2 <- popUint64 ;;
  v1 <- popUint64 ;;
  r <- rem v1 v2 ;;
  pushUint64 (uint64 r).

Definition i64Shl : M unit :=
  v2 <- popUint64 ;;
  v1 <- popUint64 ;;
  pushUint64 (shl uint64 v1 v2).

Definition i64ShrS : M unit :=
  v2 <- popUint64 ;;
  v1 <- popInt64 ;;
  pushInt64 (shr v1 v2).

Definition i64ShrU : M unit :=
  v2 <- popUint64 ;;
  v1 <- popUint64 ;;
  pushUint64 (shr v1 v2).

(** ** Floating point

    The integer value of a float is computed from its bit pattern; the
    rounding arithmetic of the hardware is an interface. *)

Inductive fval : Type :=
| FNaN
| FInf (neg : bool)
| FFin (neg : bool) (m e : Z).   (* (-1)^neg * m * 2^e *)

(** The value of a float32 pattern; it is also the value of its promotion
    [float64(f)], which is exact. *)
Definition decode32 (b : Z) : fval :=
  let s := Z.testbit b 31 in
  let e := Z.land (Z.shiftr b 23) 0xFF in
  let m := Z.land b 0x7FFFFF in
  if e =? 255 then (if m =? 0 then FInf s else FNaN)
  else if e =? 0 then FFin s m (-149)
  else FFin s (m + 2 ^ 23) (e - 150).

Definition decode64 (b : Z) : fval :=
  let s := Z.testbit b 63 in
  let e := Z.land (Z.shiftr b 52) 0x7FF in
  let m := Z.land b 0xFFFFFFFFFFFFF in
  if e =? 2047 then (if m =? 0 then FInf s else FNaN)
  else if e =? 0 then FFin s m (-1074)
  else FFin s (m + 2 ^ 52) (e - 1075).

(** [math.Trunc]: NaN and the infinities are returned as they are. *)
Definition Trunc (f : fval) : fval :=
  match f with
  | FFin s m e => if e <? 0 then FFin s (Z.shiftr m (- e)) 0 else FFin s m e
  | _ => f
  end.

(** The integer a float without fraction stands for. *)
Definition integral (f : fval) : option Z :=
  match f with
  | FFin s m e =>
      if e <? 0 then None
      else Some (if s then - (m * 2 ^ e) else m * 2 ^ e)
  | _ => None
  end.

(** Go leaves the result of converting a float that the integer type cannot
    represent to the implementation: the conversion succeeds with some value
    of the type.  [unrepresentable lo hi f] is the platform's choice. *)
Class Platform : Type := {
  unrepresentable : Z -> Z -> fval -> Z }.

(** [T(f)] for an integer type [T] of range [lo..hi] and a float [f]. *)
Definition floatToInt `{Platform} (lo hi : Z) (wrap : Z -> Z) (f : fval) : Z :=
  match integral (Trunc f) with
  | Some t => if (lo <=? t) && (t <=? hi) then t else wrap (unrepresentable lo hi f)
  | None => wrap (unrepresentable lo hi f)
  end.

(** A platform whose conversion instructions saturate and turn NaN into 0. *)
Definition saturating : Platform := {|
  unrepresentable lo hi f :=
    match f with
    | FNaN => 0
    | FInf s => if s then lo else hi
    | FFin s _ _ => if s then lo else hi
    end |}.

(** Arithmetic on IEEE-754 bit patterns. *)
Class FloatOps : Type := {
  promote : Z -> Z;                       (* float64(f) *)
  demote : Z -> Z;                        (* float32(d) *)
  f32OfInt : Z -> Z;                      (* float32(i) *)
  f64OfInt : Z -> Z;                      (* float64(i) *)
  f32Negate : Z -> Z;
  f32Plus : Z -> Z -> Z;
  f32Minus : Z -> Z -> Z;
  f32Times : Z -> Z -> Z;
  f32Quo : Z -> Z -> Z;
  f32Equal : Z -> Z -> bool;
  f32Less : Z -> Z -> bool;
  f32Greater : Z -> Z -> bool;
  f32LessEq : Z -> Z -> bool;
  f32GreaterEq : Z -> Z -> bool;
  mathAbs : Z -> Z;
  mathCeil : Z -> Z;
  mathFloor : Z -> Z;
  mathTrunc : Z -> Z;
  mathSqrt : Z -> Z;
  mathMin : Z -> Z -> Z;
  mathMax : Z -> Z -> Z;
  mathCopysign : Z -> Z -> Z }.

(** ** Conversions: [exec/conv.go] *)

Section Conv.
Context `{Platform} `{FloatOps}.

Definition i32Wrapi64 : M unit :=
  v1 <- popUint64 ;;
  let val := uint32 v1 in
  pushUint32 val ;;
  opLog 0xA7 "i32 Wrap i64" 5.

Definition i32TruncSF32 : M unit :=
  v1 <- popFloat32 ;;
  let val := floatToInt (- 2 ^ 31) (2 ^ 31 - 1) int32 (Trunc (decode32 v1)) in
  pushInt32 val ;;
  opLog 0xA8 "i32 Truncate f32 signed" 5.

Definition i32TruncUF32 : M unit :=
  v1 <- popFloat32 ;;
  let val := floatToInt 0 (2 ^ 32 - 1) uint32 (Trunc (decode32 v1)) in
  pushUint32 val ;;
  opLog 0xA9 "i32 Truncate f32 unsigned" 5.

Definition i32TruncSF64 : M unit :=
  v1 <- popFloat64 ;;
  let val := floatToInt (- 2 ^ 31) (2 ^ 31 - 1) int32 (Trunc (decode64 v1)) in
  pushInt32 val ;;
  opLog 0xAA "i32 Truncate f64 signed" 5.

Definition i32TruncUF64 : M unit :=
  v1 <- popFloat64 ;;
  let val := floatToInt 0 (2 ^ 32 - 1) uint32 (Trunc (decode64 v1)) in
  pushUint32 val ;;
  opLog 0xAB "i32 Truncate f64 unsigned" 5.

Definition i64ExtendSI32 : M unit :=
  v1 <- popInt32 ;;
  let val := int64 v1 in
  pushInt64 val ;;
  opLog 0xAC "i64 Extend i32 signed" 5.

Definition i64ExtendUI32 : M unit :=
  v1 <- popUint32 ;;
  let val := uint64 v1 in
  pushUint64 val ;;
  opLog 0xAD "i64 Extend i32 Unsigned" 5.

Definition i64TruncSF32 : M unit :=
  v1 <- popFloat32 ;;
  let val := floatToInt (- 2 ^ 63) (2 ^ 63 - 1) int64 (Trunc (decode32 v1)) in
  pushInt64 val ;;
  opLog 0xAE "i64 Truncate f32 signed" 5.

Definition i64TruncUF32 : M unit :=
  v1 <- popFloat32 ;;
  let val := floatToInt 0 (2 ^ 64 - 1) uint64 (Trunc (decode32 v1)) in
  pushUint64 val ;;
  opLog 0xAF "i64 Truncate f32 unsigned" 5.

Definition i64TruncSF64 : M unit :=
  v1 <- popFloat64 ;;
  let val := floatToInt (- 2 ^ 63) (2 ^ 63 - 1) int64 (Trunc (decode64 v1)) in
  pushInt64 val ;;
  opLog 0xB0 "i64 Truncate f64 signed" 5.

Definition i64TruncUF64 : M unit :=
  v1 <- popFloat64 ;;
  let val := floatToInt 0 (2 ^ 64 - 1) uint64 (Trunc (decode64 v1)) in
  pushUint64 val ;;
  opLog 0xB1 "i64 Truncate f64 unsigned" 5.

Definition f32ConvertSI32 : M unit :=
  v1 <- popInt32 ;;
  let val := f32OfInt v1 in
  pushFloat32 val ;;
  opLog 0xB2 "f32 Convert i32 signed" 5.

Definition f32ConvertUI32 : M unit :=
  v1 <- popUint32 ;;
  let val := f32OfInt v1 in
  pushFloat32 val ;;
  opLog 0xB3 "f32 Convert i32 unsigned" 5.

Definition f32ConvertSI64 : M unit :=
  v1 <- popInt64 ;;
  let val := f32OfInt v1 in
  pushFloat32 val ;;
  opLog 0xB4 "f32 Convert i64 signed" 5.

Definition f32ConvertUI64 : M unit :=
  v1 <- popUint64 ;;
  let val := f32OfInt v1 in
  pushFloat32 val ;;
  opLog 0xB5 "f32 Convert i64 unsigned" 5.

Definition f32DemoteF64 : M unit :=
  v1 <- popFloat64 ;;
  let val := demote v1 in
  pushFloat32 val ;;
  opLog 0xB6 "f32 Demote f64" 5.

Definition f64ConvertSI32 : M unit :=
  v1 <- popInt32 ;;
  let val := f64OfInt v1 in
  pushFloat64 val ;;
  opLog 0xB7 "f64 Convert i32 signed" 5.

Definition f64ConvertUI32 : M unit :=
  v1 <- popUint32 ;;
  let val := f64OfInt v1 in
  pushFloat64 val ;;
  opLog 0xB8 "f64 Convert i32 unsigned" 5.

Definition f64PromoteF32 : M unit :=
  v1 <- popFloat32 ;;
  let val := promote v1 in
  pushFloat64 val ;;
  opLog 0xBB "f64 Promote f32" 5.

End Conv.

(** ** float32 operators: [exec/num.go] *)

Section Float32.
Context `{Platform} `{FloatOps}.

(** The float64 constant 0.5. *)
Definition half64 : Z := 0x3FE0000000000000.

Definition f32Abs : M unit :=
  v1 <- popFloat32 ;;
  let val := demote (mathAbs (promote v1)) in
  pushFloat32 val ;;
  opLog 0x8B "f32 Absolute" 5.

Definition f32Neg : M unit :=
  v1 <- popFloat32 ;;
  let val := f32Negate v1 in
  pushFloat32 val ;;
  opLog 0x8C "f32 Negative" 5.

Definition f32Ceil : M unit :=
  v1 <- popFloat32 ;;
  let val := demote (mathCeil (promote v1)) in
  pushFloat32 val ;;
  opLog 0x8D "f32 Ceiling" 5.

Definition f32Floor : M unit :=
  v1 <- popFloat32 ;;
  let val := demote (mathFloor (promote v1)) in
  pushFloat32 val ;;
  opLog 0x8E "f32 Floor" 5.

Definition f32Trunc : M unit :=
  v1 <- popFloat32 ;;
  let val := demote (mathTrunc (promote v1)) in
  pushFloat32 val ;;
  opLog 0x8F "f32 Trunc" 5.

Definition f32Nearest : M unit :=
  f <- popFloat32 ;;
  let sum := f32Plus f (demote (mathCopysign half64 (promote f))) in
  let val := f32OfInt (floatToInt (- 2 ^ 31) (2 ^ 31 - 1) int32 (decode32 (Float32bits sum))) in
  pushFloat32 val ;;
  opLog 0x90 "f32 Nearest" 5.

Definition f32Sqrt : M unit :=
  v1 <- popFloat32 ;;
  let val := demote (mathSqrt (promote v1)) in
  pushFloat32 val ;;
  opLog 0x91 "f32 Square root" 5.

Definition f32Add : M unit :=
  v2 <- popFloat32 ;;
  v1 <- popFloat32 ;;
  let val := f32Plus v1 v2 in
  pushFloat32 val ;;
  opLog 0x92 "f32 Add" 6.

Definition f32Sub : M unit :=
  v2 <- popFloat32 ;;
  v1 <- popFloat32 ;;
  let val := f32Minus v1 v2 in
  pushFloat32 val ;;
  opLog 0x93 "f32 Sub" 6.

Definition f32Mul : M unit :=
  v2 <- popFloat32 ;;
  v1 <- popFloat32 ;;
  let val := f32Times v1 v2 in
  pushFloat32 val ;;
  opLog 0x94 "f32 Multiply" 6.

Definition f32Div : M unit :=
  v2 <- popFloat32 ;;
  v1 <- popFloat32 ;;
  let val := f32Quo v1 v2 in
  pushFloat32 val ;;
  opLog 0x95 "f32 Divide" 6.

Definition f32Min : M unit :=
  v2 <- popFloat32 ;;
  v1 <- popFloat32 ;;
  let val := demote (mathMin (promote v1) (promote v2)) in
  pushFloat32 val ;;
  opLog 0x96 "f32 Min" 6.

Definition f32Max : M unit :=
  v2 <- popFloat32 ;;
  v1 <- popFloat32 ;;
  let val := demote (mathMax (promote v1) (promote v2)) in
  pushFloat32 val ;;
  opLog 0x97 "f32 Max" 6.

Definition f32Copysign : M unit :=
  v2 <- popFloat32 ;;
  v1 <- popFloat32 ;;
  let val := demote (mathCopysign (promote v1) (promote v2)) in
  pushFloat32 val ;;
  opLog 0x98 "f32 Copy sign" 6.

Definition f32Eq : M unit :=
  v2 <- popFloat32 ;;
  v1 <- popFloat32 ;;
  let cond := f32Equal v1 v2 in
  pushBool cond ;;
  opLog 0x5B "f32 Equal" 6.

Definition f32Ne : M unit :=
  v2 <- popFloat32 ;;
  v1 <- popFloat32 ;;
  let cond := negb (f32Equal v1 v2) in
  pushBool cond ;;
  opLog 0x5C "f32 Not equal" 6.

Definition f32Lt : M unit :=
  v2 <- popFloat32 ;;
  v1 <- popFloat32 ;;
  let cond := f32Less v1 v2 in
  pushBool cond ;;
  opLog 0x5D "f32 Less than" 6.

Definition f32Gt : M unit :=
  v2 <- popFloat32 ;;
  v1 <- popFloat32 ;;
  let cond := f32Greater v1 v2 in
  pushBool cond ;;
  opLog 0x5C "f32 Greater than" 6.

Definition f32Le : M unit :=
  v2 <- popFloat32 ;;
  v1 <- popFloat32 ;;
  let cond := f32LessEq v1 v2 in
  pushBool cond ;;
  opLog 0x5F "f32 Less than or equal" 6.

Definition f32Ge : M unit :=
  v2 <- popFloat32 ;;
  v1 <- popFloat32 ;;
  let cond := f32GreaterEq v1 v2 in
  pushBool cond ;;
  opLog 0x60 "f32 Greater than or equal" 6.

End Float32.

(** ** Constants, locals, parametric and control handlers *)

Definition i32Const : M unit :=
  z <- fetchUint32 ;;
  pushUint32 z ;;
  opLog 0x41 "i32 constant" 5.

Definition i64Const : M unit :=
  z <- fetchUint64 ;;
  pushUint64 z ;;
  opLog 0x42 "i64 constant" 5.

Definition getLocal : M unit :=
  idx <- fetchUint32 ;;
  l <- gets (fun vm => locals (ctx vm)) ;;
  val <- indexAt l (int idx) ;;
  pushUint64 val ;;
  opLog 0x20 "Get local" 6.

Definition drop : M unit :=
  s <- gets (fun vm => stack (ctx vm)) ;;
  match s with
  | [] => throw RuntimeIndexOutOfRange
  | _ :: s' => modify (fun vm => set_stack vm s')
  end ;;
  opLog 0x1A "Drop" 4.

(** The file is in the sources in two versions.  In the one that logs the
    top of the stack, as [exec/const.go] and [exec/control.go] do,
    [unreachable] traps without logging; in the other it logs first.  Both
    log [nop], with two fields. *)
Definition unreachable : M unit := throw ErrUnreachable.

Definition unreachableLogged : M unit :=
  opLog 0x00 "Unreachable" 2 ;;
  throw ErrUnreachable.

Definition nop : M unit := opLog 0x01 "Nop" 2.

(** ** Calls: [exec/call.go] *)

Section Call.
(** [vm.funcs[i].call(vm, i)] dispatches on the [function] interface, whose
    two implementations are defined outside the files embedded here. *)
Variable callFunction : function -> Z -> M unit.

Definition call : M unit :=
  idx <- fetchUint32 ;;
  m <- gets module ;;
  fn <- indexAt (FunctionIndexSpace m) idx ;;
  opLog 0x10 "Call function start" 4 ;;
  fs <- gets funcs ;;
  f <- indexAt fs idx ;;
  callFunction f (int64 idx) ;;
  opLog 0x10 "Call function end" 4.

(** [for i := range expect { if expect[i] != actual[i] { panic(...) } }] *)
Fixpoint sameTypes (expect actual : list ValueType) : M unit :=
  match expect with
  | [] => ret tt
  | e :: expect' =>
      match actual with
      | [] => throw RuntimeIndexOutOfRange
      | a :: actual' =>
          if negb (ValueType_eqb e a) then throw ErrSignatureMismatch
          else sameTypes expect' actual'
      end
  end.

Definition callIndirect : M unit :=
  idx <- fetchUint32 ;;
  m <- gets module ;;
  fnExpect <- indexAt (Types_Entries m) idx ;;
  _ <- fetchUint32 ;;
  tableIndex <- popUint32 ;;
  table <- indexAt (TableIndexSpace m) 0 ;;
  if int tableIndex >=? len table then throw ErrUndefinedElementIndex else
  elemIndex <- indexAt table tableIndex ;;
  fnActual <- indexAt (FunctionIndexSpace m) elemIndex ;;
  if negb (len (ParamTypes fnExpect) =? len (ParamTypes (Sig fnActual)))
  then throw ErrSignatureMismatch else
  if negb (len (ReturnTypes fnExpect) =? len (ReturnTypes (Sig fnActual)))
  then throw ErrSignatureMismatch else
  sameTypes (ParamTypes fnExpect) (ParamTypes (Sig fnActual)) ;;
  sameTypes (ReturnTypes fnExpect) (ReturnTypes (Sig fnActual)) ;;
  opLog 0x11 "Call indirect function start" 3 ;;
  fs <- gets funcs ;;
  f <- indexAt fs elemIndex ;;
  callFunction f (int64 elemIndex) ;;
  opLog 0x11 "Call indirect function end" 3.

End Call.

(** ** The dispatch loop and [ExecCode]: [exec/vm.go] *)

(** The opcode bytes the loop handles inline; their values are constants of
    the [operators] and [compile] packages. *)
Record ControlOps : Type := mkControlOps {
  opReturn : Z;
  OpJmp : Z;
  OpJmpZ : Z;
  OpJmpNz : Z;
  opBrTable : Z;
  OpDiscard : Z;
  OpDiscardPreserveTop : Z;
  opWagonNativeExec : Z }.

Inductive flow : Type := Continue | Break.

(** What [ExecCode] hands back: a value of the declared result type. *)
Inductive value : Type :=
| U32 (v : Z) | U64 (v : Z) | F32 (bits : Z) | F64 (bits : Z).

Inductive error : Type :=
| InvalidFunctionIndexError (i : Z)
| ErrInvalidArgumentCount
| InvalidReturnTypeError (t : ValueType)
| Recovered (p : panic).        (* the error made from a recovered panic *)

(** How a call of [ExecCode] ends: it returns [(rtrn, err)], or the panic
    leaves through it, or the model stops. *)
Inductive result : Type :=
| Returned (rtrn : option value) (err : option error) (vm : VM)
| Unwound (p : panic) (vm : VM)
| Stopped (h : halt).

(** The body of [ExecCode] up to its last statement either returns early
    with an error or reaches [return rtrn, nil]. *)
Inductive early : Type :=
| EarlyErr (e : error)
| Normal (rtrn : option value).

(** [vm.ctx.stack = vm.ctx.stack[:len(vm.ctx.stack)-int(n)]] *)
Definition discardTop (n : Z) : M unit :=
  s <- gets (fun vm => stack (ctx vm)) ;;
  if int n <? 0 then (fun _ => Halt BeyondModel)
  else if len s <? int n then throw RuntimeIndexOutOfRange
  else modify (fun vm => set_stack vm (skipn (Z.to_nat (int n)) s)).

(** [top = vm.ctx.stack[len(vm.ctx.stack)-1]] *)
Definition peek : M Z :=
  s <- gets (fun vm => stack (ctx vm)) ;;
  match s with
  | [] => throw RuntimeIndexOutOfRange
  | top :: _ => ret top
  end.

(** The branch shared by [JMP_NZ] and [br_table]. *)
Definition discardPreserving (preserveTop : bool) (n : Z) : M unit :=
  top <- (if preserveTop then peek else ret 0) ;;
  discardTop n ;;
  if preserveTop then pushUint64 top else ret tt.

(** The deferred function of [ExecCode]:
    [err = vm.PgTx.Commit(); if err != nil { panic(err) }].  [Commit] through
    a nil [*pgx.Tx] reads the transaction's status, so a nil receiver is a nil
    dereference. *)
Definition Commit : M unit :=
  fun vm =>
    match PgTx vm with
    | None => Panic RuntimeNilDereference vm
    | Some tx =>
        if commitOk tx then
          let tx' := tx ++ [(CommitTx, true)] in
          Ok tt (set_log vm (option_map (fun pool => pool ++ [tx']) (pg vm)) (Some tx') (opNum vm))
        else
          Panic DatabaseError (set_log vm (pg vm) (Some (tx ++ [(CommitTx, false)])) (opNum vm))
    end.

Section Exec.
Variable ops : ControlOps.
(** [vm.funcTable], filled by [newFuncTable]; a nil entry is [None]. *)
Variable funcTable : Z -> option (M unit).
Variable nativeCodeInvocation : Z -> M unit.
(** [vm.module.GetFunction(i)]: a pointer to the function, or nil. *)
Variable GetFunction : Module -> Z -> option Function.

Definition step : M flow :=
  c <- gets (fun vm => code (ctx vm)) ;;
  p <- gets (fun vm => pc (ctx vm)) ;;
  op <- indexAt c p ;;
  modify (fun vm => set_pc vm (pc (ctx vm) + 1)) ;;
  if op =? opReturn ops then
    opLog op "Return" 2 ;;
    ret Break
  else if op =? OpJmp ops then
    target <- fetchInt64 ;;
    modify (fun vm => set_pc vm target) ;;
    opLog op "Jmp unconditional" 3 ;;
    ret Continue
  else if op =? OpJmpZ ops then
    target <- fetchInt64 ;;
    v <- popUint32 ;;
    let cond := v =? 0 in
    (if cond then modify (fun vm => set_pc vm target) else ret tt) ;;
    opLog op "Jmp if zero" 5 ;;
    ret Continue
  else if op =? OpJmpNz ops then
    target <- fetchInt64 ;;
    preserveTop <- fetchBool ;;
    discard <- fetchInt64 ;;
    v <- popUint32 ;;
    let cond := negb (v =? 0) in
    (if cond then
       modify (fun vm => set_pc vm target) ;;
       discardPreserving preserveTop discard
     else ret tt) ;;
    opLog op "Jmp if Not Zero / branch if" 7 ;;
    ret Continue
  else if op =? opBrTable ops then
    idx <- fetchInt64 ;;
    label <- popInt32 ;;
    fs <- gets funcs ;;
    cur <- gets (fun vm => curFunc (ctx vm)) ;;
    f <- indexAt fs cur ;;
    match f with
    | goFunction _ => throw (NotCompiledFunction cur)
    | compiled cf =>
        table <- indexAt (branchTables cf) idx ;;
        target <- (if (0 <=? label) && (label <? int32 (len (Targets table)))
                   then indexAt (Targets table) (int32 label)
                   else ret (DefaultTarget table)) ;;
        if Return target then ret Break
        else
          modify (fun vm => set_pc vm (Addr target)) ;;
          discardPreserving (PreserveTop target) (Discard target) ;;
          ret Continue
    end
  else if op =? OpDiscard ops then
    place <- fetchInt64 ;;
    discardTop place ;;
    opLog op "Discard" 3 ;;
    ret Continue
  else if op =? OpDiscardPreserveTop ops then
    top <- peek ;;
    place <- fetchInt64 ;;
    discardTop place ;;
    pushUint64 top ;;
    opLog op "Discard preserving top stack value" 3 ;;
    ret Continue
  else if op =? opWagonNativeExec ops then
    opLog op "Wagon native execution op - shouldn't happen" 2 ;;
    i <- fetchUint32 ;;
    nativeCodeInvocation i ;;
    ret Continue
  else
    match funcTable op with
    | None => throw RuntimeNilDereference
    | Some h => h ;; ret Continue
    end.

(** [for int(vm.ctx.pc) < len(vm.ctx.code) && !vm.abort { ... }] *)
Fixpoint execLoop (fuel : nat) : M unit :=
  fun vm =>
    if (int (pc (ctx vm)) <? len (code (ctx vm))) && negb (abort vm) then
      match fuel with
      | O => Halt OutOfFuel
      | S fuel' =>
          (fl <- step ;;
           match fl with
           | Break => ret tt
           | Continue => execLoop fuel'
           end) vm
      end
    else Ok tt vm.

Definition execCode (fuel : nat) (c : compiledFunction) : M Z :=
  execLoop fuel ;;
  if returns c then peek else ret 0.

Definition execBody (fuel : nat) (fnIndex : Z) (args : list Z) : M early :=
  fs <- gets funcs ;;
  if int fnIndex >? len fs then ret (EarlyErr (InvalidFunctionIndexError fnIndex)) else
  m <- gets module ;;
  match GetFunction m (int fnIndex) with
  | None => throw RuntimeNilDereference
  | Some fn =>
      if negb (len (ParamTypes (Sig fn)) =? len args)
      then ret (EarlyErr ErrInvalidArgumentCount) else
      f <- indexAt fs fnIndex ;;
      match f with
      | goFunction _ => throw (NotCompiledFunction fnIndex)
      | compiled c =>
          (if totalLocalVars c <? 0 then throw RuntimeIndexOutOfRange else ret tt) ;;
          modify (fun vm =>
            set_ctx vm (mkContext [] (repeat 0 (Z.to_nat (totalLocalVars c)))
                                  (cf_code c) 0 fnIndex)) ;;
          (if totalLocalVars c <? len args then
             modify (fun vm =>
               set_ctx vm (mkContext [] (firstn (Z.to_nat (totalLocalVars c)) args)
                                     (cf_code c) 0 fnIndex)) ;;
             throw RuntimeIndexOutOfRange
           else
             modify (fun vm =>
               set_ctx vm (mkContext [] (splice (locals (ctx vm)) 0 args)
                                     (cf_code c) 0 fnIndex))) ;;
          res <- execCode fuel c ;;
          if returns c then
            match GetFunction m (int fnIndex) with
            | None => throw RuntimeNilDereference
            | Some fn' =>
                rtrnType <- indexAt (ReturnTypes (Sig fn')) 0 ;;
                match rtrnType with
                | ValueTypeI32 => ret (Normal (Some (U32 (uint32 res))))
                | ValueTypeI64 => ret (Normal (Some (U64 (uint64 res))))
                | ValueTypeF32 => ret (Normal (Some (F32 (Float32frombits (uint32 res)))))
                | ValueTypeF64 => ret (Normal (Some (F64 (Float64frombits res))))
                | ValueTypeOther _ => ret (EarlyErr (InvalidReturnTypeError rtrnType))
                end
            end
          else ret (Normal None)
      end
  end.

(** The deferred [recover] of [ExecCode], installed when [vm.RecoverPanic]
    is set on entry: the panic becomes [err]; [rtrn] keeps its value. *)
Definition recovered (on : bool) (rtrn : option value) (p : panic) (vm : VM) : result :=
  if on then Returned rtrn (Some (Recovered p)) vm else Unwound p vm.

Definition ExecCode (fuel : nat) (fnIndex : Z) (args : list Z) (vm : VM) : result :=
  match execBody fuel fnIndex args vm with
  | Ok (EarlyErr e) vm1 => Returned None (Some e) vm1
  | Ok (Normal rtrn) vm1 =>
      (* defer func() { err = vm.PgTx.Commit(); if err != nil { panic(err) } }();
         return rtrn, nil *)
      match Commit vm1 with
      | Ok _ vm2 => Returned rtrn None vm2
      | Panic p vm2 => recovered (RecoverPanic vm) rtrn p vm2
      | Halt h => Stopped h
      end
  | Panic p vm1 => recovered (RecoverPanic vm) None p vm1
  | Halt h => Stopped h
  end.

End Exec.

(** ** Vocabulary of the statements *)

(** The telemetry sink is absent, or it has an open transaction (as after
    [NewVM] with a connection pool). *)
Definition sinkReady (vm : VM) : Prop :=
  match pg vm, PgTx vm with
  | Some _, None => False
  | _, _ => True
  end.

(** The machine after one [opLog] call. *)
Definition logState (opCode : Z) (opName : string) (n : Z) (vm : VM) : VM :=
  match opLog opCode opName n vm with
  | Ok _ vm' => vm'
  | _ => vm
  end.

(** The 4-byte immediate at offset [p] of the code, if it is there. *)
Definition codeUint32 (c : list Z) (p : Z) : option Z :=
  if (0 <=? p) && (p <=? len c) then
    match skipn (Z.to_nat p) c with
    | b0 :: b1 :: b2 :: b3 :: _ =>
        Some (uint32 (b0 + b1 * 2 ^ 8 + b2 * 2 ^ 16 + b3 * 2 ^ 24))
    | _ => None
    end
  else None.

(** Static offset plus dynamic base, wrapped as an unsigned 32-bit number. *)
Definition effectiveAddr (offset base : Z) : Z := uint32 (offset + uint32 base).

(** The operands a memory access pops: the base for a load, the value and
    below it the base for a store. *)
Definition operands (o : memop) (v base : Z) (rest : list Z) : list Z :=
  if isStore o then v :: base :: rest else base :: rest.

(** The upper half of a stack slot. *)
Definition upper32 (slot : Z) : Z := Z.shiftr slot 32.

(** A handler that, when it completes, leaves a slot satisfying [P] on top. *)
Definition pushes (P : Z -> Prop) (h : M unit) : Prop :=
  forall vm vm', h vm = Ok tt vm' ->
    exists s rest, stack (ctx vm') = s :: rest /\ P s.

(** The slot is the two's-complement widening of the signed 32-bit [v]. *)
Definition signExtends (v s : Z) : Prop :=
  - 2 ^ 31 <= v < 2 ^ 31 /\ s = uint64 v.

(** A handler whose outcome depends on its top [n] operand slots only
    through their low 32 bits. *)
Definition low32 (a b : Z) : Prop := uint32 a = uint32 b.

Definition reads32 (n : nat) (h : M unit) : Prop :=
  forall vm xs ys rest,
    List.length xs = n -> Forall2 low32 xs ys ->
    h (set_stack vm (xs ++ rest)) = h (set_stack vm (ys ++ rest)).

(** Two runs that end alike: the same completion state, or the same panic
    with the same memory and stack depth. *)
Definition sameRun (r1 r2 : outcome unit) : Prop :=
  match r1, r2 with
  | Ok _ vm1, Ok _ vm2 => vm1 = vm2
  | Panic p1 vm1, Panic p2 vm2 =>
      p1 = p2 /\ memory vm1 = memory vm2 /\
      List.length (stack (ctx vm1)) = List.length (stack (ctx vm2))
  | Halt h1, Halt h2 => h1 = h2
  | _, _ => False
  end.

Section Tables.
Context `{Platform} `{FloatOps}.

(** The numeric handlers with one and with two 32-bit operands. *)
Definition unary32 : list (M unit) :=
  [ i32Clz; i32Ctz; i32Popcnt; i32Eqz;
    i64ExtendSI32; i64ExtendUI32;
    i32TruncSF32; i32TruncUF32; i64TruncSF32; i64TruncUF32;
    f32ConvertSI32; f32ConvertUI32; f64ConvertSI32; f64ConvertUI32; f64PromoteF32;
    f32Abs; f32Neg; f32Ceil; f32Floor; f32Trunc; f32Nearest; f32Sqrt ].

Definition binary32 : list (M unit) :=
  [ i32Add; i32Sub; i32Mul; i32DivS; i32DivU; i32RemS; i32RemU;
    i32And; i32Or; i32Xor; i32Shl; i32ShrS; i32ShrU; i32Rotl; i32Rotr;
    i32LeS; i32LeU; i32LtS; i32LtU; i32GtS; i32GtU; i32GeS; i32GeU;
    i32Eq; i32Ne;
    f32Add; f32Sub; f32Mul; f32Div; f32Min; f32Max; f32Copysign;
    f32Eq; f32Ne; f32Lt; f32Gt; f32Le; f32Ge ].

(** The float-to-integer truncations. *)
Definition truncations : list (Z * string * M unit) :=
  [ (0xA8, "i32 Truncate f32 signed"%string, i32TruncSF32);
    (0xA9, "i32 Truncate f32 unsigned"%string, i32TruncUF32);
    (0xAA, "i32 Truncate f64 signed"%string, i32TruncSF64);
    (0xAB, "i32 Truncate f64 unsigned"%string, i32TruncUF64);
    (0xAE, "i64 Truncate f32 signed"%string, i64TruncSF32);
    (0xAF, "i64 Truncate f32 unsigned"%string, i64TruncUF32);
    (0xB0, "i64 Truncate f64 signed"%string, i64TruncSF64);
    (0xB1, "i64 Truncate f64 unsigned"%string, i64TruncUF64) ].

End Tables.

(** The stores of a 32-bit value. *)
Definition stores32 (o : memop) : bool :=
  match o with
  | F32Store | I32Store | I32Store8 | I32Store16 => true
  | _ => false
  end.

(** ** Instances used in the examples *)

(** The opcode bytes of the lowered stream. *)
Definition wagonOps : ControlOps :=
  mkControlOps 0x0f 0x0c 0x03 0x0d 0x0e 0x0b 0x05 0xfe.

(** A dispatch table holding the handlers embedded above under the opcode
    each of them logs. *)
Definition exampleTable : Z -> option (M unit) :=
  fun op =>
    if op =? 0x00 then Some unreachable
    else if op =? 0x01 then Some nop
    else if op =? 0x1A then Some drop
    else if op =? 0x20 then Some getLocal
    else if op =? 0x28 then Some i32Load
    else if op =? 0x36 then Some i32Store
    else if op =? 0x41 then Some i32Const
    else if op =? 0x42 then Some i64Const
    else if op =? 0x6A then Some i32Add
    else if op =? 0x6B then Some i32Sub
    else if op =? 0x6C then Some i32Mul
    else if op =? 0x6D then Some i32DivS
    else if op =? 0x6F then Some i32RemS
    else if op =? 0x74 then Some i32Shl
    else if op =? 0x75 then Some i32ShrS
    else if op =? 0x76 then Some i32ShrU
    else None.

(** A lookup in the function index space that yields nil out of range. *)
Definition lookupFunction (m : Module) (i : Z) : option Function :=
  if (i >=? len (FunctionIndexSpace m)) || (i <? 0) then None
  else nth_error (FunctionIndexSpace m) (Z.to_nat i).

(** A stand-in for the float arithmetic where an example has to name one:
    every operation hands back its first operand. *)
Definition firstOperand : FloatOps := {|
  promote x := x; demote x := x; f32OfInt x := x; f64OfInt x := x;
  f32Negate x := x;
  f32Plus x _ := x; f32Minus x _ := x; f32Times x _ := x; f32Quo x _ := x;
  f32Equal x y := x =? y; f32Less x y := x <? y; f32Greater x y := x >? y;
  f32LessEq x y := x <=? y; f32GreaterEq x y := x >=? y;
  mathAbs x := x; mathCeil x := x; mathFloor x := x; mathTrunc x := x;
  mathSqrt x := x;
  mathMin x _ := x; mathMax x _ := x; mathCopysign x _ := x |}.

Definition noNative : Z -> M unit := fun _ => throw RuntimeNilDereference.

Definition noCall : function -> Z -> M unit := fun _ _ => ret tt.

Definition emptyModule : Module := mkModule [] [] [].

(** Table slot 0 holds a function of type (i32, i32) -> i32; the only type
    entry is (i32) -> i32. *)
Definition sigUnary : FunctionSig := mkSig [ValueTypeI32] [ValueTypeI32].
Definition sigBinary : FunctionSig :=
  mkSig [ValueTypeI32; ValueTypeI32] [ValueTypeI32].

Definition indirectVM (tableIndex : Z) : VM :=
  mkVM (mkContext [tableIndex] [] [0; 0; 0; 0; 0; 0; 0; 0] 0 0)
       (mkModule [sigUnary] [mkFunction sigBinary false "add"] [[0]])
       [] [] [goFunction sigBinary] false false None None 0 0.

(** A machine with the given stack, code and memory and no telemetry sink. *)
Definition machine (s : list Z) (c : list Z) (mem : list Z) : VM :=
  mkVM (mkContext s [] c 0 0) emptyModule [] mem [] false false None None 0 0.

(** [func() i32 { i32.const 7; return }] as function 0 of a module. *)
Definition seven : compiledFunction :=
  mkCompiled [0x41; 7; 0; 0; 0; 0x0f] [] 1 0 0 true.

Definition sevenSig : FunctionSig := mkSig [] [ValueTypeI32].

Definition sevenVM (recover : bool) : VM :=
  mkVM (mkContext [] [] [] 0 0)
       (mkModule [sevenSig] [mkFunction sevenSig false "seven"] [])
       [] [] [compiled seven] recover false None None 0 0.

(** The same machine with a connection pool and an open transaction. *)
Definition sevenVMLogged : VM :=
  mkVM (mkContext [] [] [] 0 0)
       (mkModule [sevenSig] [mkFunction sevenSig false "seven"] [])
       [] [] [compiled seven] false false (Some []) (Some []) 1 0.

(** ** Locals, globals and [select]: [exec/var.go], [exec/control.go] *)

Definition set_locals (vm : VM) (l : list Z) : VM :=
  set_ctx vm (mkContext (stack (ctx vm)) l (code (ctx vm)) (pc (ctx vm)) (curFunc (ctx vm))).
Definition set_globals (vm : VM) (g : list Z) : VM :=
  mkVM (ctx vm) (module vm) g (memory vm) (funcs vm) (RecoverPanic vm)
       (abort vm) (pg vm) (PgTx vm) (PgRunNum vm) (opNum vm).
Definition set_abort (vm : VM) (b : bool) : VM :=
  mkVM (ctx vm) (module vm) (globals vm) (memory vm) (funcs vm) (RecoverPanic vm)
       b (pg vm) (PgTx vm) (PgRunNum vm) (opNum vm).

(** [s[i] = v]: the slice with slot [i] replaced; panics unless
    [0 <= i < len(s)]. *)
Definition assignAt (s : list Z) (i v : Z) : M (list Z) :=
  _ <- indexAt s i ;;
  ret (splice s i [v]).

Definition setLocal : M unit :=
  idx <- fetchUint32 ;;
  val <- popUint64 ;;
  l <- gets (fun vm => locals (ctx vm)) ;;
  l' <- assignAt l (int idx) val ;;
  modify (fun vm => set_locals vm l') ;;
  opLog 0x21 "Set local" 6.

Definition teeLocal : M unit :=
  idx <- fetchUint32 ;;
  val <- peek ;;
  l <- gets (fun vm => locals (ctx vm)) ;;
  l' <- assignAt l (int idx) val ;;
  modify (fun vm => set_locals vm l') ;;
  opLog 0x22 "Tee local" 6.

Definition getGlobal : M unit :=
  idx <- fetchUint32 ;;
  g <- gets globals ;;
  val <- indexAt g (int idx) ;;
  pushUint64 val ;;
  opLog 0x23 "Get global" 6.

Definition setGlobal : M unit :=
  idx <- fetchUint32 ;;
  val <- popUint64 ;;
  g <- gets globals ;;
  g' <- assignAt g (int idx) val ;;
  modify (fun vm => set_globals vm g') ;;
  opLog 0x24 "Set global" 6.

Definition selectOp : M unit :=
  c <- popUint32 ;;
  val2 <- popUint64 ;;
  val1 <- popUint64 ;;
  let cond := negb (c =? 0) in
  let val := if cond then val1 else val2 in
  pushUint64 val ;;
  opLog 0x1B "Select" 9.

(** ** Memory size: [exec/memory.go] *)

Definition currentMemory : M unit :=
  _ <- fetchInt8 ;;
  mem <- gets memory ;;
  let val := int32 (Z.quot (len mem) wasmPageSize) in
  pushInt32 val ;;
  opLog 0x3F "current memory size" 4.

(** [make([]byte, n)] for a size computed at run time: a negative size is a
    run-time panic ("makeslice: len out of range"), carried here by the
    run-time range error. *)
Definition makeBytes (n : Z) : M (list Z) :=
  if n <? 0 then throw RuntimeIndexOutOfRange
  else ret (repeat 0 (Z.to_nat n)).

(** [n*wasmPageSize] is an [int32] product. *)
Definition growMemory : M unit :=
  _ <- fetchInt8 ;;
  mem <- gets memory ;;
  let curLen := Z.quot (len mem) wasmPageSize in
  n <- popInt32 ;;
  fresh <- makeBytes (int32 (n * wasmPageSize)) ;;
  modify (fun vm => set_memory vm (memory vm ++ fresh)) ;;
  pushInt32 (int32 curLen) ;;
  opLog 0x40 "grow memory" 4.

(** ** 64-bit integer operators: [exec/num.go] *)

Definition i64Clz : M unit :=
  v <- popUint64 ;; pushUint64 (uint64 (LeadingZeros 64 v)).

Definition i64Ctz : M unit :=
  v <- popUint64 ;; pushUint64 (uint64 (TrailingZeros 64 v)).

Definition i64Popcnt : M unit :=
  v <- popUint64 ;; pushUint64 (uint64 (OnesCount v)).

Definition i64Add : M unit :=
  a <- popUint64 ;; b <- popUint64 ;; pushUint64 (uint64 (a + b)).

Definition i64Sub : M unit :=
  v2 <- popUint64 ;;
  v1 <- popUint64 ;;
  pushUint64 (uint64 (v1 - v2)).

Definition i64Mul : M unit :=
  a <- popUint64 ;; b <- popUint64 ;; pushUint64 (uint64 (a * b)).

Definition i64And : M unit :=
  a <- popUint64 ;; b <- popUint64 ;; pushUint64 (Z.land a b).

Definition i64Or : M unit :=
  a <- popUint64 ;; b <- popUint64 ;; pushUint64 (Z.lor a b).

Definition i64Xor : M unit :=
  a <- popUint64 ;; b <- popUint64 ;; pushUint64 (Z.lxor a b).

Definition i64Rotl : M unit :=
  v2 <- popInt64 ;;
  v1 <- popUint64 ;;
  pushUint64 (RotateLeft 64 uint64 v1 (int v2)).

Definition i64Rotr : M unit :=
  v2 <- popInt64 ;;
  v1 <- popUint64 ;;
  pushUint64 (RotateLeft 64 uint64 v1 (int (- int v2))).

Definition i64Eq : M unit :=
  a <- popUint64 ;; b <- popUint64 ;; pushBool (a =? b).

Definition i64Eqz : M unit :=
  a <- popUint64 ;; pushBool (a =? 0).

Definition i64Ne : M unit :=
  a <- popUint64 ;; b <- popUint64 ;; pushBool (negb (a =? b)).

Definition i64LtS : M unit :=
  v2 <- popInt64 ;;
  v1 <- popInt64 ;;
  pushBool (v1 <? v2).

Definition i64LtU : M unit :=
  v2 <- popUint64 ;;
  v1 <- popUint64 ;;
  pushBool (v1 <? v2).

Definition i64GtS : M unit :=
  v2 <- popInt64 ;;
  v1 <- popInt64 ;;
  pushBool (v1 >? v2).

Definition i64GtU : M unit :=
  v2 <- popUint64 ;;
  v1 <- popUint64 ;;
  pushBool (v1 >? v2).

Definition i64LeU : M unit :=
  v2 <- popUint64 ;;
  v1 <- popUint64 ;;
  pushBool (v1 <=? v2).

Definition i64LeS : M unit :=
  v2 <- popInt64 ;;
  v1 <- popInt64 ;;
  pushBool (v1 <=? v2).

Definition i64GeS : M unit :=
  v2 <- popInt64 ;;
  v1 <- popInt64 ;;
  pushBool (v1 >=? v2).

Definition i64GeU : M unit :=
  v2 <- popUint64 ;;
  v1 <- popUint64 ;;
  pushBool (v1 >=? v2).

(** ** float64 operators: [exec/num.go] *)

(** Arithmetic on float64 bit patterns. *)
Class Float64Ops : Type := {
  f64Negate : Z -> Z;
  f64Plus : Z -> Z -> Z;
  f64Minus : Z -> Z -> Z;
  f64Times : Z -> Z -> Z;
  f64Quo : Z -> Z -> Z;
  f64Equal : Z -> Z -> bool;
  f64Less : Z -> Z -> bool;
  f64Greater : Z -> Z -> bool;
  f64LessEq : Z -> Z -> bool;
  f64GreaterEq : Z -> Z -> bool }.

Section Float64.
Context `{Platform} `{FloatOps} `{Float64Ops}.

Definition f64Abs : M unit :=
  v <- popFloat64 ;; pushFloat64 (mathAbs v).

Definition f64Neg : M unit :=
  v <- popFloat64 ;; pushFloat64 (f64Negate v).

Definition f64Ceil : M unit :=
  v <- popFloat64 ;; pushFloat64 (mathCeil v).

Definition f64Floor : M unit :=
  v <- popFloat64 ;; pushFloat64 (mathFloor v).

Definition f64Trunc : M unit :=
  v <- popFloat64 ;; pushFloat64 (mathTrunc v).

Definition f64Nearest : M unit :=
  f <- popFloat64 ;;
  let sum := f64Plus f (mathCopysign half64 f) in
  pushFloat64 (f64OfInt (floatToInt (- 2 ^ 63) (2 ^ 63 - 1) int64 (decode64 (Float64bits sum)))).

Definition f64Sqrt : M unit :=
  v <- popFloat64 ;; pushFloat64 (mathSqrt v).

Definition f64Add : M unit :=
  a <- popFloat64 ;; b <- popFloat64 ;; pushFloat64 (f64Plus a b).

Definition f64Sub : M unit :=
  v2 <- popFloat64 ;;
  v1 <- popFloat64 ;;
  pushFloat64 (f64Minus v1 v2).

Definition f64Mul : M unit :=
  a <- popFloat64 ;; b <- popFloat64 ;; pushFloat64 (f64Times a b).

Definition f64Div : M unit :=
  v2 <- popFloat64 ;;
  v1 <- popFloat64 ;;
  pushFloat64 (f64Quo v1 v2).

Definition f64Min : M unit :=
  a <- popFloat64 ;; b <- popFloat64 ;; pushFloat64 (mathMin a b).

Definition f64Max : M unit :=
  a <- popFloat64 ;; b <- popFloat64 ;; pushFloat64 (mathMax a b).

Definition f64Copysign : M unit :=
  a <- popFloat64 ;; b <- popFloat64 ;; pushFloat64 (mathCopysign a b).

Definition f64Eq : M unit :=
  a <- popFloat64 ;; b <- popFloat64 ;; pushBool (f64Equal a b).

Definition f64Ne : M unit :=
  a <- popFloat64 ;; b <- popFloat64 ;; pushBool (negb (f64Equal a b)).

Definition f64Lt : M unit :=
  v2 <- popFloat64 ;;
  v1 <- popFloat64 ;;
  pushBool (f64Less v1 v2).

Definition f64Gt : M unit :=
  v2 <- popFloat64 ;;
  v1 <- popFloat64 ;;
  pushBool (f64Greater v1 v2).

Definition f64Le : M unit :=
  v2 <- popFloat64 ;;
  v1 <- popFloat64 ;;
  pushBool (f64LessEq v1 v2).

Definition f64Ge : M unit :=
  v2 <- popFloat64 ;;
  v1 <- popFloat64 ;;
  pushBool (f64GreaterEq v1 v2).

(** The two conversions of [exec/conv.go] from a 64-bit integer to float64. *)
Definition f64ConvertSI64 : M unit :=
  v1 <- popInt64 ;;
  let val := f64OfInt v1 in
  pushFloat64 val ;;
  opLog 0xB9 "f64 Convert i64 signed" 5.

Definition f64ConvertUI64 : M unit :=
  v1 <- popUint64 ;;
  let val := f64OfInt v1 in
  pushFloat64 val ;;
  opLog 0xBA "f64 Convert i64 unsigned" 5.

End Float64.

(** ** float constants: [exec/const.go] *)

Definition fetchFloat32 : M Z := v <- fetchUint32 ;; ret (Float32frombits v).
Definition fetchFloat64 : M Z := v <- fetchUint64 ;; ret (Float64frombits v).

Definition f32Const : M unit :=
  z <- fetchFloat32 ;;
  pushFloat32 z ;;
  opLog 0x43 "f32 constant" 5.

Definition f64Const : M unit :=
  z <- fetchFloat64 ;;
  pushFloat64 z ;;
  opLog 0x44 "f64 constant" 5.

(** A stand-in for the float64 arithmetic, as [firstOperand]. *)
Definition firstOperand64 : Float64Ops := {|
  f64Negate x := x;
  f64Plus x _ := x; f64Minus x _ := x; f64Times x _ := x; f64Quo x _ := x;
  f64Equal x y := x =? y; f64Less x y := x <? y; f64Greater x y := x >? y;
  f64LessEq x y := x <=? y; f64GreaterEq x y := x >=? y |}.

(** ** The host's view of the machine: [Process] in [exec/vm.go] *)

Inductive ioError : Type := ErrShortBuffer | ErrShortWrite.

(** [copy(dst, src)]: the elements copied are as many as the shorter slice
    has; the result is [dst] afterwards and their number. *)
Definition copy (dst src : list Z) : list Z * Z :=
  let n := Z.min (len dst) (len src) in
  (firstn (Z.to_nat n) src ++ skipn (Z.to_nat n) dst, n).

(** [s[lo:hi]]; panics unless [0 <= lo <= hi <= len(s)] (the capacity of
    the slice is taken to be its length). *)
Definition sliceRange {A} (s : list A) (lo hi : Z) : M (list A) :=
  if (0 <=? lo) && (lo <=? hi) && (hi <=? len s)
  then ret (firstn (Z.to_nat (hi - lo)) (skipn (Z.to_nat lo) s))
  else throw RuntimeIndexOutOfRange.

(** The [length] both [ReadAt] and [WriteAt] compute first. *)
Definition transferLength (mem p : list Z) (off : Z) : Z :=
  if len mem <? int (len p + int off) then int (len mem - int off) else len p.

(** [ReadAt(p, off)] hands back the buffer as it is afterwards, the count and
    the error. *)
Definition ReadAt (p : list Z) (off : Z) : M (list Z * Z * option ioError) :=
  mem <- gets memory ;;
  let length := transferLength mem p off in
  src <- sliceRange mem off (int64 (off + int64 length)) ;;
  let p' := fst (copy p src) in
  let err := if length <? len p then Some ErrShortBuffer else None in
  ret (p', length, err).

Definition WriteAt (p : list Z) (off : Z) : M (Z * option ioError) :=
  mem <- gets memory ;;
  let length := transferLength mem p off in
  dst <- sliceFrom mem off ;;
  src <- sliceRange p 0 length ;;
  modify (fun vm =>
    set_memory vm (splice (memory vm) off (firstn (Z.to_nat (snd (copy dst src))) src))) ;;
  let err := if length <? len p then Some ErrShortWrite else None in
  ret (length, err).

Definition Terminate : M unit :=
  modify (fun vm => set_abort vm true).

(** ** Vocabulary of the memory round trips *)

(** The slot a load pushes when the bytes it reads are the low bytes of
    [v], least significant first: the unsigned loads and the float loads
    zero-extend, the signed loads sign-extend to the 64 bits of the slot. *)
Definition loaded (o : memop) (v : Z) : Z :=
  match o with
  | I32Load8u | I64Load8u => uint8 v
  | I32Load16u | I64Load16u => uint16 v
  | I32Load | I64Load32u | F32Load => uint32 v
  | I64Load | F64Load => uint64 v
  | I32Load8s | I64Load8s => uint64 (int8 v)
  | I32Load16s | I64Load16s => uint64 (int16 v)
  | I64Load32s => uint64 (int32 v)
  | _ => v
  end.

(** Every element is a byte. *)
Definition allBytes (m : list Z) : Prop := Forall (fun b => 0 <= b < 256) m.

(** ** Tables of the numeric handlers *)

(** The 64-bit integer handlers with two operands and without logging. *)
Definition binary64 : list (M unit) :=
  [ i64Add; i64Sub; i64Mul; i64DivS; i64DivU; i64RemS; i64RemU;
    i64And; i64Or; i64Xor; i64Shl; i64ShrS; i64ShrU; i64Rotl; i64Rotr;
    i64Eq; i64Ne; i64LtS; i64LtU; i64GtS; i64GtU; i64LeU; i64LeS; i64GeS; i64GeU ].

Definition unary64 : list (M unit) := [ i64Clz; i64Ctz; i64Popcnt; i64Eqz ].

Section Tables64.
Context `{Platform} `{FloatOps} `{Float64Ops}.

(** The conversions with a 64-bit operand. *)
Definition conversions64 : list (M unit) :=
  [ i32Wrapi64; i32TruncSF64; i32TruncUF64; i64TruncSF64; i64TruncUF64;
    f32ConvertSI64; f32ConvertUI64; f32DemoteF64; f64ConvertSI64; f64ConvertUI64 ].

(** The float64 handlers with one and with two operands. *)
Definition unaryF64 : list (M unit) :=
  [ f64Abs; f64Neg; f64Ceil; f64Floor; f64Trunc; f64Nearest; f64Sqrt ].

Definition binaryF64 : list (M unit) :=
  [ f64Add; f64Sub; f64Mul; f64Div; f64Min; f64Max; f64Copysign;
    f64Eq; f64Ne; f64Lt; f64Gt; f64Le; f64Ge ].

(** The handlers that push the outcome of a test through [pushBool]: the
    tests of one operand against zero, and the relations between two. *)
Definition tests : list (M unit) := [ i32Eqz; i64Eqz ].

Definition relations : list (M unit) :=
  [ i32Eq; i32Ne; i32LtS; i32LtU; i32GtS; i32GtU; i32LeS; i32LeU; i32GeS; i32GeU;
    i64Eq; i64Ne; i64LtS; i64LtU; i64GtS; i64GtU; i64LeS; i64LeU; i64GeS; i64GeU;
    f32Eq; f32Ne; f32Lt; f32Gt; f32Le; f32Ge;
    f64Eq; f64Ne; f64Lt; f64Gt; f64Le; f64Ge ].

(** Every handler of the package that pushes an i32 or f32 result, by the
    way it pushes: through [pushUint32], [pushFloat32] or [pushBool], or as a
    count of bits, in the first list; through [pushInt32] in the second. *)
Definition pushUnsigned32 : list (M unit) :=
  [ i32Clz; i32Ctz; i32Popcnt; i32Add; i32Sub; i32Mul; i32DivU; i32RemU;
    i32And; i32Or; i32Xor; i32Shl; i32ShrU; i32Rotl; i32Rotr;
    i32LeS; i32LeU; i32LtS; i32LtU; i32GtS; i32GtU; i32GeS; i32GeU;
    i32Eqz; i32Eq; i32Ne;
    i64Eqz; i64Eq; i64Ne; i64LtS; i64LtU; i64GtS; i64GtU; i64LeS; i64LeU; i64GeS; i64GeU;
    i32Load; i32Load8u; i32Load16u; f32Load; i32Const; f32Const;
    i32Wrapi64; i32TruncUF32; i32TruncUF64;
    f32ConvertSI32; f32ConvertUI32; f32ConvertSI64; f32ConvertUI64; f32DemoteF64;
    f32Abs; f32Neg; f32Ceil; f32Floor; f32Trunc; f32Nearest; f32Sqrt;
    f32Add; f32Sub; f32Mul; f32Div; f32Min; f32Max; f32Copysign;
    f32Eq; f32Ne; f32Lt; f32Gt; f32Le; f32Ge;
    f64Eq; f64Ne; f64Lt; f64Gt; f64Le; f64Ge ].

Definition pushSigned32 : list (M unit) :=
  [ i32DivS; i32RemS; i32ShrS; i32Load8s; i32Load16s; i32TruncSF32; i32TruncSF64;
    currentMemory; growMemory ].

End Tables64.

(** A handler step that put its hand on the operand stack and the telemetry
    only. *)
Definition sameFrame (vm vm' : VM) : Prop :=
  memory vm' = memory vm /\ globals vm' = globals vm /\
  locals (ctx vm') = locals (ctx vm) /\ pc (ctx vm') = pc (ctx vm) /\
  code (ctx vm') = code (ctx vm) /\ abort vm' = abort vm.

(** ** Vocabulary of the telemetry *)

(** The rows a transaction holds: those of its accepted inserts. *)
Definition accepted (tx : Tx) : list logRow :=
  flat_map (fun e => match e with (Insert r _, true) => [r] | _ => [] end) tx.

(** The rows the sink holds: those of the committed transactions, then those
    of the open one. *)
Definition rows (vm : VM) : list logRow :=
  match pg vm with Some pool => flat_map accepted pool | None => [] end ++
  match PgTx vm with Some tx => accepted tx | None => [] end.

(** ** Vocabulary of the sink's way back into a run *)

(** The machine with its telemetry sink taken away. *)
Definition withoutSink (vm : VM) : VM := set_log vm None None 0.

(** The server refuses some commit or some begin. *)
Definition refusesCommits : Prop :=
  (exists tx, commitOk tx = false) \/ (exists pool, beginOk pool = false).

(** An action into which the sink reaches back through the server's error
    at most: started with a sink that is absent or has an open transaction,
    it either ends as it ends without any sink, with the same value or the
    same panic and, but for the sink, in the same state, or it panics with
    the error of a commit or begin that the server refused. *)
Definition sinkBlind {A} (m : M A) : Prop :=
  forall vm, sinkReady vm ->
    match m vm, m (withoutSink vm) with
    | Ok a v1, Ok a' v2 => a = a' /\ withoutSink v1 = v2 /\ sinkReady v1
    | Panic p v1, Panic p' v2 =>
        (p = p' /\ withoutSink v1 = v2) \/ (p = DatabaseError /\ refusesCommits)
    | Panic p v1, _ => p = DatabaseError /\ refusesCommits
    | Halt h, Halt h' => h = h'
    | _, _ => False
    end.

(** The typed loads and stores. *)
Definition memops : list memop :=
  [ I32Load; I32Load8s; I32Load8u; I32Load16s; I32Load16u;
    I64Load; I64Load8s; I64Load8u; I64Load16s; I64Load16u; I64Load32s; I64Load32u;
    F32Load; F64Load; F32Store; F64Store; I32Store; I32Store8; I32Store16;
    I64Store; I64Store8; I64Store16; I64Store32 ].

Section Handlers.
Context `{Platform} `{FloatOps} `{Float64Ops}.

(** The handlers embedded in this file that go through the dispatch table. *)
Definition embeddedHandlers : list (M unit) :=
  unary32 ++ binary32 ++ unary64 ++ binary64 ++ conversions64 ++
  unaryF64 ++ binaryF64 ++ List.map handler memops ++
  [ i32Const; i64Const; f32Const; f64Const;
    getLocal; setLocal; teeLocal; getGlobal; setGlobal;
    drop; selectOp; currentMemory; growMemory; nop; unreachable; unreachableLogged ].

End Handlers.

End Sink.

(** A server that accepts every request.  A statement that binds no server
    of its own is about a machine whose sink, if it has one, is answered by
    this server. *)
#[export] Instance acceptingServer : Server :=
  {| execOk := fun _ _ _ => true; commitOk := fun _ => true; beginOk := fun _ => true |}.

(** A server that refuses every request, and one that takes the inserts
    but refuses to commit; they are used in examples only. *)
Definition refusingServer : Server :=
  {| execOk := fun _ _ _ => false; commitOk := fun _ => false; beginOk := fun _ => false |}.

Definition noCommitServer : Server :=
  {| execOk := fun _ _ _ => true; commitOk := fun _ => false; beginOk := fun _ => false |}.

(** * Properties *)

(** ** Machine integers *)

#[local] Arguments wrapU : simpl never.
#[local] Arguments wrapS : simpl never.

Ltac unwrap :=
  unfold uint8, uint16, uint32, uint64, int8, int16, int32, int64, int,
         wrapU, wrapS in *;
  repeat match goal with
         | |- context [2 ^ ?n] =>
             let v := eval compute in (2 ^ n) in change (2 ^ n) with v
         | H : context [2 ^ ?n] |- _ =>
             let v := eval compute in (2 ^ n) in change (2 ^ n) with v in H
         end.

Ltac zlia := Z.div_mod_to_equations; lia.

Lemma uint32_range x : 0 <= uint32 x < 2 ^ 32.
Proof. unwrap. zlia. Qed.

Lemma uint64_range x : 0 <= uint64 x < 2 ^ 64.
Proof. unwrap. zlia. Qed.

Lemma int32_range x : - 2 ^ 31 <= int32 x < 2 ^ 31.
Proof. unwrap. zlia. Qed.

Lemma int64_range x : - 2 ^ 63 <= int64 x < 2 ^ 63.
Proof. unwrap. zlia. Qed.

Lemma uint32_small x : 0 <= x < 2 ^ 32 -> uint32 x = x.
Proof. unwrap. zlia. Qed.

Lemma uint64_small x : 0 <= x < 2 ^ 64 -> uint64 x = x.
Proof. unwrap. zlia. Qed.

Lemma int32_small x : - 2 ^ 31 <= x < 2 ^ 31 -> int32 x = x.
Proof. unwrap. zlia. Qed.

Lemma int64_small x : - 2 ^ 63 <= x < 2 ^ 63 -> int64 x = x.
Proof. unwrap. zlia. Qed.

Lemma int_small x : - 2 ^ 63 <= x < 2 ^ 63 -> int x = x.
Proof. unwrap. zlia. Qed.

Lemma uint32_int32 x : uint32 (int32 x) = uint32 x.
Proof. unwrap. zlia. Qed.

Lemma uint32_idem x : uint32 (uint32 x) = uint32 x.
Proof. unwrap. zlia. Qed.

Lemma uint32_uint64 x : uint32 (uint64 x) = uint32 x.
Proof. unwrap. zlia. Qed.

Lemma int32_uint32 x : - 2 ^ 31 <= x < 2 ^ 31 -> int32 (uint32 x) = x.
Proof. unwrap. zlia. Qed.

Lemma int64_uint64 x : - 2 ^ 63 <= x < 2 ^ 63 -> int64 (uint64 x) = x.
Proof. unwrap. zlia. Qed.

Lemma upper32_uint32 x : 0 <= x < 2 ^ 32 -> upper32 (uint64 x) = 0.
Proof.
  intros Hx. rewrite uint64_small by (unwrap; zlia).
  unfold upper32. rewrite Z.shiftr_div_pow2 by lia.
  apply Z.div_small. exact Hx.
Qed.

(** A negative 32-bit value widened to a slot has all upper bits set. *)
Lemma upper32_negative x :
  - 2 ^ 31 <= x < 0 -> upper32 (uint64 x) = 2 ^ 32 - 1.
Proof.
  intros Hx. unfold upper32. rewrite Z.shiftr_div_pow2 by lia.
  unwrap. zlia.
Qed.

(** ** The monad and the machine state *)

Lemma bind_Ok {A B} (m : M A) (k : A -> M B) vm a vm' :
  m vm = Ok a vm' -> bind m k vm = k a vm'.
Proof. unfold bind. intros ->. reflexivity. Qed.

Lemma bind_Panic {A B} (m : M A) (k : A -> M B) vm p vm' :
  m vm = Panic p vm' -> bind m k vm = Panic p vm'.
Proof. unfold bind. intros ->. reflexivity. Qed.

Lemma bind_inv_Ok {A B} (m : M A) (k : A -> M B) vm b vm'' :
  bind m k vm = Ok b vm'' ->
  exists a vm', m vm = Ok a vm' /\ k a vm' = Ok b vm''.
Proof.
  unfold bind. destruct (m vm) as [a vm'| |]; try discriminate.
  intros Hk. exists a, vm'. split; [reflexivity | exact Hk].
Qed.

Lemma set_stack_twice vm s t : set_stack (set_stack vm s) t = set_stack vm t.
Proof. reflexivity. Qed.

Lemma set_stack_same vm : set_stack vm (stack (ctx vm)) = vm.
Proof. destruct vm as [[? ? ? ? ?] ? ? ? ? ? ? ? ? ? ?]. reflexivity. Qed.

(** ** Logging leaves the machine proper alone *)

Lemma opLog_cases c s n vm :
  opLog c s n vm = Ok tt (logState c s n vm) \/
  (opLog c s n vm = Panic RuntimeNilDereference vm /\ ~ sinkReady vm).
Proof.
  unfold logState, sinkReady, opLog.
  destruct (pg vm) as [pool|]; [| left; reflexivity].
  destruct (8 <? n); [left; reflexivity |].
  destruct (PgTx vm) as [tx|]; [| right; split; [reflexivity | tauto]].
  destruct (Z.rem (opNum vm) 10000 =? 0); left; reflexivity.
Qed.

Lemma opLog_ready c s n vm :
  sinkReady vm -> opLog c s n vm = Ok tt (logState c s n vm).
Proof.
  intros Hr. destruct (opLog_cases c s n vm) as [H | [_ H]]; [exact H | contradiction].
Qed.

Lemma opLog_inv `{Server} c s n vm u vm' :
  opLog c s n vm = Ok u vm' -> vm' = logState c s n vm.
Proof. unfold logState. intros ->. reflexivity. Qed.

(** Whatever the server answers, the machine after the call differs from
    the machine before it in the sink at most. *)
Lemma logState_is_set_log `{Server} c s n vm :
  exists p t k, logState c s n vm = set_log vm p t k.
Proof.
  assert (Hsame : vm = set_log vm (pg vm) (PgTx vm) (opNum vm)) by (destruct vm; reflexivity).
  unfold logState, opLog.
  destruct (pg vm); [| eauto].
  destruct (8 <? n); [eauto |].
  destruct (PgTx vm); [| eauto].
  destruct (execOk _ _ _); [| eauto].
  destruct (Z.rem (opNum vm) 10000 =? 0); [| eauto].
  destruct (commitOk _); [| eauto].
  destruct (beginOk _); eauto.
Qed.

Lemma logState_ctx `{Server} c s n vm : ctx (logState c s n vm) = ctx vm.
Proof. destruct (logState_is_set_log c s n vm) as (p & t & k & ->). reflexivity. Qed.

Lemma logState_memory `{Server} c s n vm : memory (logState c s n vm) = memory vm.
Proof. destruct (logState_is_set_log c s n vm) as (p & t & k & ->). reflexivity. Qed.

(** Without a sink the call is a no-op. *)
Lemma opLog_disabled `{Server} c s n vm : pg vm = None -> opLog c s n vm = Ok tt vm.
Proof. unfold opLog. intros ->. reflexivity. Qed.

Lemma logState_disabled `{Server} c s n vm : pg vm = None -> logState c s n vm = vm.
Proof. unfold logState. intros E. rewrite (opLog_disabled _ _ _ _ E). reflexivity. Qed.

Lemma sinkReady_set_ctx vm c : sinkReady (set_ctx vm c) <-> sinkReady vm.
Proof. reflexivity. Qed.

Lemma sinkReady_set_memory vm m : sinkReady (set_memory vm m) <-> sinkReady vm.
Proof. reflexivity. Qed.

(** ** Handlers read 32-bit operands through their low halves *)

Create HintDb handlers discriminated.

#[local] Hint Unfold
  i32Clz i32Ctz i32Popcnt i32Add i32Sub i32Mul i32DivS i32DivU i32RemS i32RemU
  i32And i32Or i32Xor i32Shl i32ShrS i32ShrU i32Rotl i32Rotr
  i32LeS i32LeU i32LtS i32LtU i32GtS i32GtU i32GeS i32GeU i32Eqz i32Eq i32Ne
  i64DivS i64DivU i64RemS i64RemU i64Shl i64ShrS i64ShrU
  i32Wrapi64 i32TruncSF32 i32TruncUF32 i32TruncSF64 i32TruncUF64
  i64ExtendSI32 i64ExtendUI32 i64TruncSF32 i64TruncUF32 i64TruncSF64 i64TruncUF64
  f32ConvertSI32 f32ConvertUI32 f32ConvertSI64 f32ConvertUI64 f32DemoteF64
  f64ConvertSI32 f64ConvertUI32 f64PromoteF32
  f32Abs f32Neg f32Ceil f32Floor f32Trunc f32Nearest f32Sqrt
  f32Add f32Sub f32Mul f32Div f32Min f32Max f32Copysign
  f32Eq f32Ne f32Lt f32Gt f32Le f32Ge
  i32Load i32Load8s i32Load8u i32Load16s i32Load16u
  i64Load i64Load8s i64Load8u i64Load16s i64Load16u i64Load32s i64Load32u
  f32Load f64Load f32Store f64Store i32Store i32Store8 i32Store16
  i64Store i64Store8 i64Store16 i64Store32 i32Const
  : handlers.

Create HintDb stackops discriminated.

#[local] Hint Unfold
  popUint32 popInt32 popInt64 popFloat32 popFloat64 Float32frombits Float64frombits
  pushUint32 pushInt32 pushInt64 pushFloat32 pushFloat64
  : stackops.

Lemma low32_one xs ys :
  List.length xs = 1%nat -> Forall2 low32 xs ys ->
  exists a a', xs = [a] /\ ys = [a'] /\ uint32 a = uint32 a'.
Proof.
  intros Hl HF. destruct HF as [|a a' xs ys Ha HF]; [discriminate |].
  destruct HF; [| discriminate]. exists a, a'. auto.
Qed.

Lemma low32_two xs ys :
  List.length xs = 2%nat -> Forall2 low32 xs ys ->
  exists a a' b b', xs = [a; b] /\ ys = [a'; b'] /\
                    uint32 a = uint32 a' /\ uint32 b = uint32 b'.
Proof.
  intros Hl HF. destruct HF as [|a a' xs ys Ha HF]; [discriminate |].
  destruct HF as [|b b' xs ys Hb HF]; [discriminate |].
  destruct HF; [| discriminate]. exists a, a', b, b'. auto.
Qed.

Ltac reads32_unary :=
  let vm := fresh "vm" in
  let Hl := fresh "Hl" in let HF := fresh "HF" in
  intros vm xs ys rest Hl HF;
  destruct (low32_one _ _ Hl HF) as (a & a' & -> & -> & Ha);
  autounfold with handlers stackops; cbn; rewrite ?Ha; reflexivity.

Ltac reads32_binary :=
  let vm := fresh "vm" in
  let Hl := fresh "Hl" in let HF := fresh "HF" in
  intros vm xs ys rest Hl HF;
  destruct (low32_two _ _ Hl HF) as (a & a' & b & b' & -> & -> & Ha & Hb);
  autounfold with handlers stackops; cbn; rewrite ?Ha, ?Hb; reflexivity.

Lemma unary32_reads `{Platform} `{FloatOps} h : In h unary32 -> reads32 1 h.
Proof.
  intros Hin. unfold unary32 in Hin. simpl in Hin.
  repeat (destruct Hin as [<- | Hin]; [reads32_unary |]).
  contradiction.
Qed.

Lemma binary32_reads `{Platform} `{FloatOps} h : In h binary32 -> reads32 2 h.
Proof.
  intros Hin. unfold binary32 in Hin. simpl in Hin.
  repeat (destruct Hin as [<- | Hin]; [reads32_binary |]).
  contradiction.
Qed.

(** ** Ranges of the values the handlers push *)

Lemma lt_pow2_32 a : 0 <= a -> (a < 2 ^ 32 <-> Z.log2 a < 32).
Proof.
  intros Ha. destruct (Z.eq_dec a 0) as [-> | Hn].
  - split; intros _; [reflexivity | reflexivity].
  - apply Z.log2_lt_pow2. lia.
Qed.

Lemma land_range a b :
  0 <= a < 2 ^ 32 -> 0 <= b < 2 ^ 32 -> 0 <= Z.land a b < 2 ^ 32.
Proof.
  intros [Ha Ha'] [Hb Hb']. split; [apply Z.land_nonneg; auto |].
  apply lt_pow2_32; [apply Z.land_nonneg; auto |].
  pose proof (Z.log2_land a b Ha Hb). apply lt_pow2_32 in Ha'; lia.
Qed.

Lemma lor_range a b :
  0 <= a < 2 ^ 32 -> 0 <= b < 2 ^ 32 -> 0 <= Z.lor a b < 2 ^ 32.
Proof.
  intros [Ha Ha'] [Hb Hb']. split; [apply Z.lor_nonneg; auto |].
  apply lt_pow2_32; [apply Z.lor_nonneg; auto |].
  rewrite (Z.log2_lor a b Ha Hb).
  apply lt_pow2_32 in Ha', Hb'; lia.
Qed.

Lemma lxor_range a b :
  0 <= a < 2 ^ 32 -> 0 <= b < 2 ^ 32 -> 0 <= Z.lxor a b < 2 ^ 32.
Proof.
  intros [Ha Ha'] [Hb Hb']. split; [apply Z.lxor_nonneg; tauto |].
  apply lt_pow2_32; [apply Z.lxor_nonneg; tauto |].
  pose proof (Z.log2_lxor a b Ha Hb).
  apply lt_pow2_32 in Ha', Hb'; lia.
Qed.

Lemma shr_range a n : 0 <= a < 2 ^ 32 -> 0 <= n -> 0 <= shr a n < 2 ^ 32.
Proof.
  intros [Ha Ha'] Hn. unfold shr. rewrite Z.shiftr_div_pow2 by exact Hn.
  assert (0 < 2 ^ n) by (apply Z.pow_pos_nonneg; lia).
  split; [apply Z.div_pos; lia |].
  apply Z.le_lt_trans with a; [| exact Ha'].
  apply Z.div_le_upper_bound; nia.
Qed.

(** An arithmetic shift keeps a signed 32-bit value in range. *)
Lemma shr_signed_range a n :
  - 2 ^ 31 <= a < 2 ^ 31 -> 0 <= n -> - 2 ^ 31 <= shr a n < 2 ^ 31.
Proof.
  intros [Ha Ha'] Hn. unfold shr. rewrite Z.shiftr_div_pow2 by exact Hn.
  assert (Hp : 0 < 2 ^ n) by (apply Z.pow_pos_nonneg; lia).
  split.
  - apply Z.div_le_lower_bound; [exact Hp |]. nia.
  - apply Z.div_lt_upper_bound; [exact Hp |]. nia.
Qed.

Lemma ctz_pos_range p : 0 <= ctz_pos p < Z.pos p.
Proof.
  induction p; cbn [ctz_pos];
    [ rewrite Pos2Z.inj_xI | rewrite Pos2Z.inj_xO | ]; lia.
Qed.

Lemma ones_pos_range p : 0 < ones_pos p <= Z.pos p.
Proof.
  induction p; cbn [ones_pos];
    [ rewrite Pos2Z.inj_xI | rewrite Pos2Z.inj_xO | ]; lia.
Qed.

Lemma LeadingZeros32_range x : 0 <= x < 2 ^ 32 -> 0 <= LeadingZeros 32 x < 2 ^ 32.
Proof.
  intros [Hx Hx']. unfold LeadingZeros, bitLen.
  destruct (x <=? 0) eqn:E; [lia |].
  apply Z.leb_gt in E.
  pose proof (Z.log2_nonneg x).
  apply lt_pow2_32 in Hx'; lia.
Qed.

Lemma TrailingZeros32_range x : 0 <= x < 2 ^ 32 -> 0 <= TrailingZeros 32 x < 2 ^ 32.
Proof.
  intros [Hx Hx']. unfold TrailingZeros. destruct x as [|p|p]; [lia | | lia].
  pose proof (ctz_pos_range p). lia.
Qed.

Lemma OnesCount_range x : 0 <= x < 2 ^ 32 -> 0 <= OnesCount x < 2 ^ 32.
Proof.
  intros [Hx Hx']. unfold OnesCount. destruct x as [|p|p]; [lia | | lia].
  pose proof (ones_pos_range p). lia.
Qed.

Lemma RotateLeft32_range x k : 0 <= x < 2 ^ 32 -> 0 <= RotateLeft 32 uint32 x k < 2 ^ 32.
Proof.
  intros Hx. unfold RotateLeft, shl.
  apply lor_range; [apply uint32_range |].
  apply shr_range; [exact Hx |].
  assert (0 <= Z.land (uint64 k) (32 - 1) <= 31); [| lia].
  change (32 - 1) with (Z.ones 5). rewrite Z.land_ones by lia.
  change (2 ^ 5) with 32. zlia.
Qed.

Lemma floatToInt_range `{Platform} lo hi wrap f :
  (forall x, lo <= wrap x <= hi) -> lo <= floatToInt lo hi wrap f <= hi.
Proof.
  intros Hw. unfold floatToInt.
  destruct (integral (Trunc f)) as [t|]; [| apply Hw].
  destruct ((lo <=? t) && (t <=? hi)) eqn:E; [lia | apply Hw].
Qed.

(** ** What the stack helpers hand over *)

Lemma popUint64_inv vm a vm' :
  popUint64 vm = Ok a vm' ->
  exists rest, stack (ctx vm) = a :: rest /\ vm' = set_stack vm rest.
Proof.
  unfold popUint64, bind, gets. destruct (stack (ctx vm)) as [|x s]; [discriminate |].
  cbn. intros E. injection E as <- <-. exists s. split; reflexivity.
Qed.

Lemma popUint32_post vm a vm' : popUint32 vm = Ok a vm' -> 0 <= a < 2 ^ 32.
Proof.
  unfold popUint32. intros E. apply bind_inv_Ok in E as (x & vm1 & _ & E).
  injection E as <- _. apply uint32_range.
Qed.

Lemma popFloat32_post vm a vm' : popFloat32 vm = Ok a vm' -> 0 <= a < 2 ^ 32.
Proof.
  unfold popFloat32, Float32frombits. intros E.
  apply bind_inv_Ok in E as (x & vm1 & E1 & E).
  injection E as <- _. exact (popUint32_post _ _ _ E1).
Qed.

Lemma popInt32_post vm a vm' : popInt32 vm = Ok a vm' -> - 2 ^ 31 <= a < 2 ^ 31.
Proof.
  unfold popInt32. intros E. apply bind_inv_Ok in E as (x & vm1 & _ & E).
  injection E as <- _. apply int32_range.
Qed.

Lemma Uint32_post b vm a vm' : LittleEndian.Uint32 b vm = Ok a vm' -> 0 <= a < 2 ^ 32.
Proof.
  unfold LittleEndian.Uint32. destruct b as [|? [|? [|? [|? ?]]]]; try discriminate.
  intros E. injection E as <- _. apply uint32_range.
Qed.

Lemma fetchUint32_post vm a vm' : fetchUint32 vm = Ok a vm' -> 0 <= a < 2 ^ 32.
Proof.
  unfold fetchUint32. intros E.
  apply bind_inv_Ok in E as (c & vm1 & _ & E).
  apply bind_inv_Ok in E as (p & vm2 & _ & E).
  apply bind_inv_Ok in E as (z & vm3 & _ & E).
  apply bind_inv_Ok in E as (v & vm4 & Hv & E).
  apply bind_inv_Ok in E as (u & vm5 & _ & E).
  injection E as <- _. exact (Uint32_post _ _ _ _ Hv).
Qed.

(** ** The slot a handler leaves on top *)

Lemma pushes_bind {A} P (m : M A) k :
  (forall a, pushes P (k a)) -> pushes P (bind m k).
Proof.
  intros Hk vm vm' E. apply bind_inv_Ok in E as (a & vm1 & _ & E).
  exact (Hk a vm1 vm' E).
Qed.

Lemma pushes_bind_post {A} P (R : A -> Prop) (m : M A) k :
  (forall vm a vm', m vm = Ok a vm' -> R a) ->
  (forall a, R a -> pushes P (k a)) -> pushes P (bind m k).
Proof.
  intros Hm Hk vm vm' E. apply bind_inv_Ok in E as (a & vm1 & Ha & E).
  exact (Hk a (Hm _ _ _ Ha) vm1 vm' E).
Qed.

Lemma pushes_push_log `{Server} (P : Z -> Prop) i c s n :
  P i -> pushes P (bind (pushUint64 i) (fun _ => opLog c s n)).
Proof.
  intros Hi vm vm' E. apply bind_inv_Ok in E as ([] & vm1 & E1 & E).
  injection E1 as <-. apply opLog_inv in E. subst vm'.
  rewrite logState_ctx. cbn. eauto.
Qed.

Lemma pushes_push (P : Z -> Prop) i : P i -> pushes P (pushUint64 i).
Proof. intros Hi vm vm' E. injection E as <-. cbn. eauto. Qed.

Create HintDb results discriminated.

#[local] Hint Unfold
  i64Eqz i64Eq i64Ne i64LtS i64LtU i64GtS i64GtU i64LeS i64LeU i64GeS i64GeU
  f64Eq f64Ne f64Lt f64Gt f64Le f64Ge f32Const fetchFloat32 currentMemory growMemory
  : results.

Ltac pushes_step :=
  cbv zeta;
  lazymatch goal with
  | |- pushes _ (bind popUint32 _) =>
      apply (pushes_bind_post _ (fun a => 0 <= a < 2 ^ 32));
      [ exact popUint32_post | intros ? ? ]
  | |- pushes _ (bind popFloat32 _) =>
      apply (pushes_bind_post _ (fun a => 0 <= a < 2 ^ 32));
      [ exact popFloat32_post | intros ? ? ]
  | |- pushes _ (bind popInt32 _) =>
      apply (pushes_bind_post _ (fun a => - 2 ^ 31 <= a < 2 ^ 31));
      [ exact popInt32_post | intros ? ? ]
  | |- pushes _ (bind fetchUint32 _) =>
      apply (pushes_bind_post _ (fun a => 0 <= a < 2 ^ 32));
      [ exact fetchUint32_post | intros ? ? ]
  | |- pushes _ (bind (LittleEndian.Uint32 _) _) =>
      apply (pushes_bind_post _ (fun a => 0 <= a < 2 ^ 32));
      [ intros ? ? ?; apply Uint32_post | intros ? ? ]
  | |- pushes _ (bind (pushBool ?c) _) =>
      unfold pushBool; destruct c; apply pushes_push_log
  | |- pushes _ (bind (pushUint64 _) _) => apply pushes_push_log
  | |- pushes _ (bind (pushUint32 _) _) => unfold pushUint32; apply pushes_push_log
  | |- pushes _ (bind (pushInt32 _) _) => unfold pushInt32; apply pushes_push_log
  | |- pushes _ (bind (pushFloat32 _) _) =>
      unfold pushFloat32, pushUint32, Float32bits; apply pushes_push_log
  | |- pushes _ (bind _ _) => apply pushes_bind; intros ?
  | |- pushes _ (pushBool ?c) => unfold pushBool; destruct c; apply pushes_push
  end.

Ltac in_range32 :=
  lazymatch goal with
  | |- _ <= uint32 _ < _ => apply uint32_range
  | |- _ <= shl uint32 _ _ < _ => unfold shl; apply uint32_range
  | |- _ <= Z.land _ _ < _ => apply land_range; assumption
  | |- _ <= Z.lor _ _ < _ => apply lor_range; assumption
  | |- _ <= Z.lxor _ _ < _ => apply lxor_range; assumption
  | |- _ <= shr _ _ < _ => apply shr_range; [assumption | lia]
  | |- _ <= LeadingZeros _ _ < _ => apply LeadingZeros32_range; assumption
  | |- _ <= TrailingZeros _ _ < _ => apply TrailingZeros32_range; assumption
  | |- _ <= OnesCount _ < _ => apply OnesCount_range; assumption
  | |- _ <= RotateLeft _ _ _ _ < _ => apply RotateLeft32_range; assumption
  | |- _ <= floatToInt _ _ _ _ < _ =>
      match goal with
      | |- _ <= ?t < _ =>
          let Hr := fresh in
          assert (Hr : 0 <= t <= 2 ^ 32 - 1)
            by (apply floatToInt_range; let x := fresh "x" in intros x; pose proof (uint32_range x); lia);
          lia
      end
  | |- _ => first [assumption | lia]
  end.

Ltac upper_zero :=
  lazymatch goal with
  | |- upper32 (uint64 _) = 0 => apply upper32_uint32; in_range32
  | |- upper32 _ = 0 => reflexivity
  end.

Lemma unsigned32_upper `{Server} `{Platform} `{FloatOps} `{Float64Ops} h :
  In h pushUnsigned32 -> pushes (fun s => upper32 s = 0) h.
Proof.
  intros Hin. unfold pushUnsigned32 in Hin. simpl in Hin.
  repeat (destruct Hin as [<- | Hin];
          [ autounfold with handlers results; repeat pushes_step;
            upper_zero | ]).
  contradiction.
Qed.

Lemma signExtends_upper v s :
  signExtends v s ->
  upper32 s = (if v <? 0 then 2 ^ 32 - 1 else 0) /\ int32 (uint32 s) = v.
Proof.
  intros [Hv ->]. split.
  - destruct (v <? 0) eqn:E.
    + apply Z.ltb_lt in E. apply upper32_negative. lia.
    + apply Z.ltb_ge in E. apply upper32_uint32. lia.
  - rewrite uint32_uint64. apply int32_uint32. exact Hv.
Qed.

Ltac signed_range :=
  lazymatch goal with
  | |- _ <= int32 _ < _ => apply int32_range
  | |- _ <= shr _ _ < _ => apply shr_signed_range; [assumption | lia]
  | |- _ <= floatToInt _ _ _ _ < _ =>
      match goal with
      | |- _ <= ?t < _ =>
          let Hr := fresh in
          assert (Hr : - 2 ^ 31 <= t <= 2 ^ 31 - 1)
            by (apply floatToInt_range; let x := fresh "x" in
                intros x; pose proof (int32_range x); lia);
          lia
      end
  end.

Lemma signed32_extends `{Server} `{Platform} `{FloatOps} `{Float64Ops} h :
  In h pushSigned32 -> pushes (fun s => exists v, signExtends v s) h.
Proof.
  intros Hin. unfold pushSigned32 in Hin. simpl in Hin.
  repeat (destruct Hin as [<- | Hin];
          [ autounfold with handlers results; repeat pushes_step;
            eexists; split; [| reflexivity]; signed_range | ]).
  contradiction.
Qed.

(** ** Signed division and remainder *)

Lemma quot_range a b :
  - 2 ^ 31 <= a < 2 ^ 31 -> - 2 ^ 31 <= b < 2 ^ 31 ->
  b <> 0 -> ~ (a = INT32_MIN /\ b = -1) ->
  - 2 ^ 31 <= Z.quot a b < 2 ^ 31.
Proof.
  unfold INT32_MIN. intros Ha Hb Hb0 Hov.
  change (2 ^ 31) with 2147483648 in *.
  assert (Hq := Z.quot_rem' a b).
  assert (a = -2147483648 /\ b = -1 \/ a <> -2147483648 \/ b <> -1) as [Hc | Hc] by lia;
    [contradiction |].
  Z.quot_rem_to_equations. nia.
Qed.

Lemma rem_range a b :
  - 2 ^ 31 <= a < 2 ^ 31 -> - 2 ^ 31 <= b < 2 ^ 31 -> b <> 0 ->
  - 2 ^ 31 <= Z.rem a b < 2 ^ 31.
Proof.
  intros Ha Hb Hb0. change (2 ^ 31) with 2147483648 in *.
  Z.quot_rem_to_equations. nia.
Qed.

Lemma rem_formula a b : a - Z.quot a b * b = Z.rem a b.
Proof. pose proof (Z.quot_rem' a b). lia. Qed.

Lemma popped32 s a : - 2 ^ 31 <= a < 2 ^ 31 -> uint32 s = uint32 a -> int32 (uint32 s) = a.
Proof. intros Ha ->. apply int32_uint32. exact Ha. Qed.

Ltac open_vm vm Hs :=
  destruct vm as [[? ? ? ? ?] ? ? ? ? ? ? ? ? ? ?];
  cbn [ctx stack] in Hs; subst.

Lemma i32DivS_run vm sa sb rest a b :
  sinkReady vm -> stack (ctx vm) = sb :: sa :: rest ->
  - 2 ^ 31 <= a < 2 ^ 31 -> - 2 ^ 31 <= b < 2 ^ 31 ->
  uint32 sa = uint32 a -> uint32 sb = uint32 b -> b <> 0 ->
  i32DivS vm =
  Ok tt (logState 0x6D "i32 Divide signed" 6
           (set_stack vm (uint64 (int32 (Z.quot a b)) :: rest))).
Proof.
  intros Hr Hs Ha Hb Hsa Hsb Hb0. open_vm vm Hs.
  autounfold with handlers stackops. cbn.
  rewrite (popped32 _ _ Ha Hsa), (popped32 _ _ Hb Hsb).
  unfold quo. destruct (Z.eqb_spec b 0) as [|_]; [contradiction |].
  cbn. apply opLog_ready. exact Hr.
Qed.

Lemma i32RemS_run vm sa sb rest a b :
  sinkReady vm -> stack (ctx vm) = sb :: sa :: rest ->
  - 2 ^ 31 <= a < 2 ^ 31 -> - 2 ^ 31 <= b < 2 ^ 31 ->
  uint32 sa = uint32 a -> uint32 sb = uint32 b -> b <> 0 ->
  i32RemS vm =
  Ok tt (logState 0x6F "i32 Remainder signed" 6
           (set_stack vm (uint64 (int32 (Z.rem a b)) :: rest))).
Proof.
  intros Hr Hs Ha Hb Hsa Hsb Hb0. open_vm vm Hs.
  autounfold with handlers stackops. cbn.
  rewrite (popped32 _ _ Ha Hsa), (popped32 _ _ Hb Hsb).
  unfold rem. destruct (Z.eqb_spec b 0) as [|_]; [contradiction |].
  cbn. apply opLog_ready. exact Hr.
Qed.

(** C5. For 32-bit integers [a] and [b] with [b <> 0] and not
    ([a = INT32_MIN] and [b = -1]), [i32.div_s] with left operand [a] and right
    operand [b] pushes the truncating (round-toward-zero) quotient [a ÷ b],
    and [i32.rem_s] pushes [a - (a ÷ b) * b]; each pushed slot is the signed
    32-bit result widened to the slot, and nothing else of the machine
    changes but the telemetry. *)
Theorem i32_div_rem_signed vm sa sb rest a b :
  sinkReady vm -> stack (ctx vm) = sb :: sa :: rest ->
  - 2 ^ 31 <= a < 2 ^ 31 -> - 2 ^ 31 <= b < 2 ^ 31 ->
  uint32 sa = uint32 a -> uint32 sb = uint32 b ->
  b <> 0 -> ~ (a = INT32_MIN /\ b = -1) ->
  i32DivS vm =
    Ok tt (logState 0x6D "i32 Divide signed" 6
             (set_stack vm (uint64 (Z.quot a b) :: rest))) /\
  signExtends (Z.quot a b) (uint64 (Z.quot a b)) /\
  i32RemS vm =
    Ok tt (logState 0x6F "i32 Remainder signed" 6
             (set_stack vm (uint64 (a - Z.quot a b * b) :: rest))) /\
  signExtends (a - Z.quot a b * b) (uint64 (a - Z.quot a b * b)).
Proof.
  intros Hr Hs Ha Hb Hsa Hsb Hb0 Hov.
  pose proof (quot_range a b Ha Hb Hb0 Hov) as Hq.
  pose proof (rem_range a b Ha Hb Hb0) as Hm.
  rewrite rem_formula.
  split; [| split; [| split]].
  - rewrite (i32DivS_run vm sa sb rest a b) by assumption.
    rewrite int32_small by exact Hq. reflexivity.
  - split; [exact Hq | reflexivity].
  - rewrite (i32RemS_run vm sa sb rest a b) by assumption.
    rewrite int32_small by exact Hm. reflexivity.
  - split; [exact Hm | reflexivity].
Qed.

Lemma i32_div_rem_signed_witness :
  i32DivS (machine [uint64 2; uint64 (-7)] [] []) =
    Ok tt (machine [uint64 (-3)] [] []) /\
  i32RemS (machine [uint64 2; uint64 (-7)] [] []) =
    Ok tt (machine [uint64 (-1)] [] []).
Proof.
  assert (H : sinkReady (machine [uint64 2; uint64 (-7)] [] [])) by exact I.
  destruct (i32_div_rem_signed (machine [uint64 2; uint64 (-7)] [] [])
              (uint64 (-7)) (uint64 2) [] (-7) 2 H eq_refl)
    as (Hd & _ & Hm & _).
  - vm_compute. split; [discriminate | reflexivity].
  - vm_compute. split; [discriminate | reflexivity].
  - reflexivity.
  - reflexivity.
  - discriminate.
  - intros [E _]. discriminate E.
  - split; [exact Hd | exact Hm].
Defined.

(** ** Division by zero and the overflowing signed division *)

Lemma int32_zero s : uint32 s = 0 -> int32 (uint32 s) = 0.
Proof. intros ->. reflexivity. Qed.

Lemma i32_zero_divisor vm sa sb rest :
  stack (ctx vm) = sb :: sa :: rest -> uint32 sb = 0 ->
  i32DivS vm = Panic RuntimeDivideByZero (set_stack vm rest) /\
  i32DivU vm = Panic RuntimeDivideByZero (set_stack vm rest) /\
  i32RemS vm = Panic RuntimeDivideByZero (set_stack vm rest) /\
  i32RemU vm = Panic RuntimeDivideByZero (set_stack vm rest).
Proof.
  intros Hs Hz. open_vm vm Hs.
  repeat split; autounfold with handlers stackops; cbn;
    rewrite ?(int32_zero _ Hz), ?Hz; reflexivity.
Qed.

Lemma i64_zero_divisor vm sa rest :
  stack (ctx vm) = 0 :: sa :: rest ->
  i64DivS vm = Panic RuntimeDivideByZero (set_stack vm rest) /\
  i64DivU vm = Panic RuntimeDivideByZero (set_stack vm rest) /\
  i64RemS vm = Panic RuntimeDivideByZero (set_stack vm rest) /\
  i64RemU vm = Panic RuntimeDivideByZero (set_stack vm rest).
Proof.
  intros Hs. open_vm vm Hs.
  repeat split; autounfold with handlers stackops; cbn; reflexivity.
Qed.

Lemma i32DivS_overflow vm sa sb rest :
  sinkReady vm -> stack (ctx vm) = sb :: sa :: rest ->
  uint32 sa = uint32 INT32_MIN -> uint32 sb = uint32 (-1) ->
  i32DivS vm =
  Ok tt (logState 0x6D "i32 Divide signed" 6
           (set_stack vm (uint64 INT32_MIN :: rest))).
Proof.
  intros Hr Hs Ha Hb.
  rewrite (i32DivS_run vm sa sb rest INT32_MIN (-1)); try assumption.
  - reflexivity.
  - vm_compute. split; [discriminate | reflexivity].
  - vm_compute. split; [discriminate | reflexivity].
  - discriminate.
Qed.

Lemma i64DivS_overflow vm sa sb rest :
  stack (ctx vm) = sb :: sa :: rest ->
  int64 sa = INT64_MIN -> int64 sb = -1 ->
  i64DivS vm = Ok tt (set_stack vm (uint64 INT64_MIN :: rest)).
Proof.
  intros Hs Ha Hb. open_vm vm Hs.
  autounfold with handlers stackops. cbn. rewrite Ha, Hb. reflexivity.
Qed.

(** C3, as the code has it.  With a zero divisor (the low 32 bits of the
    popped slot for the i32 operators, the slot itself for the i64 ones) each
    of [div_s], [div_u], [rem_s], [rem_u] panics with Go's integer
    divide-by-zero run-time error after popping both operands and pushes
    nothing.  The signed division of [INT_MIN] by [-1] does not trap: it
    completes and pushes [INT_MIN]. *)
Theorem division_traps vm sa sb rest :
  stack (ctx vm) = sb :: sa :: rest ->
  (uint32 sb = 0 ->
     i32DivS vm = Panic RuntimeDivideByZero (set_stack vm rest) /\
     i32DivU vm = Panic RuntimeDivideByZero (set_stack vm rest) /\
     i32RemS vm = Panic RuntimeDivideByZero (set_stack vm rest) /\
     i32RemU vm = Panic RuntimeDivideByZero (set_stack vm rest)) /\
  (sb = 0 ->
     i64DivS vm = Panic RuntimeDivideByZero (set_stack vm rest) /\
     i64DivU vm = Panic RuntimeDivideByZero (set_stack vm rest) /\
     i64RemS vm = Panic RuntimeDivideByZero (set_stack vm rest) /\
     i64RemU vm = Panic RuntimeDivideByZero (set_stack vm rest)) /\
  (sinkReady vm -> uint32 sa = uint32 INT32_MIN -> uint32 sb = uint32 (-1) ->
     i32DivS vm =
     Ok tt (logState 0x6D "i32 Divide signed" 6
              (set_stack vm (uint64 INT32_MIN :: rest)))) /\
  (int64 sa = INT64_MIN -> int64 sb = -1 ->
     i64DivS vm = Ok tt (set_stack vm (uint64 INT64_MIN :: rest))).
Proof.
  intros Hs. split; [| split; [| split]].
  - intros Hz. exact (i32_zero_divisor vm sa sb rest Hs Hz).
  - intros ->. exact (i64_zero_divisor vm sa rest Hs).
  - intros Hr Ha Hb. exact (i32DivS_overflow vm sa sb rest Hr Hs Ha Hb).
  - intros Ha Hb. exact (i64DivS_overflow vm sa sb rest Hs Ha Hb).
Qed.

(** [i32.div_s(1, 0)] panics and leaves an empty stack; [INT32_MIN / -1]
    completes with [INT32_MIN] on the stack. *)
Lemma division_traps_witness :
  i32DivS (machine [0; 1] [] []) = Panic RuntimeDivideByZero (machine [] [] []) /\
  i32DivS (machine [uint64 (-1); uint64 INT32_MIN] [] []) =
    Ok tt (machine [uint64 INT32_MIN] [] []).
Proof.
  split.
  - exact (proj1 (proj1 (division_traps (machine [0; 1] [] []) 1 0 [] eq_refl) eq_refl)).
  - exact (proj1 (proj2 (proj2
             (division_traps (machine [uint64 (-1); uint64 INT32_MIN] [] [])
                (uint64 INT32_MIN) (uint64 (-1)) [] eq_refl)))
             I eq_refl eq_refl).
Defined.

(** The signed division of [INT32_MIN] by [-1] is no trap. *)
Lemma i32DivS_overflow_no_trap :
  i32DivS (machine [uint64 (-1); uint64 INT32_MIN] [] []) =
    Ok tt (machine [0xFFFFFFFF80000000] [] []) /\
  ~ (exists p vm', i32DivS (machine [uint64 (-1); uint64 INT32_MIN] [] []) = Panic p vm').
Proof.
  split; [reflexivity |].
  intros (p & vm' & E). discriminate E.
Qed.

(** ** Shifts *)

Lemma shiftl_wraps_to_zero n v c :
  0 <= n <= c -> wrapU n (Z.shiftl v c) = 0.
Proof.
  intros Hc. unfold wrapU. rewrite Z.shiftl_mul_pow2 by lia.
  replace c with ((c - n) + n) by lia. rewrite Z.pow_add_r by lia.
  rewrite Z.mul_assoc. apply Z.mod_mul.
  apply Z.pow_nonzero; lia.
Qed.

Lemma shiftr_past_width n v c :
  0 <= n <= c -> 0 <= v < 2 ^ n -> Z.shiftr v c = 0.
Proof.
  intros Hc Hv. rewrite Z.shiftr_div_pow2 by lia.
  apply Z.div_small. split; [lia |].
  apply Z.lt_le_trans with (2 ^ n); [lia |].
  apply Z.pow_le_mono_r; lia.
Qed.

Lemma shiftr_sign_fill n v c :
  0 <= n <= c -> - 2 ^ n <= v < 2 ^ n ->
  Z.shiftr v c = (if v <? 0 then -1 else 0).
Proof.
  intros Hc Hv. destruct (v <? 0) eqn:E.
  - apply Z.ltb_lt in E. rewrite Z.shiftr_div_pow2 by lia.
    assert (Hp : 2 ^ n <= 2 ^ c) by (apply Z.pow_le_mono_r; lia).
    assert (0 < 2 ^ n) by (apply Z.pow_pos_nonneg; lia).
    symmetry. apply (Z.div_unique v (2 ^ c) (-1) (v + 2 ^ c)); lia.
  - apply Z.ltb_ge in E. apply (shiftr_past_width n); lia.
Qed.

Lemma shifts_run vm sv sc rest :
  sinkReady vm -> stack (ctx vm) = sc :: sv :: rest ->
  i32Shl vm =
    Ok tt (logState 0x74 "i32 Shift left" 6
             (set_stack vm (uint64 (uint32 (Z.shiftl (uint32 sv) (uint32 sc))) :: rest))) /\
  i32ShrS vm =
    Ok tt (logState 0x75 "i32 Shift right signed" 6
             (set_stack vm (uint64 (Z.shiftr (int32 (uint32 sv)) (uint32 sc)) :: rest))) /\
  i32ShrU vm =
    Ok tt (logState 0x76 "i32 Shift right unsigned" 6
             (set_stack vm (uint64 (Z.shiftr (uint32 sv) (uint32 sc)) :: rest))) /\
  i64Shl vm = Ok tt (set_stack vm (uint64 (Z.shiftl sv sc) :: rest)) /\
  i64ShrS vm = Ok tt (set_stack vm (uint64 (Z.shiftr (int64 sv) sc) :: rest)) /\
  i64ShrU vm = Ok tt (set_stack vm (Z.shiftr sv sc :: rest)).
Proof.
  intros Hr Hs. open_vm vm Hs.
  repeat split; autounfold with handlers stackops; cbn;
    try reflexivity; apply opLog_ready; exact Hr.
Qed.

(** C6, as the code has it.  No shift masks its count: the operand is shifted
    by the count as popped (its low 32 bits for the i32 operators, the whole
    slot for the i64 ones).  A count of N or more therefore gives 0 for [shl]
    and [shr_u] and the sign fill, 0 or -1, for [shr_s]; a count below N is
    its own residue modulo N, so there the result is that of the masked
    shift. *)
Theorem shifts_use_the_count_unmasked vm sv sc rest :
  sinkReady vm -> stack (ctx vm) = sc :: sv :: rest ->
  0 <= sv < 2 ^ 64 -> 0 <= sc < 2 ^ 64 ->
  (i32Shl vm =
     Ok tt (logState 0x74 "i32 Shift left" 6
              (set_stack vm (uint64 (uint32 (Z.shiftl (uint32 sv) (uint32 sc))) :: rest))) /\
   i32ShrS vm =
     Ok tt (logState 0x75 "i32 Shift right signed" 6
              (set_stack vm (uint64 (Z.shiftr (int32 (uint32 sv)) (uint32 sc)) :: rest))) /\
   i32ShrU vm =
     Ok tt (logState 0x76 "i32 Shift right unsigned" 6
              (set_stack vm (uint64 (Z.shiftr (uint32 sv) (uint32 sc)) :: rest))) /\
   i64Shl vm = Ok tt (set_stack vm (uint64 (Z.shiftl sv sc) :: rest)) /\
   i64ShrS vm = Ok tt (set_stack vm (uint64 (Z.shiftr (int64 sv) sc) :: rest)) /\
   i64ShrU vm = Ok tt (set_stack vm (Z.shiftr sv sc :: rest))) /\
  (32 <= uint32 sc ->
     uint32 (Z.shiftl (uint32 sv) (uint32 sc)) = 0 /\
     Z.shiftr (uint32 sv) (uint32 sc) = 0 /\
     Z.shiftr (int32 (uint32 sv)) (uint32 sc) = (if int32 (uint32 sv) <? 0 then -1 else 0)) /\
  (64 <= sc ->
     uint64 (Z.shiftl sv sc) = 0 /\
     Z.shiftr sv sc = 0 /\
     Z.shiftr (int64 sv) sc = (if int64 sv <? 0 then -1 else 0)) /\
  (uint32 sc < 32 -> uint32 sc mod 32 = uint32 sc) /\
  (sc < 64 -> sc mod 64 = sc).
Proof.
  intros Hr Hs Hv Hc.
  split; [exact (shifts_run vm sv sc rest Hr Hs) |].
  pose proof (uint32_range sc) as Hc32.
  pose proof (uint32_range sv) as Hv32.
  pose proof (int32_range (uint32 sv)) as Hi32.
  pose proof (int64_range sv) as Hi64.
  split; [| split; [| split]].
  - intros Hge. split; [| split].
    + apply (shiftl_wraps_to_zero 32); lia.
    + apply (shiftr_past_width 32); lia.
    + apply (shiftr_sign_fill 31); lia.
  - intros Hge. split; [| split].
    + apply (shiftl_wraps_to_zero 64); lia.
    + apply (shiftr_past_width 64); lia.
    + apply (shiftr_sign_fill 63); lia.
  - intros Hlt. apply Z.mod_small. lia.
  - intros Hlt. apply Z.mod_small. lia.
Qed.

(** [1 << 32] on i32 pushes 0. *)
Lemma shifts_use_the_count_unmasked_witness :
  i32Shl (machine [32; 1] [] []) = Ok tt (machine [0] [] []).
Proof.
  assert (Hr : sinkReady (machine [32; 1] [] [])) by exact I.
  assert (Hv : 0 <= 1 < 2 ^ 64) by (vm_compute; split; [discriminate | reflexivity]).
  assert (Hc : 0 <= 32 < 2 ^ 64) by (vm_compute; split; [discriminate | reflexivity]).
  exact (proj1 (proj1 (shifts_use_the_count_unmasked
                         (machine [32; 1] [] []) 1 32 [] Hr eq_refl Hv Hc))).
Defined.

(** Shifting the nonzero value 1 left by N = 32 does not leave it
    unchanged. *)
Lemma i32Shl_by_width_is_zero :
  i32Shl (machine [32; 1] [] []) = Ok tt (machine [0] [] []) /\
  i32Shl (machine [32; 1] [] []) <> Ok tt (machine [1] [] []).
Proof. split; [reflexivity | discriminate]. Qed.

(** ** Float-to-integer truncation *)

#[local] Arguments floatToInt : simpl never.
#[local] Arguments decode32 : simpl never.
#[local] Arguments decode64 : simpl never.
#[local] Arguments Trunc : simpl never.

(** A float whose truncation fits the type converts to it. *)
Lemma floatToInt_representable `{Platform} lo hi wrap f t :
  integral (Trunc f) = Some t -> lo <= t <= hi -> floatToInt lo hi wrap f = t.
Proof.
  intros Ht Hr. unfold floatToInt. rewrite Ht.
  destruct (Z.leb_spec lo t); [| lia]. destruct (Z.leb_spec t hi); [| lia].
  reflexivity.
Qed.

(** C7, as the code has it.  No float-to-integer truncation traps: whatever
    the popped operand is (NaN, an infinity, a number beyond the range of the
    target type) and whatever the platform makes of an unrepresentable
    value, the handler completes and pushes one slot in place of the
    operand. *)
Theorem truncations_never_trap `{Platform} `{FloatOps} vm s rest c n h :
  sinkReady vm -> stack (ctx vm) = s :: rest ->
  In (c, n, h) truncations ->
  exists v, h vm = Ok tt (logState c n 5 (set_stack vm (v :: rest))).
Proof.
  intros Hr Hs Hin. open_vm vm Hs.
  unfold truncations in Hin. simpl in Hin.
  repeat (destruct Hin as [E | Hin];
          [ injection E as <- <- <-;
            autounfold with handlers stackops; cbn;
            eexists; apply opLog_ready; exact Hr | ]).
  contradiction.
Qed.

(** The quiet NaN 0x7FC00000 goes through [i32.trunc_s/f32]. *)
Lemma truncations_never_trap_witness :
  exists v,
    @i32TruncSF32 acceptingServer saturating (machine [0x7FC00000] [] []) =
    Ok tt (machine [v] [] []).
Proof.
  assert (Hr : sinkReady (machine [0x7FC00000] [] [])) by exact I.
  assert (Hin : In (0xA8, "i32 Truncate f32 signed"%string, @i32TruncSF32 acceptingServer saturating)
                   (@truncations acceptingServer saturating)) by (simpl; left; reflexivity).
  destruct (@truncations_never_trap saturating firstOperand
              (machine [0x7FC00000] [] []) 0x7FC00000 [] _ _ _ Hr eq_refl Hin)
    as [v Hv].
  exists v. exact Hv.
Defined.

(** A NaN operand and an operand beyond the int32 range are converted, not
    trapped. *)
Lemma i32TruncSF32_nan_no_trap :
  decode32 0x7FC00000 = FNaN /\
  @i32TruncSF32 acceptingServer saturating (machine [0x7FC00000] [] []) = Ok tt (machine [0] [] []) /\
  decode32 0x4F800000 = FFin false (2 ^ 23) 9 /\
  @i32TruncSF32 acceptingServer saturating (machine [0x4F800000] [] []) =
    Ok tt (machine [2 ^ 31 - 1] [] []) /\
  ~ (exists p vm',
       @i32TruncSF32 acceptingServer saturating (machine [0x7FC00000] [] []) = Panic p vm').
Proof.
  repeat split; try reflexivity.
  intros (p & vm' & E). discriminate E.
Qed.

(** ** Memory accesses *)

#[local] Arguments checkBounds : simpl never.
#[local] Arguments inBounds : simpl never.
#[local] Arguments fetchBaseAddr : simpl never.
#[local] Arguments fetchUint32 : simpl never.
#[local] Arguments sliceFrom : simpl never.
#[local] Arguments indexAt : simpl never.
#[local] Arguments putBytes : simpl never.
#[local] Arguments putByte : simpl never.
#[local] Arguments opLog : simpl never.
#[local] Arguments LittleEndian.Uint16 : simpl never.
#[local] Arguments LittleEndian.Uint32 : simpl never.
#[local] Arguments LittleEndian.Uint64 : simpl never.
#[local] Arguments LittleEndian.bytes : simpl never.
#[local] Arguments splice : simpl never.
#[local] Arguments len : simpl never.

Lemma effectiveAddr_range imm base : 0 <= effectiveAddr imm base < 2 ^ 32.
Proof. apply uint32_range. Qed.

Lemma len_nonneg {A} (l : list A) : 0 <= len l.
Proof. unfold len. lia. Qed.

Lemma len_skipn {A} (s : list A) i :
  0 <= i <= len s -> len (skipn (Z.to_nat i) s) = len s - i.
Proof. unfold len. intros Hi. rewrite length_skipn. lia. Qed.

Lemma len_app {A} (s t : list A) : len (s ++ t) = len s + len t.
Proof. unfold len. rewrite length_app. lia. Qed.

Lemma len_bytes n v : len (LittleEndian.bytes n v) = Z.of_nat n.
Proof.
  unfold len. f_equal. revert v. induction n as [|n IH]; intros v; [reflexivity |].
  change (LittleEndian.bytes (S n) v)
    with (uint8 v :: LittleEndian.bytes n (Z.shiftr v 8)).
  cbn [List.length]. rewrite IH. reflexivity.
Qed.

Lemma len_splice {A} (s bs : list A) i :
  0 <= i -> i + len bs <= len s -> len (splice s i bs) = len s.
Proof.
  unfold splice, len. intros Hi Hb.
  rewrite !length_app, length_firstn, length_skipn. lia.
Qed.

Lemma codeUint32_slice c p imm vm :
  codeUint32 c p = Some imm ->
  (z <- sliceFrom c p ;; LittleEndian.Uint32 z) vm = Ok imm vm.
Proof.
  unfold codeUint32, sliceFrom, bind.
  destruct ((0 <=? p) && (p <=? len c)); [| discriminate].
  cbn. unfold LittleEndian.Uint32.
  destruct (skipn (Z.to_nat p) c) as [|b0 [|b1 [|b2 [|b3 tl]]]]; try discriminate.
  intros E. injection E as <-. reflexivity.
Qed.

Lemma inBounds_run vm imm top rest k :
  codeUint32 (code (ctx vm)) (pc (ctx vm)) = Some imm ->
  stack (ctx vm) = top :: rest -> 0 <= k < 8 ->
  inBounds k vm = Ok (effectiveAddr imm top + k <? len (memory vm)) vm.
Proof.
  intros Hc Hs Hk. unfold inBounds.
  pose proof (codeUint32_slice _ _ _ vm Hc) as Hz.
  unfold bind in *. cbn in *.
  destruct (sliceFrom (code (ctx vm)) (pc (ctx vm)) vm) as [z vm1| |]; try discriminate.
  rewrite Hz, Hs. cbn. unfold ret, effectiveAddr.
  pose proof (uint32_range (imm + uint32 top)) as Hr.
  change (2 ^ 32) with 4294967296 in Hr.
  rewrite (int_small (uint32 _)) by (change (2 ^ 63) with 9223372036854775808; lia).
  rewrite int_small by (change (2 ^ 63) with 9223372036854775808; lia).
  reflexivity.
Qed.

Lemma checkBounds_in vm imm top rest k :
  codeUint32 (code (ctx vm)) (pc (ctx vm)) = Some imm ->
  stack (ctx vm) = top :: rest -> 0 <= k < 8 ->
  effectiveAddr imm top + k < len (memory vm) ->
  checkBounds k vm = Ok tt vm.
Proof.
  intros Hc Hs Hk Hin. unfold checkBounds.
  rewrite (bind_Ok _ _ _ _ _ (inBounds_run vm imm top rest k Hc Hs Hk)).
  destruct (Z.ltb_spec (effectiveAddr imm top + k) (len (memory vm))); [reflexivity | lia].
Qed.

Lemma checkBounds_out vm imm top rest k :
  codeUint32 (code (ctx vm)) (pc (ctx vm)) = Some imm ->
  stack (ctx vm) = top :: rest -> 0 <= k < 8 ->
  len (memory vm) <= effectiveAddr imm top + k ->
  checkBounds k vm = Panic ErrOutOfBoundsMemoryAccess vm.
Proof.
  intros Hc Hs Hk Hout. unfold checkBounds.
  rewrite (bind_Ok _ _ _ _ _ (inBounds_run vm imm top rest k Hc Hs Hk)).
  destruct (Z.ltb_spec (effectiveAddr imm top + k) (len (memory vm))); [lia | reflexivity].
Qed.

Lemma fetchUint32_run vm imm :
  codeUint32 (code (ctx vm)) (pc (ctx vm)) = Some imm ->
  fetchUint32 vm = Ok imm (set_pc vm (pc (ctx vm) + 4)).
Proof.
  intros Hc. unfold fetchUint32.
  pose proof (codeUint32_slice _ _ _ vm Hc) as Hz.
  unfold bind in *. cbn in *.
  destruct (sliceFrom (code (ctx vm)) (pc (ctx vm)) vm) as [z vm1| |]; try discriminate.
  rewrite Hz. reflexivity.
Qed.

Lemma fetchBaseAddr_run vm imm top rest :
  codeUint32 (code (ctx vm)) (pc (ctx vm)) = Some imm ->
  stack (ctx vm) = top :: rest ->
  fetchBaseAddr vm =
  Ok (effectiveAddr imm top) (set_stack (set_pc vm (pc (ctx vm) + 4)) rest).
Proof.
  intros Hc Hs. unfold fetchBaseAddr.
  rewrite (bind_Ok _ _ _ _ _ (fetchUint32_run vm imm Hc)).
  unfold popInt32, popUint32, popUint64, bind, gets, modify, ret. cbn.
  rewrite Hs. cbn. rewrite uint32_int32, uint32_idem. unfold effectiveAddr.
  pose proof (uint32_range (imm + uint32 top)) as Hr.
  change (2 ^ 32) with 4294967296 in Hr.
  rewrite int_small by (change (2 ^ 63) with 9223372036854775808; lia).
  reflexivity.
Qed.

Lemma sliceFrom_run {A} (s : list A) i vm :
  0 <= i <= len s -> sliceFrom s i vm = Ok (skipn (Z.to_nat i) s) vm.
Proof.
  intros Hi. unfold sliceFrom.
  destruct (Z.leb_spec 0 i); [| lia]. destruct (Z.leb_spec i (len s)); [| lia].
  reflexivity.
Qed.

Lemma indexAt_total {A} (s : list A) i :
  0 <= i < len s -> exists x, forall vm, indexAt s i vm = Ok x vm.
Proof.
  intros Hi. unfold indexAt. destruct (Z.leb_spec 0 i); [| lia].
  destruct (nth_error s (Z.to_nat i)) as [x|] eqn:E.
  - exists x. reflexivity.
  - apply nth_error_None in E. unfold len in Hi. lia.
Qed.

Lemma Uint16_total l :
  2 <= len l -> exists v, forall vm, LittleEndian.Uint16 l vm = Ok v vm.
Proof.
  unfold len. destruct l as [|b0 [|b1 tl]]; cbn [List.length]; try lia.
  intros _. eexists. reflexivity.
Qed.

Lemma Uint32_total l :
  4 <= len l -> exists v, forall vm, LittleEndian.Uint32 l vm = Ok v vm.
Proof.
  unfold len. destruct l as [|b0 [|b1 [|b2 [|b3 tl]]]]; cbn [List.length]; try lia.
  intros _. eexists. reflexivity.
Qed.

Lemma Uint64_total l :
  8 <= len l -> exists v, forall vm, LittleEndian.Uint64 l vm = Ok v vm.
Proof.
  unfold len.
  destruct l as [|b0 [|b1 [|b2 [|b3 [|b4 [|b5 [|b6 [|b7 tl]]]]]]]];
    cbn [List.length]; try lia.
  intros _. eexists. reflexivity.
Qed.

Lemma putBytes_run addr n v vm :
  0 <= addr -> addr + Z.of_nat n <= len (memory vm) ->
  putBytes addr n v vm =
  Ok tt (set_memory vm (splice (memory vm) addr (LittleEndian.bytes n v))).
Proof.
  intros Ha Hn. unfold putBytes, bind, gets. cbn.
  rewrite sliceFrom_run by lia.
  rewrite len_skipn by lia.
  destruct (Z.leb_spec (Z.of_nat n) (len (memory vm) - addr)); [reflexivity | lia].
Qed.

Lemma putByte_run addr v vm :
  0 <= addr -> addr + 1 <= len (memory vm) ->
  putByte addr v vm = Ok tt (set_memory vm (splice (memory vm) addr [v])).
Proof.
  intros Ha Hn. unfold putByte, bind, gets. cbn.
  destruct (indexAt_total (memory vm) addr) as [x Hx]; [lia |].
  rewrite Hx. reflexivity.
Qed.

Lemma curMem_run vm imm top rest :
  codeUint32 (code (ctx vm)) (pc (ctx vm)) = Some imm ->
  stack (ctx vm) = top :: rest ->
  effectiveAddr imm top <= len (memory vm) ->
  curMem vm =
  Ok (skipn (Z.to_nat (effectiveAddr imm top)) (memory vm))
     (set_stack (set_pc vm (pc (ctx vm) + 4)) rest).
Proof.
  intros Hc Hs Hle. unfold curMem.
  rewrite (bind_Ok _ _ _ _ _ (fetchBaseAddr_run vm imm top rest Hc Hs)).
  unfold bind, gets. cbn.
  pose proof (effectiveAddr_range imm top).
  rewrite sliceFrom_run by lia. reflexivity.
Qed.

Lemma len_one {A} (x : A) : len [x] = 1.
Proof. reflexivity. Qed.

Ltac mem_side :=
  cbn [ctx stack code pc memory set_stack set_pc set_ctx set_memory];
  first [ eassumption | reflexivity | lia ].

(** One step of a handler run: the outcome of the first action of a [bind]
    is rewritten in. *)
Ltac mem_run :=
  cbv beta zeta;
  lazymatch goal with
  | |- bind ?m ?k ?vm = _ =>
      lazymatch m with
      | checkBounds _ =>
          rewrite (bind_Ok m k vm tt vm) by (eapply checkBounds_in; mem_side)
      | fetchBaseAddr =>
          erewrite (bind_Ok m k vm) by (eapply fetchBaseAddr_run; mem_side)
      | curMem =>
          erewrite (bind_Ok m k vm) by (eapply curMem_run; mem_side)
      | sliceFrom ?s ?i =>
          rewrite (bind_Ok m k vm _ _ (sliceFrom_run s i vm ltac:(mem_side)))
      | LittleEndian.Uint16 _ =>
          match goal with
          | Hv : forall vm, LittleEndian.Uint16 _ vm = Ok _ vm |- _ =>
              rewrite (bind_Ok m k vm _ _ (Hv vm))
          end
      | LittleEndian.Uint32 _ =>
          match goal with
          | Hv : forall vm, LittleEndian.Uint32 _ vm = Ok _ vm |- _ =>
              rewrite (bind_Ok m k vm _ _ (Hv vm))
          end
      | LittleEndian.Uint64 _ =>
          match goal with
          | Hv : forall vm, LittleEndian.Uint64 _ vm = Ok _ vm |- _ =>
              rewrite (bind_Ok m k vm _ _ (Hv vm))
          end
      | indexAt _ _ =>
          match goal with
          | Hx : forall vm, indexAt _ _ vm = Ok _ vm |- _ =>
              rewrite (bind_Ok m k vm _ _ (Hx vm))
          end
      | putBytes ?a ?n ?v =>
          rewrite (bind_Ok m k vm _ _ (putBytes_run a n v vm ltac:(mem_side) ltac:(mem_side)))
      | putByte ?a ?v =>
          rewrite (bind_Ok m k vm _ _ (putByte_run a v vm ltac:(mem_side) ltac:(mem_side)))
      | _ => erewrite (bind_Ok m k vm) by (cbn; reflexivity)
      end
  end.

Ltac mem_step Hr :=
  first [ mem_run
        | lazymatch goal with
          | |- opLog ?c ?s ?n ?vm = _ => apply opLog_ready; exact Hr
          end ].

(** The bytes an access in bounds reads are there. *)
Ltac mem_bytes mem addr :=
  try (let x := fresh "x" in let Hx := fresh "Hx" in
       destruct (indexAt_total mem addr) as [x Hx]; [lia |]);
  try (let v := fresh "v" in let Hv := fresh "Hv" in
       destruct (Uint16_total (skipn (Z.to_nat addr) mem)) as [v Hv];
       [rewrite len_skipn by lia; lia |]);
  try (let v := fresh "v" in let Hv := fresh "Hv" in
       destruct (Uint32_total (skipn (Z.to_nat addr) mem)) as [v Hv];
       [rewrite len_skipn by lia; lia |]);
  try (let v := fresh "v" in let Hv := fresh "Hv" in
       destruct (Uint64_total (skipn (Z.to_nat addr) mem)) as [v Hv];
       [rewrite len_skipn by lia; lia |]).

Lemma access_in_bounds o vm imm v base rest :
  sinkReady vm ->
  codeUint32 (code (ctx vm)) (pc (ctx vm)) = Some imm ->
  stack (ctx vm) = operands o v base rest ->
  effectiveAddr imm base + width o <= len (memory vm) ->
  exists vm', handler o vm = Ok tt vm' /\
              len (memory vm') = len (memory vm) /\
              (isStore o = false -> memory vm' = memory vm).
Proof.
  intros Hr Hc Hs Hin.
  pose proof (effectiveAddr_range imm base) as Ha.
  change (2 ^ 32) with 4294967296 in Ha.
  open_vm vm Hs. cbn [ctx code pc memory] in *.
  destruct o; cbn [operands isStore width handler] in *;
    mem_bytes memory0 (effectiveAddr imm base);
    autounfold with handlers stackops;
    (eexists; (split; [| split]);
     [ repeat (mem_step Hr)
     | rewrite logState_memory;
       cbn [ctx stack code pc memory set_stack set_pc set_ctx set_memory];
       try (rewrite len_splice by (rewrite ?len_bytes, ?len_one; lia));
       reflexivity
     | first [ discriminate
             | intros _; rewrite logState_memory; reflexivity ] ]).
Qed.

Lemma access_out_of_bounds o vm imm v base rest :
  codeUint32 (code (ctx vm)) (pc (ctx vm)) = Some imm ->
  stack (ctx vm) = operands o v base rest ->
  len (memory vm) < effectiveAddr imm base + width o ->
  handler o vm = Panic ErrOutOfBoundsMemoryAccess (set_stack vm (base :: rest)).
Proof.
  intros Hc Hs Hout. open_vm vm Hs. cbn [ctx code pc memory] in *.
  destruct o; cbn [operands isStore width handler] in *;
    autounfold with handlers stackops;
    repeat (cbv beta zeta;
            lazymatch goal with
            | |- bind ?m ?k ?vm = _ =>
                lazymatch m with
                | checkBounds _ =>
                    rewrite (bind_Panic m k vm ErrOutOfBoundsMemoryAccess vm)
                      by (eapply checkBounds_out; mem_side)
                | _ => erewrite (bind_Ok m k vm) by (cbn; reflexivity)
                end
            end);
    reflexivity.
Qed.

(** [i32.store(offset=0, base=4, value=0xDEADBEEF)], then [i32.load] and
    [i32.load8_u] at the same address. *)
Example store_then_load :
  i32Store (machine [0xDEADBEEF; 4] [0; 0; 0; 0] [0; 0; 0; 0; 0; 0; 0; 0]) =
    Ok tt (set_pc (machine [] [0; 0; 0; 0] [0; 0; 0; 0; 0xEF; 0xBE; 0xAD; 0xDE]) 4) /\
  i32Load (machine [4] [0; 0; 0; 0] [0; 0; 0; 0; 0xEF; 0xBE; 0xAD; 0xDE]) =
    Ok tt (set_pc (machine [0xDEADBEEF] [0; 0; 0; 0]
                           [0; 0; 0; 0; 0xEF; 0xBE; 0xAD; 0xDE]) 4) /\
  i32Load8u (machine [4] [0; 0; 0; 0] [0; 0; 0; 0; 0xEF; 0xBE; 0xAD; 0xDE]) =
    Ok tt (set_pc (machine [0xEF] [0; 0; 0; 0]
                           [0; 0; 0; 0; 0xEF; 0xBE; 0xAD; 0xDE]) 4).
Proof. repeat split; reflexivity. Qed.

(** C1. A load or store of width [w] at the effective address
    [addr] = (static offset + popped base) wrapped to 32 bits completes
    exactly when [addr + w <= len(memory)]; otherwise it panics with
    [ErrOutOfBoundsMemoryAccess] and linear memory is as before: a store that
    fails the check has popped its value and written no byte. *)
Theorem memory_access_bounds o vm imm v base rest :
  sinkReady vm ->
  codeUint32 (code (ctx vm)) (pc (ctx vm)) = Some imm ->
  stack (ctx vm) = operands o v base rest ->
  ((exists vm', handler o vm = Ok tt vm') <->
   effectiveAddr imm base + width o <= len (memory vm)) /\
  (effectiveAddr imm base + width o <= len (memory vm) ->
   exists vm', handler o vm = Ok tt vm' /\
               len (memory vm') = len (memory vm) /\
               (isStore o = false -> memory vm' = memory vm)) /\
  (len (memory vm) < effectiveAddr imm base + width o ->
   exists vm', handler o vm = Panic ErrOutOfBoundsMemoryAccess vm' /\
               memory vm' = memory vm /\
               stack (ctx vm') = base :: rest).
Proof.
  intros Hr Hc Hs.
  assert (Hout : len (memory vm) < effectiveAddr imm base + width o ->
                 handler o vm =
                 Panic ErrOutOfBoundsMemoryAccess (set_stack vm (base :: rest)))
    by exact (access_out_of_bounds o vm imm v base rest Hc Hs).
  split; [| split].
  - split.
    + intros [vm' Hok].
      destruct (Z.le_gt_cases (effectiveAddr imm base + width o) (len (memory vm)))
        as [Hle | Hgt]; [exact Hle |].
      rewrite (Hout Hgt) in Hok. discriminate Hok.
    + intros Hle.
      destruct (access_in_bounds o vm imm v base rest Hr Hc Hs Hle) as (vm' & Hok & _).
      exists vm'. exact Hok.
  - exact (access_in_bounds o vm imm v base rest Hr Hc Hs).
  - intros Hgt. exists (set_stack vm (base :: rest)).
    split; [exact (Hout Hgt) | split; reflexivity].
Qed.

(** In an 8-byte memory [i32.load] at address 4 completes, and [i32.store] at
    address 6 panics and leaves the 8 bytes alone. *)
Lemma memory_access_bounds_witness :
  (exists vm', i32Load (machine [4] [0; 0; 0; 0] [1; 2; 3; 4; 5; 6; 7; 8]) = Ok tt vm') /\
  (exists vm',
     i32Store (machine [0xDEADBEEF; 6] [0; 0; 0; 0] [1; 2; 3; 4; 5; 6; 7; 8]) =
       Panic ErrOutOfBoundsMemoryAccess vm' /\
     memory vm' = [1; 2; 3; 4; 5; 6; 7; 8] /\
     stack (ctx vm') = [6]).
Proof.
  split.
  - apply (proj1 (memory_access_bounds I32Load
                    (machine [4] [0; 0; 0; 0] [1; 2; 3; 4; 5; 6; 7; 8])
                    0 0 4 [] I eq_refl eq_refl)).
    vm_compute. discriminate.
  - apply (proj2 (proj2 (memory_access_bounds I32Store
                    (machine [0xDEADBEEF; 6] [0; 0; 0; 0] [1; 2; 3; 4; 5; 6; 7; 8])
                    0 0xDEADBEEF 6 [] I eq_refl eq_refl))).
    vm_compute. reflexivity.
Defined.

(** ** Indirect calls *)

Lemma ValueType_eqb_refl a : ValueType_eqb a a = true.
Proof. destruct a; cbn; try reflexivity. apply Z.eqb_refl. Qed.

Lemma ValueType_eqb_eq a b : ValueType_eqb a b = true -> a = b.
Proof.
  destruct a, b; cbn; try discriminate; try reflexivity.
  intros E. apply Z.eqb_eq in E. subst. reflexivity.
Qed.

Lemma ValueType_eq_dec (a b : ValueType) : {a = b} + {a <> b}.
Proof. decide equality. apply Z.eq_dec. Qed.

Section CallProperties.
Variable callFunction : function -> Z -> M unit.

Lemma sameTypes_same l vm : sameTypes l l vm = Ok tt vm.
Proof.
  induction l as [|a l IH]; cbn [sameTypes]; [reflexivity |].
  rewrite ValueType_eqb_refl. exact IH.
Qed.

Lemma sameTypes_differ e a vm :
  List.length e = List.length a -> e <> a ->
  sameTypes e a vm = Panic ErrSignatureMismatch vm.
Proof.
  revert a. induction e as [|x e IH]; intros [|y a] Hl Hne; cbn [sameTypes];
    try discriminate Hl.
  - contradiction.
  - destruct (ValueType_eqb x y) eqn:E; [| reflexivity].
    apply ValueType_eqb_eq in E. subst y. cbn [negb].
    apply IH; [cbn in Hl; lia |].
    intros ->. apply Hne. reflexivity.
Qed.

Lemma indexAt_run {A} (s : list A) i x vm :
  0 <= i -> nth_error s (Z.to_nat i) = Some x -> indexAt s i vm = Ok x vm.
Proof.
  intros Hi Hx. unfold indexAt. destruct (Z.leb_spec 0 i); [| lia].
  rewrite Hx. reflexivity.
Qed.

Lemma nth_error_len {A} (s : list A) i x :
  0 <= i -> nth_error s (Z.to_nat i) = Some x -> i < len s.
Proof.
  intros Hi Hx. unfold len.
  assert (Z.to_nat i < List.length s)%nat
    by (apply nth_error_Some; rewrite Hx; discriminate).
  lia.
Qed.

(** The prefix of [callIndirect] up to the bounds check on the table. *)
Ltac call_step :=
  cbv beta zeta;
  lazymatch goal with
  | |- bind ?m ?k ?vm = _ =>
      lazymatch m with
      | fetchUint32 =>
          erewrite (bind_Ok m k vm) by (eapply fetchUint32_run; mem_side)
      | indexAt _ _ =>
          erewrite (bind_Ok m k vm)
            by (eapply indexAt_run; [lia | cbn [module]; eassumption])
      | _ => erewrite (bind_Ok m k vm) by (cbn; reflexivity)
      end
  end.

(** C4. [call_indirect] with an expected type that exists and a table
    index on the stack: an index beyond the table panics with
    [ErrUndefinedElementIndex]; otherwise, when the parameter types or the
    return types of the function in that slot differ from the expected
    ones (in length or in a component) it panics with
    [ErrSignatureMismatch] before the callee is entered, whatever the
    callee is; and when both sequences agree the call is made. *)
Theorem call_indirect_checks vm idx reserved ti rest fnExpect table :
  codeUint32 (code (ctx vm)) (pc (ctx vm)) = Some idx ->
  codeUint32 (code (ctx vm)) (pc (ctx vm) + 4) = Some reserved ->
  0 <= idx ->
  nth_error (Types_Entries (module vm)) (Z.to_nat idx) = Some fnExpect ->
  stack (ctx vm) = ti :: rest ->
  nth_error (TableIndexSpace (module vm)) 0 = Some table ->
  (len table <= uint32 ti ->
   callIndirect callFunction vm =
   Panic ErrUndefinedElementIndex
         (set_stack (set_pc vm (pc (ctx vm) + 4 + 4)) rest)) /\
  (forall elemIndex fnActual,
     0 <= elemIndex ->
     nth_error table (Z.to_nat (uint32 ti)) = Some elemIndex ->
     nth_error (FunctionIndexSpace (module vm)) (Z.to_nat elemIndex) = Some fnActual ->
     (ParamTypes fnExpect <> ParamTypes (Sig fnActual) \/
      ReturnTypes fnExpect <> ReturnTypes (Sig fnActual) ->
      callIndirect callFunction vm =
      Panic ErrSignatureMismatch
            (set_stack (set_pc vm (pc (ctx vm) + 4 + 4)) rest)) /\
     (ParamTypes fnExpect = ParamTypes (Sig fnActual) ->
      ReturnTypes fnExpect = ReturnTypes (Sig fnActual) ->
      callIndirect callFunction vm =
      (opLog 0x11 "Call indirect function start" 3 ;;
       fs <- gets funcs ;;
       f <- indexAt fs elemIndex ;;
       callFunction f (int64 elemIndex) ;;
       opLog 0x11 "Call indirect function end" 3)
        (set_stack (set_pc vm (pc (ctx vm) + 4 + 4)) rest))).
Proof.
  intros Hc Hc' Hidx Hty Hs Htab.
  pose proof (uint32_range ti) as Hti. change (2 ^ 32) with 4294967296 in Hti.
  assert (Hint : int (uint32 ti) = uint32 ti)
    by (apply int_small; change (2 ^ 63) with 9223372036854775808; lia).
  open_vm vm Hs. cbn [ctx code pc module] in *.
  split.
  - intros Hge. unfold callIndirect. repeat call_step.
    rewrite Hint.
    destruct (Z.geb_spec (uint32 ti) (len table)) as [H | H];
      [reflexivity | exfalso; clear - Hge H; lia].
  - intros elemIndex fnActual Helem Hslot Hfn.
    pose proof (nth_error_len _ _ _ (proj1 Hti) Hslot) as Hlt.
    assert (Hgo : forall k : M unit,
      (if int (uint32 ti) >=? len table then throw ErrUndefinedElementIndex else k)
      = k).
    { intros k. rewrite Hint.
      destruct (Z.geb_spec (uint32 ti) (len table)) as [H | H];
        [exfalso; clear - Hlt H; lia | reflexivity]. }
    split.
    + intros Hdiff. unfold callIndirect. repeat call_step.
      rewrite Hgo. repeat call_step.
      destruct (Z.eqb_spec (len (ParamTypes fnExpect)) (len (ParamTypes (Sig fnActual))))
        as [Hp | Hp]; [| reflexivity].
      destruct (Z.eqb_spec (len (ReturnTypes fnExpect)) (len (ReturnTypes (Sig fnActual))))
        as [Hq | Hq]; [| reflexivity].
      cbn [negb]. unfold len in Hp, Hq.
      destruct (list_eq_dec ValueType_eq_dec
                  (ParamTypes fnExpect) (ParamTypes (Sig fnActual))) as [Epar | Npar].
      * assert (Nret : ReturnTypes fnExpect <> ReturnTypes (Sig fnActual)) by tauto.
        rewrite <- Epar.
        rewrite (bind_Ok _ _ _ _ _ (sameTypes_same (ParamTypes fnExpect) _)).
        rewrite (bind_Panic _ _ _ _ _
                   (sameTypes_differ (ReturnTypes fnExpect)
                      (ReturnTypes (Sig fnActual)) _ ltac:(lia) Nret)).
        reflexivity.
      * rewrite (bind_Panic _ _ _ _ _
                   (sameTypes_differ (ParamTypes fnExpect)
                      (ParamTypes (Sig fnActual)) _ ltac:(lia) Npar)).
        reflexivity.
    + intros Epar Eret. unfold callIndirect. repeat call_step.
      rewrite Hgo. repeat call_step.
      rewrite <- Epar, <- Eret, !Z.eqb_refl. cbn [negb].
      rewrite (bind_Ok _ _ _ _ _ (sameTypes_same _ _)).
      rewrite (bind_Ok _ _ _ _ _ (sameTypes_same _ _)).
      reflexivity.
Qed.

End CallProperties.

(** Slot 0 holds an (i32, i32) -> i32 function where (i32) -> i32 is
    expected; index 5 is beyond the one-entry table. *)
Lemma call_indirect_checks_witness :
  callIndirect noCall (indirectVM 0) =
    Panic ErrSignatureMismatch
          (set_stack (set_pc (indirectVM 0) 8) []) /\
  callIndirect noCall (indirectVM 5) =
    Panic ErrUndefinedElementIndex
          (set_stack (set_pc (indirectVM 5) 8) []).
Proof.
  assert (H0 : 0 <= 0) by discriminate.
  split.
  - destruct (call_indirect_checks noCall (indirectVM 0) 0 0 0 [] sigUnary [0]
                eq_refl eq_refl H0 eq_refl eq_refl eq_refl) as [_ Hslot].
    destruct (Hslot 0 (mkFunction sigBinary false "add") H0 eq_refl eq_refl)
      as [Hmis _].
    apply Hmis. left. discriminate.
  - destruct (call_indirect_checks noCall (indirectVM 5) 0 0 5 [] sigUnary [0]
                eq_refl eq_refl H0 eq_refl eq_refl eq_refl) as [Hund _].
    apply Hund. vm_compute. discriminate.
Defined.

(** ** [ExecCode] *)

Lemma int_le_self x : 0 <= x -> int x <= x.
Proof. intros Hx. unwrap. zlia. Qed.

Section ExecProperties.
Variable ops : ControlOps.
Variable funcTable : Z -> option (M unit).
Variable nativeCodeInvocation : Z -> M unit.
Variable GetFunction : Module -> Z -> option Function.

(** An index beyond the number of functions is refused before anything
    runs. *)
Lemma ExecCode_index_beyond fuel fnIndex args vm :
  len (funcs vm) < fnIndex < 2 ^ 63 ->
  ExecCode ops funcTable nativeCodeInvocation GetFunction fuel fnIndex args vm =
  Returned None (Some (InvalidFunctionIndexError fnIndex)) vm.
Proof.
  intros Hi. pose proof (len_nonneg (funcs vm)) as Hl.
  unfold ExecCode, execBody, bind, gets. cbn.
  rewrite int_small by lia.
  destruct (Z.gtb_spec fnIndex (len (funcs vm))) as [_ | H]; [reflexivity | lia].
Qed.

(** A valid index with the wrong number of arguments is refused before
    anything runs. *)
Lemma ExecCode_argument_count fuel fnIndex args vm fn :
  0 <= fnIndex < len (funcs vm) -> fnIndex < 2 ^ 63 ->
  GetFunction (module vm) fnIndex = Some fn ->
  len (ParamTypes (Sig fn)) <> len args ->
  ExecCode ops funcTable nativeCodeInvocation GetFunction fuel fnIndex args vm = Returned None (Some ErrInvalidArgumentCount) vm.
Proof.
  intros Hi Hi' Hfn Hn.
  unfold ExecCode, execBody, bind, gets. cbn.
  rewrite int_small by lia.
  destruct (Z.gtb_spec fnIndex (len (funcs vm))) as [H | _]; [lia |].
  rewrite Hfn.
  destruct (Z.eqb_spec (len (ParamTypes (Sig fn))) (len args)) as [H | _];
    [contradiction | reflexivity].
Qed.

Lemma indexAt_len {A} (s : list A) vm :
  indexAt s (len s) vm = Panic RuntimeIndexOutOfRange vm.
Proof.
  unfold indexAt. pose proof (len_nonneg s) as Hl.
  destruct (Z.leb_spec 0 (len s)) as [_ | H]; [| lia].
  replace (nth_error s (Z.to_nat (len s))) with (@None A); [reflexivity |].
  symmetry. apply nth_error_None. unfold len. lia.
Qed.

(** C9 at the boundary.  With the function index equal to the number of
    functions the check [int(fnIndex) > len(vm.funcs)] lets the call
    through: [ExecCode] goes on to dereference what [GetFunction] returns
    and to index [vm.funcs] out of range, so it ends in a run-time panic
    (made into the error when [RecoverPanic] is set) or in
    [ErrInvalidArgumentCount], and not in [InvalidFunctionIndexError]. *)
Theorem ExecCode_boundary_index fuel args vm :
  ExecCode ops funcTable nativeCodeInvocation GetFunction fuel (len (funcs vm)) args vm =
  match GetFunction (module vm) (int (len (funcs vm))) with
  | None => recovered (RecoverPanic vm) None RuntimeNilDereference vm
  | Some fn =>
      if len (ParamTypes (Sig fn)) =? len args
      then recovered (RecoverPanic vm) None RuntimeIndexOutOfRange vm
      else Returned None (Some ErrInvalidArgumentCount) vm
  end.
Proof.
  pose proof (len_nonneg (funcs vm)) as Hl.
  pose proof (int_le_self _ Hl) as Hle.
  unfold ExecCode, execBody, bind, gets. cbn.
  destruct (Z.gtb_spec (int (len (funcs vm))) (len (funcs vm))) as [H | _]; [lia |].
  destruct (GetFunction (module vm) (int (len (funcs vm)))) as [fn |]; [| reflexivity].
  destruct (len (ParamTypes (Sig fn)) =? len args); cbn [negb]; [| reflexivity].
  rewrite indexAt_len. reflexivity.
Qed.

(** C2 at the last statement of [ExecCode].  Once the body has reached
    [return rtrn, nil] on a machine without an open transaction, the
    deferred [vm.PgTx.Commit()] dereferences nil: the call does not return
    [(rtrn, nil)] but panics, or returns the panic as its error when
    [RecoverPanic] is set. *)
Theorem ExecCode_without_sink fuel fnIndex args vm rtrn vm1 :
  execBody ops funcTable nativeCodeInvocation GetFunction fuel fnIndex args vm = Ok (Normal rtrn) vm1 ->
  PgTx vm1 = None ->
  ExecCode ops funcTable nativeCodeInvocation GetFunction fuel fnIndex args vm =
  recovered (RecoverPanic vm) rtrn RuntimeNilDereference vm1.
Proof.
  intros Hb Htx. unfold ExecCode. rewrite Hb. unfold Commit. rewrite Htx.
  reflexivity.
Qed.

(** With an open transaction the deferred commit asks the server: when it
    accepts, the same call returns [(rtrn, nil)]; when it refuses, the call
    panics with the server's error. *)
Lemma ExecCode_with_sink {srv : Server} fuel fnIndex args vm rtrn vm1 tx :
  execBody ops funcTable nativeCodeInvocation GetFunction fuel fnIndex args vm = Ok (Normal rtrn) vm1 ->
  PgTx vm1 = Some tx ->
  exists vm2,
    ExecCode ops funcTable nativeCodeInvocation GetFunction fuel fnIndex args vm =
    if commitOk tx then Returned rtrn None vm2
    else recovered (RecoverPanic vm) rtrn DatabaseError vm2.
Proof.
  intros Hb Htx. unfold ExecCode. rewrite Hb. unfold Commit. rewrite Htx.
  destruct (commitOk tx); eexists; reflexivity.
Qed.

End ExecProperties.

(** [i32.const 7; return] run through [ExecCode] on a machine built without
    a connection pool. *)
Lemma ExecCode_without_sink_witness :
  ExecCode wagonOps exampleTable noNative lookupFunction 10 0 [] (sevenVM false) =
    Unwound RuntimeNilDereference
      (set_ctx (sevenVM false) (mkContext [7] [] (cf_code seven) 6 0)) /\
  ExecCode wagonOps exampleTable noNative lookupFunction 10 0 [] (sevenVM true) =
    Returned (Some (U32 7)) (Some (Recovered RuntimeNilDereference))
      (set_ctx (sevenVM true) (mkContext [7] [] (cf_code seven) 6 0)).
Proof.
  split.
  - exact (ExecCode_without_sink wagonOps exampleTable noNative lookupFunction
             10 0 [] (sevenVM false) (Some (U32 7)) _ eq_refl eq_refl).
  - exact (ExecCode_without_sink wagonOps exampleTable noNative lookupFunction
             10 0 [] (sevenVM true) (Some (U32 7)) _ eq_refl eq_refl).
Defined.

(** The same function on a machine with a pool and an open transaction
    returns 7 and no error when the server accepts every request, and
    panics with the server's error when it refuses the commit. *)
Example ExecCode_seven_logged :
  (exists vm',
     ExecCode wagonOps exampleTable noNative lookupFunction 10 0 [] sevenVMLogged =
     Returned (Some (U32 7)) None vm') /\
  (exists vm',
     @ExecCode refusingServer wagonOps (@exampleTable refusingServer) noNative
               lookupFunction 10 0 [] sevenVMLogged =
     Unwound DatabaseError vm').
Proof. split; eexists; vm_compute; reflexivity. Qed.

(** Function index 1 of a one-function module. *)
Example ExecCode_boundary_example :
  ExecCode wagonOps exampleTable noNative lookupFunction 10 1 [] (sevenVM false) =
    Unwound RuntimeNilDereference (sevenVM false) /\
  ExecCode wagonOps exampleTable noNative lookupFunction 10 1 [] (sevenVM true) =
    Returned None (Some (Recovered RuntimeNilDereference)) (sevenVM true) /\
  ExecCode wagonOps exampleTable noNative lookupFunction 10 2 [] (sevenVM false) =
    Returned None (Some (InvalidFunctionIndexError 2)) (sevenVM false).
Proof. repeat split; reflexivity. Qed.

(** ** Memory handlers read the address through its low half *)

Lemma inBounds_nocode vm k :
  codeUint32 (code (ctx vm)) (pc (ctx vm)) = None ->
  inBounds k vm = Panic RuntimeIndexOutOfRange vm.
Proof.
  unfold inBounds, codeUint32, sliceFrom, bind, gets. cbn.
  destruct ((0 <=? pc (ctx vm)) && (pc (ctx vm) <=? len (code (ctx vm))));
    [| reflexivity].
  cbn. unfold LittleEndian.Uint32.
  destruct (skipn (Z.to_nat (pc (ctx vm))) (code (ctx vm)))
    as [|b0 [|b1 [|b2 [|b3 tl]]]]; try reflexivity.
  discriminate.
Qed.

Lemma checkBounds_nocode vm k :
  codeUint32 (code (ctx vm)) (pc (ctx vm)) = None ->
  checkBounds k vm = Panic RuntimeIndexOutOfRange vm.
Proof.
  intros Hc. unfold checkBounds.
  rewrite (bind_Panic _ _ _ _ _ (inBounds_nocode vm k Hc)). reflexivity.
Qed.

Lemma effectiveAddr_low32 imm a b : low32 a b -> effectiveAddr imm a = effectiveAddr imm b.
Proof. unfold low32, effectiveAddr. intros ->. reflexivity. Qed.

Lemma sameRun_refl r : sameRun r r.
Proof. destruct r; cbn; auto. Qed.

Lemma access_nocode o vm v base rest :
  codeUint32 (code (ctx vm)) (pc (ctx vm)) = None ->
  stack (ctx vm) = operands o v base rest ->
  handler o vm = Panic RuntimeIndexOutOfRange (set_stack vm (base :: rest)).
Proof.
  intros Hc Hs. open_vm vm Hs. cbn [ctx code pc memory] in *.
  destruct o; cbn [operands isStore width handler] in *;
    autounfold with handlers stackops;
    repeat (cbv beta zeta;
            lazymatch goal with
            | |- bind ?m ?k ?vm = _ =>
                lazymatch m with
                | checkBounds _ =>
                    rewrite (bind_Panic m k vm RuntimeIndexOutOfRange vm)
                      by (eapply checkBounds_nocode; mem_side)
                | _ => erewrite (bind_Ok m k vm) by (cbn; reflexivity)
                end
            end);
    reflexivity.
Qed.

Lemma access_in_bounds_low32 o vm imm v v' base base' rest :
  codeUint32 (code (ctx vm)) (pc (ctx vm)) = Some imm ->
  effectiveAddr imm base + width o <= len (memory vm) ->
  low32 base base' ->
  (if stores32 o then low32 v v' else v = v') ->
  handler o (set_stack vm (operands o v base rest)) =
  handler o (set_stack vm (operands o v' base' rest)).
Proof.
  intros Hc Hin Hb Hv.
  pose proof (effectiveAddr_range imm base) as Ha.
  change (2 ^ 32) with 4294967296 in Ha.
  pose proof (effectiveAddr_low32 imm _ _ Hb) as Heq. symmetry in Heq.
  unfold low32 in Hv.
  destruct vm as [[? ? ? ? ?] ? ? ? ? ? ? ? ? ? ?].
  cbn [ctx code pc memory set_stack set_ctx stack locals curFunc] in *.
  destruct o; cbn [operands isStore width handler stores32] in *;
    try subst v';
    mem_bytes memory0 (effectiveAddr imm base);
    autounfold with handlers stackops;
    repeat (mem_run; rewrite ?Heq);
    symmetry;
    repeat (mem_run; rewrite ?Heq; rewrite <- ?Hv);
    reflexivity.
Qed.

Lemma access_reads32 o vm v v' base base' rest :
  low32 base base' ->
  (if stores32 o then low32 v v' else v = v') ->
  sameRun (handler o (set_stack vm (operands o v base rest)))
          (handler o (set_stack vm (operands o v' base' rest))).
Proof.
  intros Hb Hv.
  destruct (codeUint32 (code (ctx vm)) (pc (ctx vm))) as [imm|] eqn:Hc.
  - destruct (Z.le_gt_cases (effectiveAddr imm base + width o) (len (memory vm)))
      as [Hin | Hout].
    + rewrite (access_in_bounds_low32 o vm imm v v' base base' rest Hc Hin Hb Hv).
      apply sameRun_refl.
    + rewrite (access_out_of_bounds o (set_stack vm (operands o v base rest))
                 imm v base rest Hc eq_refl Hout).
      rewrite (effectiveAddr_low32 imm _ _ Hb) in Hout.
      rewrite (access_out_of_bounds o (set_stack vm (operands o v' base' rest))
                 imm v' base' rest Hc eq_refl Hout).
      cbn. auto.
  - rewrite (access_nocode o (set_stack vm (operands o v base rest)) v base rest Hc eq_refl).
    rewrite (access_nocode o (set_stack vm (operands o v' base' rest)) v' base' rest
               Hc eq_refl).
    cbn. auto.
Qed.

(** ** The two extensions of a 32-bit result *)

(** C8, as the code has it.  Every handler of the package that pushes an
    i32 or f32 result leaves, when it completes, a slot of one of two shapes
    on top of the stack, whatever the server answers to its log call.  The
    upper 32 bits are zero after the handlers that push through
    [pushUint32], [pushFloat32] or [pushBool] or push a count of bits: the
    unsigned i32 arithmetic, the tests and comparisons of all four types,
    the zero-extending i32 loads, [f32.load], [i32.const], [f32.const],
    [i32.wrap], the unsigned truncations and every f32 operator and
    conversion.  After the handlers that push through [pushInt32]
    ([i32.div_s], [i32.rem_s], [i32.shr_s], the sign-extending i32 loads,
    [i32.trunc_s], [current_memory], [grow_memory]) the slot is the sign
    extension of the 32-bit result in its low half: its upper 32 bits are
    all ones when the result is negative and zero otherwise. *)
Theorem result32_slot `{Server} `{Platform} `{FloatOps} `{Float64Ops} :
  (forall h, In h pushUnsigned32 -> pushes (fun s => upper32 s = 0) h) /\
  (forall h, In h pushSigned32 ->
     pushes (fun s => exists v,
               signExtends v s /\ int32 (uint32 s) = v /\
               upper32 s = (if v <? 0 then 2 ^ 32 - 1 else 0)) h).
Proof.
  split.
  - exact unsigned32_upper.
  - intros h Hin vm vm' Hrun.
    destruct (signed32_extends h Hin vm vm' Hrun) as (s & rest & Hs & v & Hv).
    exists s, rest. split; [exact Hs |].
    exists v. destruct (signExtends_upper v s Hv) as [Hu Hl]. auto.
Qed.

(** [-16 >> 1] through [i32.shr_s]: the slot is the sign extension of -8. *)
Lemma result32_slot_witness :
  exists s rest,
    stack (ctx (machine [0xFFFFFFFFFFFFFFF8] [] [])) = s :: rest /\
    exists v, signExtends v s /\ int32 (uint32 s) = v /\
              upper32 s = (if v <? 0 then 2 ^ 32 - 1 else 0).
Proof.
  assert (Hin : In i32ShrS (@pushSigned32 acceptingServer saturating))
    by (simpl; right; right; left; reflexivity).
  assert (Hrun : i32ShrS (machine [1; 0xFFFFFFF0] [] []) =
                 Ok tt (machine [0xFFFFFFFFFFFFFFF8] [] [])) by reflexivity.
  exact (proj2 (@result32_slot acceptingServer saturating firstOperand firstOperand64)
           i32ShrS Hin _ _ Hrun).
Defined.

(** [i32.div_s(-6, 3)] leaves a slot whose upper 32 bits are all ones. *)
Lemma i32DivS_upper_bits_set :
  i32DivS (machine [3; 0xFFFFFFFA] [] []) = Ok tt (machine [0xFFFFFFFFFFFFFFFE] [] []) /\
  upper32 0xFFFFFFFFFFFFFFFE = 0xFFFFFFFF /\
  ~ pushes (fun s => upper32 s = 0) i32DivS.
Proof.
  split; [reflexivity | split; [reflexivity |]].
  intros Hp.
  destruct (Hp (machine [3; 0xFFFFFFFA] [] []) _ eq_refl) as (s & rest & Hs & Hu).
  injection Hs as <- _. discriminate Hu.
Qed.

(** ** Operands are read through their low 32 bits *)

(** C10. A numeric handler with 32-bit operands gives the same outcome (the
    same pushed result, the same stack, or the same panic) on any two stacks
    whose popped slots agree on their low 32 bits.  A load or a store reads
    its address, and a 32-bit store its value, in the same way: the two runs
    complete in the same state or panic alike. *)
Theorem operands_read_low32 `{Platform} `{FloatOps} :
  (forall h, In h unary32 -> reads32 1 h) /\
  (forall h, In h binary32 -> reads32 2 h) /\
  (forall o vm v v' base base' rest,
     low32 base base' ->
     (if stores32 o then low32 v v' else v = v') ->
     sameRun (handler o (set_stack vm (operands o v base rest)))
             (handler o (set_stack vm (operands o v' base' rest)))).
Proof.
  split; [| split].
  - exact unary32_reads.
  - exact binary32_reads.
  - exact access_reads32.
Qed.

(** [i32.add] on slots with and without garbage in the upper halves. *)
Lemma operands_read_low32_witness :
  i32Add (machine [0xABCD00000001; 0x777700000002] [] []) =
  i32Add (machine [1; 2] [] []).
Proof.
  assert (Hin : In i32Add (@binary32 acceptingServer firstOperand))
    by (simpl; left; reflexivity).
  assert (HF : Forall2 low32 [0xABCD00000001; 0x777700000002] [1; 2])
    by (repeat constructor).
  exact (proj1 (proj2 (@operands_read_low32 saturating firstOperand))
           i32Add Hin (machine [] [] [])
           [0xABCD00000001; 0x777700000002] [1; 2] [] eq_refl HF).
Defined.

(** * Further properties *)

(** ** Lists as slices *)

Lemma nth_error_splice_out {A} (s bs : list A) i j :
  0 <= i -> i + len bs <= len s -> 0 <= j -> j < i \/ i + len bs <= j ->
  nth_error (splice s i bs) (Z.to_nat j) = nth_error s (Z.to_nat j).
Proof.
  unfold splice, len. intros Hi Hb Hj Hout.
  destruct Hout as [Hlt | Hge].
  - rewrite nth_error_app1 by (rewrite length_firstn; lia).
    rewrite nth_error_firstn.
    destruct (Nat.ltb_spec (Z.to_nat j) (Z.to_nat i)); [reflexivity | lia].
  - rewrite nth_error_app2 by (rewrite length_firstn; lia).
    rewrite length_firstn.
    rewrite nth_error_app2 by lia.
    rewrite nth_error_skipn. f_equal. lia.
Qed.

Lemma nth_error_splice_in {A} (s bs : list A) i k :
  0 <= i -> i + len bs <= len s -> 0 <= k < len bs ->
  nth_error (splice s i bs) (Z.to_nat (i + k)) = nth_error bs (Z.to_nat k).
Proof.
  unfold splice, len. intros Hi Hb Hk.
  rewrite nth_error_app2 by (rewrite length_firstn; lia).
  rewrite length_firstn.
  rewrite nth_error_app1 by lia.
  f_equal. lia.
Qed.

Lemma skipn_splice {A} (s bs : list A) i :
  0 <= i -> i + len bs <= len s ->
  skipn (Z.to_nat i) (splice s i bs) = bs ++ skipn (Z.to_nat i + List.length bs) s.
Proof.
  unfold splice, len. intros Hi Hb.
  rewrite skipn_app, length_firstn.
  replace (Z.to_nat i - Nat.min (Z.to_nat i) (List.length s))%nat with 0%nat by lia.
  rewrite skipn_all2 by (rewrite length_firstn; lia).
  reflexivity.
Qed.

(** ** Logging changes the log only *)

Lemma logState_globals `{Server} c s n vm : globals (logState c s n vm) = globals vm.
Proof. destruct (logState_is_set_log c s n vm) as (p & t & k & ->). reflexivity. Qed.

Lemma logState_abort `{Server} c s n vm : abort (logState c s n vm) = abort vm.
Proof. destruct (logState_is_set_log c s n vm) as (p & t & k & ->). reflexivity. Qed.

Lemma logState_funcs `{Server} c s n vm : funcs (logState c s n vm) = funcs vm.
Proof. destruct (logState_is_set_log c s n vm) as (p & t & k & ->). reflexivity. Qed.

Lemma logState_sinkReady `{Server} c s n vm : sinkReady vm -> sinkReady (logState c s n vm).
Proof.
  unfold logState, opLog, sinkReady.
  destruct vm as [cx md gl mem fs rp ab p t rn k]. cbn.
  destruct p as [pool|]; [| intros _; exact I].
  destruct (8 <? n); [intros Hr; exact Hr |].
  destruct t as [tx|]; [| intros []].
  destruct (execOk _ _ _); [| intros _; exact I].
  destruct (Z.rem k 10000 =? 0); [| intros _; exact I].
  destruct (commitOk _); [| intros _; exact I].
  destruct (beginOk _); intros _; exact I.
Qed.

Lemma ready_set_pc vm p : sinkReady vm -> sinkReady (set_pc vm p).
Proof. intros H. exact H. Qed.

Lemma ready_set_stack vm s : sinkReady vm -> sinkReady (set_stack vm s).
Proof. intros H. exact H. Qed.

Lemma ready_set_locals vm l : sinkReady vm -> sinkReady (set_locals vm l).
Proof. intros H. exact H. Qed.

Lemma ready_set_memory vm m : sinkReady vm -> sinkReady (set_memory vm m).
Proof. intros H. exact H. Qed.

Lemma ready_set_globals vm g : sinkReady vm -> sinkReady (set_globals vm g).
Proof. intros H. exact H. Qed.

Ltac ready :=
  repeat first [ assumption
               | apply logState_sinkReady
               | apply ready_set_pc
               | apply ready_set_stack
               | apply ready_set_locals
               | apply ready_set_memory
               | apply ready_set_globals ].

Lemma codeUint32_range c p imm : codeUint32 c p = Some imm -> 0 <= imm < 2 ^ 32.
Proof.
  unfold codeUint32. destruct ((0 <=? p) && (p <=? len c)); [| discriminate].
  destruct (skipn (Z.to_nat p) c) as [|b0 [|b1 [|b2 [|b3 tl]]]]; try discriminate.
  intros E. injection E as <-. apply uint32_range.
Qed.

(** ** Running a handler action by action *)

Ltac norm_state :=
  rewrite ?logState_ctx, ?logState_memory, ?logState_globals;
  cbn [ctx stack locals code pc curFunc memory globals
       set_stack set_pc set_ctx set_memory set_locals set_globals set_abort].

Ltac run_side :=
  norm_state; first [ eassumption | reflexivity | lia ].

Lemma assignAt_run s i v vm :
  0 <= i < len s -> assignAt s i v vm = Ok (splice s i [v]) vm.
Proof.
  intros Hi. unfold assignAt.
  destruct (indexAt_total s i Hi) as [x Hx].
  rewrite (bind_Ok _ _ _ _ _ (Hx vm)). reflexivity.
Qed.

Lemma assignAt_out s i v vm :
  len s <= i -> assignAt s i v vm = Panic RuntimeIndexOutOfRange vm.
Proof.
  intros Hi. unfold assignAt, indexAt, bind.
  destruct (0 <=? i); [| reflexivity].
  replace (nth_error s (Z.to_nat i)) with (@None Z); [reflexivity |].
  symmetry. apply nth_error_None. unfold len in Hi. pose proof (len_nonneg s). lia.
Qed.

Lemma indexAt_out {A} (s : list A) i vm :
  len s <= i -> indexAt s i vm = Panic RuntimeIndexOutOfRange vm.
Proof.
  intros Hi. unfold indexAt.
  destruct (0 <=? i); [| reflexivity].
  replace (nth_error s (Z.to_nat i)) with (@None A); [reflexivity |].
  symmetry. apply nth_error_None. unfold len in Hi. pose proof (len_nonneg s). lia.
Qed.

Ltac open_machine vm :=
  destruct vm as [[stk lcs cd p0 cf] md gl mem fs rp ab pgp tx rn k];
  cbn [ctx stack locals code pc curFunc memory globals funcs module abort pg PgTx
       opNum PgRunNum RecoverPanic] in *;
  subst.

Ltac int_hyps :=
  repeat match goal with
         | H : int ?x = ?x |- context [int ?x] => rewrite H
         end.

Ltac run_step :=
  cbv beta zeta; int_hyps;
  lazymatch goal with
  | |- bind ?m ?k ?vm = _ =>
      lazymatch m with
      | fetchUint32 =>
          erewrite (bind_Ok m k vm) by (eapply fetchUint32_run; run_side)
      | indexAt _ _ =>
          erewrite (bind_Ok m k vm) by (eapply indexAt_run; [lia | run_side])
      | assignAt ?s ?i ?v =>
          rewrite (bind_Ok m k vm _ _ (assignAt_run s i v vm ltac:(run_side)))
      | opLog ?c ?s ?n =>
          rewrite (bind_Ok m k vm _ _ (opLog_ready c s n vm ltac:(assumption)))
      | _ => erewrite (bind_Ok m k vm) by (cbn; reflexivity)
      end
  end.

(** ** Locals and globals *)

Lemma idx_int c p idx : codeUint32 c p = Some idx -> int idx = idx /\ 0 <= idx.
Proof.
  intros Hc. pose proof (codeUint32_range _ _ _ Hc) as Hidx.
  change (2 ^ 32) with 4294967296 in Hidx.
  split; [| lia].
  apply int_small. change (2 ^ 63) with 9223372036854775808. lia.
Qed.

Lemma setLocal_run vm idx v rest :
  sinkReady vm ->
  codeUint32 (code (ctx vm)) (pc (ctx vm)) = Some idx ->
  stack (ctx vm) = v :: rest ->
  idx < len (locals (ctx vm)) ->
  setLocal vm =
  Ok tt (logState 0x21 "Set local" 6
           (set_locals (set_stack (set_pc vm (pc (ctx vm) + 4)) rest)
                       (splice (locals (ctx vm)) idx [v]))).
Proof.
  intros Hr Hc Hs Hi.
  destruct (idx_int _ _ _ Hc) as [Hint H0].
  open_machine vm.
  unfold setLocal. repeat run_step.
  apply opLog_ready. exact Hr.
Qed.

Lemma getLocal_run vm idx v :
  sinkReady vm ->
  codeUint32 (code (ctx vm)) (pc (ctx vm)) = Some idx ->
  nth_error (locals (ctx vm)) (Z.to_nat idx) = Some v ->
  getLocal vm =
  Ok tt (logState 0x20 "Get local" 6
           (set_stack (set_pc vm (pc (ctx vm) + 4)) (v :: stack (ctx vm)))).
Proof.
  intros Hr Hc Hv.
  destruct (idx_int _ _ _ Hc) as [Hint H0].
  open_machine vm.
  unfold getLocal. repeat run_step.
  apply opLog_ready. exact Hr.
Qed.

Lemma teeLocal_run vm idx v rest :
  sinkReady vm ->
  codeUint32 (code (ctx vm)) (pc (ctx vm)) = Some idx ->
  stack (ctx vm) = v :: rest ->
  idx < len (locals (ctx vm)) ->
  teeLocal vm =
  Ok tt (logState 0x22 "Tee local" 6
           (set_locals (set_pc vm (pc (ctx vm) + 4))
                       (splice (locals (ctx vm)) idx [v]))).
Proof.
  intros Hr Hc Hs Hi.
  destruct (idx_int _ _ _ Hc) as [Hint H0].
  open_machine vm.
  unfold teeLocal. repeat run_step.
  apply opLog_ready. exact Hr.
Qed.

Lemma getGlobal_run vm idx v :
  sinkReady vm ->
  codeUint32 (code (ctx vm)) (pc (ctx vm)) = Some idx ->
  nth_error (globals vm) (Z.to_nat idx) = Some v ->
  getGlobal vm =
  Ok tt (logState 0x23 "Get global" 6
           (set_stack (set_pc vm (pc (ctx vm) + 4)) (v :: stack (ctx vm)))).
Proof.
  intros Hr Hc Hv.
  destruct (idx_int _ _ _ Hc) as [Hint H0].
  open_machine vm.
  unfold getGlobal. repeat run_step.
  apply opLog_ready. exact Hr.
Qed.

Lemma setGlobal_run vm idx v rest :
  sinkReady vm ->
  codeUint32 (code (ctx vm)) (pc (ctx vm)) = Some idx ->
  stack (ctx vm) = v :: rest ->
  idx < len (globals vm) ->
  setGlobal vm =
  Ok tt (logState 0x24 "Set global" 6
           (set_globals (set_stack (set_pc vm (pc (ctx vm) + 4)) rest)
                        (splice (globals vm) idx [v]))).
Proof.
  intros Hr Hc Hs Hi.
  destruct (idx_int _ _ _ Hc) as [Hint H0].
  open_machine vm.
  unfold setGlobal. repeat run_step.
  apply opLog_ready. exact Hr.
Qed.

Lemma nth_error_splice_one {A} (s : list A) i (v : A) :
  0 <= i < len s -> nth_error (splice s i [v]) (Z.to_nat i) = Some v.
Proof.
  intros Hi.
  pose proof (nth_error_splice_in s [v] i 0) as E.
  rewrite Z.add_0_r in E. apply E; rewrite ?len_one; lia.
Qed.

Lemma nth_error_splice_other {A} (s : list A) i j (v : A) :
  0 <= i < len s -> 0 <= j -> j <> i ->
  nth_error (splice s i [v]) (Z.to_nat j) = nth_error s (Z.to_nat j).
Proof.
  intros Hi Hj Hne. apply nth_error_splice_out; rewrite ?len_one; lia.
Qed.

(** X1.  [set_local] with an index inside the frame completes; it pops its
    operand into exactly that local: the other locals, the number of locals,
    the linear memory and the globals stay as they were, and the program
    counter moves past the 4-byte immediate. *)
Theorem setLocal_sets_one_local vm idx v rest :
  sinkReady vm ->
  codeUint32 (code (ctx vm)) (pc (ctx vm)) = Some idx ->
  stack (ctx vm) = v :: rest ->
  idx < len (locals (ctx vm)) ->
  exists vm',
    setLocal vm = Ok tt vm' /\
    stack (ctx vm') = rest /\
    pc (ctx vm') = pc (ctx vm) + 4 /\
    len (locals (ctx vm')) = len (locals (ctx vm)) /\
    nth_error (locals (ctx vm')) (Z.to_nat idx) = Some v /\
    (forall j, 0 <= j -> j <> idx ->
       nth_error (locals (ctx vm')) (Z.to_nat j) =
       nth_error (locals (ctx vm)) (Z.to_nat j)) /\
    memory vm' = memory vm /\ globals vm' = globals vm.
Proof.
  intros Hr Hc Hs Hi.
  destruct (idx_int _ _ _ Hc) as [_ H0].
  eexists. split; [apply (setLocal_run vm idx v rest); assumption |].
  rewrite logState_ctx, logState_memory, logState_globals. cbn.
  repeat split.
  - apply len_splice; rewrite ?len_one; lia.
  - apply nth_error_splice_one. lia.
  - intros j Hj Hne. apply nth_error_splice_other; lia.
Qed.

Lemma setLocal_sets_one_local_witness :
  exists vm',
    setLocal (mkVM (mkContext [9; 1] [5; 6; 7] [1; 0; 0; 0] 0 0) emptyModule
                   [] [] [] false false None None 0 0) = Ok tt vm' /\
    locals (ctx vm') = [5; 9; 7].
Proof.
  destruct (setLocal_sets_one_local
              (mkVM (mkContext [9; 1] [5; 6; 7] [1; 0; 0; 0] 0 0) emptyModule
                    [] [] [] false false None None 0 0) 1 9 [1])
    as (vm' & E & _); [exact I | reflexivity | reflexivity | reflexivity |].
  exists vm'. split; [exact E |].
  vm_compute in E. injection E as <-. reflexivity.
Defined.

(** X2.  Round trip through a local: [get_local i] run at any later offset
    [q] of the same code whose immediate is again [i] pushes the value that
    [set_local i] popped, on top of what [set_local] left of the stack. *)
Theorem setLocal_then_getLocal vm idx v rest q :
  sinkReady vm ->
  codeUint32 (code (ctx vm)) (pc (ctx vm)) = Some idx ->
  codeUint32 (code (ctx vm)) q = Some idx ->
  stack (ctx vm) = v :: rest ->
  idx < len (locals (ctx vm)) ->
  exists vm1 vm2,
    setLocal vm = Ok tt vm1 /\
    getLocal (set_pc vm1 q) = Ok tt vm2 /\
    stack (ctx vm2) = v :: rest /\
    locals (ctx vm2) = locals (ctx vm1) /\
    pc (ctx vm2) = q + 4.
Proof.
  intros Hr Hc Hq Hs Hi.
  destruct (idx_int _ _ _ Hc) as [_ H0].
  eexists. eexists.
  split; [apply (setLocal_run vm idx v rest); assumption |].
  split.
  - apply (getLocal_run _ idx v).
    + ready.
    + rewrite <- Hq. cbn. rewrite logState_ctx. reflexivity.
    + cbn. rewrite logState_ctx. cbn. apply nth_error_splice_one. lia.
  - rewrite !logState_ctx. cbn. rewrite !logState_ctx. cbn. auto.
Qed.

Lemma setLocal_then_getLocal_witness :
  exists vm1 vm2,
    setLocal (mkVM (mkContext [9; 1] [5; 6; 7] [1; 0; 0; 0; 0x20; 1; 0; 0; 0] 0 0)
                   emptyModule [] [] [] false false None None 0 0) = Ok tt vm1 /\
    getLocal (set_pc vm1 5) = Ok tt vm2 /\
    stack (ctx vm2) = [9; 1].
Proof.
  destruct (setLocal_then_getLocal
              (mkVM (mkContext [9; 1] [5; 6; 7] [1; 0; 0; 0; 0x20; 1; 0; 0; 0] 0 0)
                    emptyModule [] [] [] false false None None 0 0) 1 9 [1] 5)
    as (vm1 & vm2 & E1 & E2 & Hs & _);
    [exact I | reflexivity | reflexivity | reflexivity | reflexivity |].
  exists vm1, vm2. auto.
Defined.

(** X3.  [tee_local] is [set_local] that keeps its operand: it leaves the
    locals that [set_local] leaves and the stack as it found it. *)
Theorem teeLocal_keeps_operand vm idx v rest :
  sinkReady vm ->
  codeUint32 (code (ctx vm)) (pc (ctx vm)) = Some idx ->
  stack (ctx vm) = v :: rest ->
  idx < len (locals (ctx vm)) ->
  exists vm1 vm2,
    setLocal vm = Ok tt vm1 /\
    teeLocal vm = Ok tt vm2 /\
    locals (ctx vm2) = locals (ctx vm1) /\
    stack (ctx vm2) = v :: stack (ctx vm1) /\
    pc (ctx vm2) = pc (ctx vm1) /\
    nth_error (locals (ctx vm2)) (Z.to_nat idx) = Some v.
Proof.
  intros Hr Hc Hs Hi.
  destruct (idx_int _ _ _ Hc) as [_ H0].
  eexists. eexists.
  split; [apply (setLocal_run vm idx v rest); assumption |].
  split; [apply (teeLocal_run vm idx v rest); assumption |].
  rewrite !logState_ctx. cbn. rewrite Hs.
  repeat split. apply nth_error_splice_one. lia.
Qed.

Lemma teeLocal_keeps_operand_witness :
  exists vm2,
    teeLocal (mkVM (mkContext [9; 1] [5; 6; 7] [1; 0; 0; 0] 0 0) emptyModule
                   [] [] [] false false None None 0 0) = Ok tt vm2 /\
    stack (ctx vm2) = [9; 1] /\ locals (ctx vm2) = [5; 9; 7].
Proof.
  destruct (teeLocal_keeps_operand
              (mkVM (mkContext [9; 1] [5; 6; 7] [1; 0; 0; 0] 0 0) emptyModule
                    [] [] [] false false None None 0 0) 1 9 [1])
    as (vm1 & vm2 & _ & E & _); [exact I | reflexivity | reflexivity | reflexivity |].
  exists vm2. split; [exact E |].
  vm_compute in E. injection E as <-. split; reflexivity.
Defined.

(** X4.  A local index at or beyond the number of locals is a Go run-time
    index panic, not one of the package's trap values.  [get_local] and
    [tee_local] panic with the stack as it was; [set_local] has by then
    popped its operand. *)
Theorem local_index_out_of_range vm idx v rest :
  codeUint32 (code (ctx vm)) (pc (ctx vm)) = Some idx ->
  stack (ctx vm) = v :: rest ->
  len (locals (ctx vm)) <= idx ->
  getLocal vm = Panic RuntimeIndexOutOfRange (set_pc vm (pc (ctx vm) + 4)) /\
  teeLocal vm = Panic RuntimeIndexOutOfRange (set_pc vm (pc (ctx vm) + 4)) /\
  setLocal vm =
    Panic RuntimeIndexOutOfRange (set_stack (set_pc vm (pc (ctx vm) + 4)) rest).
Proof.
  intros Hc Hs Hi.
  destruct (idx_int _ _ _ Hc) as [Hint H0].
  open_machine vm.
  split; [| split].
  - unfold getLocal. repeat run_step.
    erewrite bind_Panic; [reflexivity |]. apply indexAt_out. exact Hi.
  - unfold teeLocal. repeat run_step.
    erewrite bind_Panic; [reflexivity |]. apply assignAt_out. exact Hi.
  - unfold setLocal. repeat run_step.
    erewrite bind_Panic; [reflexivity |]. apply assignAt_out. exact Hi.
Qed.

Lemma local_index_out_of_range_witness :
  setLocal (mkVM (mkContext [9; 1] [5; 6; 7] [3; 0; 0; 0] 0 0) emptyModule
                 [] [] [] false false None None 0 0) =
  Panic RuntimeIndexOutOfRange
        (mkVM (mkContext [1] [5; 6; 7] [3; 0; 0; 0] 4 0) emptyModule
              [] [] [] false false None None 0 0).
Proof.
  destruct (local_index_out_of_range
              (mkVM (mkContext [9; 1] [5; 6; 7] [3; 0; 0; 0] 0 0) emptyModule
                    [] [] [] false false None None 0 0) 3 9 [1])
    as (_ & _ & E); [reflexivity | reflexivity | vm_compute; discriminate |].
  exact E.
Defined.

(** X5.  Round trip through a global: [get_global i] run at a later offset
    [q] of the same code pushes the value [set_global i] popped; the locals
    and the linear memory are not touched, and no other global changes. *)
Theorem setGlobal_then_getGlobal vm idx v rest q :
  sinkReady vm ->
  codeUint32 (code (ctx vm)) (pc (ctx vm)) = Some idx ->
  codeUint32 (code (ctx vm)) q = Some idx ->
  stack (ctx vm) = v :: rest ->
  idx < len (globals vm) ->
  exists vm1 vm2,
    setGlobal vm = Ok tt vm1 /\
    getGlobal (set_pc vm1 q) = Ok tt vm2 /\
    stack (ctx vm2) = v :: rest /\
    locals (ctx vm2) = locals (ctx vm) /\
    memory vm2 = memory vm /\
    len (globals vm2) = len (globals vm) /\
    (forall j, 0 <= j -> j <> idx ->
       nth_error (globals vm2) (Z.to_nat j) = nth_error (globals vm) (Z.to_nat j)).
Proof.
  intros Hr Hc Hq Hs Hi.
  destruct (idx_int _ _ _ Hc) as [_ H0].
  eexists. eexists.
  split; [apply (setGlobal_run vm idx v rest); assumption |].
  split.
  - apply (getGlobal_run _ idx v).
    + ready.
    + rewrite <- Hq. cbn. rewrite logState_ctx. reflexivity.
    + cbn. rewrite logState_globals. cbn. apply nth_error_splice_one. lia.
  - rewrite !logState_ctx, !logState_memory, !logState_globals. cbn.
    rewrite !logState_ctx, ?logState_memory, ?logState_globals. cbn.
    repeat split.
    + apply len_splice; rewrite ?len_one; lia.
    + intros j Hj Hne. apply nth_error_splice_other; lia.
Qed.

Lemma setGlobal_then_getGlobal_witness :
  exists vm1 vm2,
    setGlobal (mkVM (mkContext [9; 1] [] [1; 0; 0; 0; 0x23; 1; 0; 0; 0] 0 0)
                    emptyModule [5; 6; 7] [] [] false false None None 0 0) = Ok tt vm1 /\
    getGlobal (set_pc vm1 5) = Ok tt vm2 /\
    stack (ctx vm2) = [9; 1].
Proof.
  destruct (setGlobal_then_getGlobal
              (mkVM (mkContext [9; 1] [] [1; 0; 0; 0; 0x23; 1; 0; 0; 0] 0 0)
                    emptyModule [5; 6; 7] [] [] false false None None 0 0) 1 9 [1] 5)
    as (vm1 & vm2 & E1 & E2 & Hs & _);
    [exact I | reflexivity | reflexivity | reflexivity | reflexivity |].
  exists vm1, vm2. auto.
Defined.

(** ** Memory size *)

Lemma fetchInt8_run vm b :
  0 <= pc (ctx vm) ->
  nth_error (code (ctx vm)) (Z.to_nat (pc (ctx vm))) = Some b ->
  fetchInt8 vm = Ok (int8 b) (set_pc vm (pc (ctx vm) + 1)).
Proof.
  intros Hp Hb. unfold fetchInt8.
  do 2 (erewrite bind_Ok by (cbn; reflexivity); cbv beta).
  erewrite bind_Ok by (apply indexAt_run; eassumption).
  reflexivity.
Qed.

Lemma makeBytes_run n vm :
  0 <= n -> makeBytes n vm = Ok (repeat 0 (Z.to_nat n)) vm.
Proof.
  intros Hn. unfold makeBytes.
  destruct (Z.ltb_spec n 0); [lia | reflexivity].
Qed.

Lemma makeBytes_negative n vm :
  n < 0 -> makeBytes n vm = Panic RuntimeIndexOutOfRange vm.
Proof.
  intros Hn. unfold makeBytes.
  destruct (Z.ltb_spec n 0); [reflexivity | lia].
Qed.

Lemma len_repeat {A} (x : A) n : 0 <= n -> len (repeat x (Z.to_nat n)) = n.
Proof. intros Hn. unfold len. rewrite repeat_length. lia. Qed.

Lemma growMemory_run vm b s rest :
  sinkReady vm ->
  0 <= pc (ctx vm) ->
  nth_error (code (ctx vm)) (Z.to_nat (pc (ctx vm))) = Some b ->
  stack (ctx vm) = s :: rest ->
  0 <= int32 (int32 (uint32 s) * wasmPageSize) ->
  growMemory vm =
  Ok tt (logState 0x40 "grow memory" 4
           (set_stack
              (set_memory (set_pc vm (pc (ctx vm) + 1))
                 (memory vm ++
                  repeat 0 (Z.to_nat (int32 (int32 (uint32 s) * wasmPageSize)))))
              (uint64 (int32 (Z.quot (len (memory vm)) wasmPageSize)) :: rest))).
Proof.
  intros Hr Hp Hb Hs Hn.
  open_machine vm.
  unfold growMemory.
  erewrite bind_Ok by (apply fetchInt8_run; cbn; eassumption).
  cbv beta. repeat run_step.
  erewrite bind_Ok by (apply makeBytes_run; exact Hn).
  repeat run_step.
  apply opLog_ready. exact Hr.
Qed.

Lemma currentMemory_run vm b :
  sinkReady vm ->
  0 <= pc (ctx vm) ->
  nth_error (code (ctx vm)) (Z.to_nat (pc (ctx vm))) = Some b ->
  currentMemory vm =
  Ok tt (logState 0x3F "current memory size" 4
           (set_stack (set_pc vm (pc (ctx vm) + 1))
              (uint64 (int32 (Z.quot (len (memory vm)) wasmPageSize))
               :: stack (ctx vm)))).
Proof.
  intros Hr Hp Hb.
  open_machine vm.
  unfold currentMemory.
  erewrite bind_Ok by (apply fetchInt8_run; cbn; eassumption).
  cbv beta. repeat run_step.
  apply opLog_ready. exact Hr.
Qed.

Lemma pages_slot m :
  0 <= m < 2 ^ 47 -> uint64 (int32 (Z.quot m wasmPageSize)) = m / wasmPageSize.
Proof.
  intros Hm. unfold wasmPageSize in *.
  change (2 ^ 47) with 140737488355328 in Hm.
  rewrite Z.quot_div_nonneg by lia.
  assert (0 <= m / 65536 < 2147483648) by zlia.
  rewrite int32_small by (change (2 ^ 31) with 2147483648; lia).
  apply uint64_small. change (2 ^ 64) with 18446744073709551616. lia.
Qed.

(** X6.  [grow_memory] never reports failure: when the byte count
    [int32(n * 65536)] is not negative it appends that many zero bytes to the
    linear memory, leaves the bytes already there, and pushes the page count
    from before the growth.  The count is an [int32] product, so only for
    [0 <= n < 32768] is it [n] pages. *)
Theorem growMemory_appends_zero_bytes vm b s rest n :
  sinkReady vm ->
  0 <= pc (ctx vm) ->
  nth_error (code (ctx vm)) (Z.to_nat (pc (ctx vm))) = Some b ->
  stack (ctx vm) = s :: rest ->
  int32 (uint32 s) = n ->
  0 <= int32 (n * wasmPageSize) ->
  len (memory vm) < 2 ^ 47 ->
  exists vm',
    growMemory vm = Ok tt vm' /\
    memory vm' = memory vm ++ repeat 0 (Z.to_nat (int32 (n * wasmPageSize))) /\
    stack (ctx vm') = len (memory vm) / wasmPageSize :: rest /\
    (0 <= n < 32768 -> len (memory vm') = len (memory vm) + n * wasmPageSize).
Proof.
  intros Hr Hp Hb Hs <- Hn Hlen.
  eexists. split; [apply (growMemory_run vm b s rest); assumption |].
  rewrite logState_ctx, logState_memory. cbn.
  split; [reflexivity |]. split.
  - rewrite pages_slot by (pose proof (len_nonneg (memory vm)); lia). reflexivity.
  - intros Hsmall. rewrite len_app.
    rewrite len_repeat by exact Hn.
    rewrite int32_small; [reflexivity |].
    unfold wasmPageSize. change (2 ^ 31) with 2147483648. lia.
Qed.

Lemma growMemory_appends_zero_bytes_witness :
  exists vm',
    growMemory (machine [1] [0] [7; 7]) = Ok tt vm' /\
    len (memory vm') = 65538 /\ stack (ctx vm') = [0].
Proof.
  destruct (growMemory_appends_zero_bytes (machine [1] [0] [7; 7]) 0 1 [] 1)
    as (vm' & E & Hm & Hs & Hl);
    [exact I | vm_compute; discriminate | reflexivity | reflexivity | reflexivity
    | vm_compute; discriminate | reflexivity |].
  exists vm'. split; [exact E |]. split.
  - rewrite Hl; [reflexivity | split; [discriminate | reflexivity]].
  - exact Hs.
Defined.

(** X7.  A page count whose [int32] byte count is negative (32768 pages is
    the smallest) does not make [grow_memory] push -1: the handler panics in
    the Go run time while making the slice, after popping its operand, with
    the linear memory as it was. *)
Theorem growMemory_negative_size_panics vm b s rest :
  0 <= pc (ctx vm) ->
  nth_error (code (ctx vm)) (Z.to_nat (pc (ctx vm))) = Some b ->
  stack (ctx vm) = s :: rest ->
  int32 (int32 (uint32 s) * wasmPageSize) < 0 ->
  growMemory vm =
  Panic RuntimeIndexOutOfRange (set_stack (set_pc vm (pc (ctx vm) + 1)) rest).
Proof.
  intros Hp Hb Hs Hn.
  open_machine vm.
  unfold growMemory.
  erewrite bind_Ok by (apply fetchInt8_run; cbn; eassumption).
  cbv beta. repeat run_step.
  erewrite bind_Panic; [reflexivity |]. apply makeBytes_negative. exact Hn.
Qed.

Lemma growMemory_negative_size_panics_witness :
  growMemory (machine [32768] [0] [7; 7]) =
  Panic RuntimeIndexOutOfRange (set_stack (set_pc (machine [32768] [0] [7; 7]) 1) []).
Proof.
  apply (growMemory_negative_size_panics (machine [32768] [0] [7; 7]) 0 32768 []);
    [vm_compute; discriminate | reflexivity | reflexivity | reflexivity].
Defined.

(** X8.  On a memory of whole pages, [current_memory] after a
    [grow_memory] of [n] pages, [0 <= n < 32768], pushes the old page count
    plus [n], above the old page count that [grow_memory] pushed. *)
Theorem growMemory_then_currentMemory vm b b' q s rest n pages :
  sinkReady vm ->
  0 <= pc (ctx vm) ->
  nth_error (code (ctx vm)) (Z.to_nat (pc (ctx vm))) = Some b ->
  0 <= q ->
  nth_error (code (ctx vm)) (Z.to_nat q) = Some b' ->
  stack (ctx vm) = s :: rest ->
  int32 (uint32 s) = n ->
  0 <= n < 32768 ->
  len (memory vm) = pages * wasmPageSize ->
  pages < 2 ^ 30 ->
  exists vm1 vm2,
    growMemory vm = Ok tt vm1 /\
    currentMemory (set_pc vm1 q) = Ok tt vm2 /\
    stack (ctx vm2) = pages + n :: pages :: rest /\
    memory vm2 = memory vm ++ repeat 0 (Z.to_nat (n * wasmPageSize)).
Proof.
  intros Hr Hp Hb Hq Hb' Hs <- Hn Hlen Hpages.
  pose proof (len_nonneg (memory vm)) as Hnn.
  change (2 ^ 30) with 1073741824 in Hpages.
  assert (Hprod : int32 (int32 (uint32 s) * wasmPageSize) = int32 (uint32 s) * wasmPageSize).
  { apply int32_small. unfold wasmPageSize. change (2 ^ 31) with 2147483648. lia. }
  eexists. eexists.
  split; [apply (growMemory_run vm b s rest); try assumption; rewrite Hprod;
          unfold wasmPageSize; lia |].
  split.
  - apply (currentMemory_run _ b').
    + ready.
    + exact Hq.
    + cbn. rewrite logState_ctx. cbn. exact Hb'.
  - rewrite !logState_ctx, !logState_memory. cbn.
    rewrite !logState_ctx, !logState_memory. cbn.
    rewrite Hprod. split; [| reflexivity].
    rewrite len_app, len_repeat by (unfold wasmPageSize; lia).
    rewrite Hlen.
    replace (pages * wasmPageSize + int32 (uint32 s) * wasmPageSize)
      with ((pages + int32 (uint32 s)) * wasmPageSize) by ring.
    unfold wasmPageSize in *.
    rewrite !pages_slot by (change (2 ^ 47) with 140737488355328; lia).
    rewrite !Z.div_mul by discriminate. reflexivity.
Qed.

Lemma growMemory_then_currentMemory_witness :
  exists vm1 vm2,
    growMemory (machine [2] [0; 0x3F; 0] []) = Ok tt vm1 /\
    currentMemory (set_pc vm1 2) = Ok tt vm2 /\
    stack (ctx vm2) = [2; 0].
Proof.
  destruct (growMemory_then_currentMemory (machine [2] [0; 0x3F; 0] []) 0 0 2 2 [] 2 0)
    as (vm1 & vm2 & E1 & E2 & Hs & _);
    [exact I | vm_compute; discriminate | reflexivity | vm_compute; discriminate
    | reflexivity | reflexivity | reflexivity
    | split; [vm_compute; discriminate | reflexivity] | reflexivity | reflexivity |].
  exists vm1, vm2. auto.
Defined.

(** ** The host's view of the memory *)

Lemma len_firstn {A} (l : list A) n :
  0 <= n -> len (firstn (Z.to_nat n) l) = Z.min n (len l).
Proof. intros Hn. unfold len. rewrite length_firstn. lia. Qed.

Lemma sliceRange_run {A} (s : list A) lo hi vm :
  0 <= lo -> lo <= hi -> hi <= len s ->
  sliceRange s lo hi vm = Ok (firstn (Z.to_nat (hi - lo)) (skipn (Z.to_nat lo) s)) vm.
Proof.
  intros H0 H1 H2. unfold sliceRange.
  destruct (Z.leb_spec 0 lo); [| lia].
  destruct (Z.leb_spec lo hi); [| lia].
  destruct (Z.leb_spec hi (len s)); [| lia].
  reflexivity.
Qed.

Lemma sliceRange_out {A} (s : list A) lo hi vm :
  lo < 0 \/ len s < lo -> sliceRange s lo hi vm = Panic RuntimeIndexOutOfRange vm.
Proof.
  intros H. unfold sliceRange.
  destruct (Z.leb_spec 0 lo); [| reflexivity].
  destruct (Z.leb_spec lo hi); [| reflexivity].
  destruct (Z.leb_spec hi (len s)); [| reflexivity].
  lia.
Qed.

Lemma sliceFrom_out {A} (s : list A) i vm :
  i < 0 \/ len s < i -> sliceFrom s i vm = Panic RuntimeIndexOutOfRange vm.
Proof.
  intros H. unfold sliceFrom.
  destruct (Z.leb_spec 0 i); [| reflexivity].
  destruct (Z.leb_spec i (len s)); [| reflexivity].
  lia.
Qed.

Lemma transferLength_in mem p off :
  0 <= off <= len mem -> len mem + len p < 2 ^ 63 ->
  transferLength mem p off = Z.min (len p) (len mem - off).
Proof.
  intros Hoff Hsize. unfold transferLength.
  pose proof (len_nonneg p) as Hp.
  change (2 ^ 63) with 9223372036854775808 in Hsize.
  rewrite (int_small off) by (change (2 ^ 63) with 9223372036854775808; lia).
  rewrite (int_small (len p + off)) by (change (2 ^ 63) with 9223372036854775808; lia).
  rewrite (int_small (len mem - off)) by (change (2 ^ 63) with 9223372036854775808; lia).
  destruct (Z.ltb_spec (len mem) (len p + off)); lia.
Qed.

Lemma ReadAt_run vm p off :
  0 <= off <= len (memory vm) -> len (memory vm) + len p < 2 ^ 63 ->
  ReadAt p off vm =
  Ok (firstn (Z.to_nat (Z.min (len p) (len (memory vm) - off)))
        (skipn (Z.to_nat off) (memory vm))
      ++ skipn (Z.to_nat (Z.min (len p) (len (memory vm) - off))) p,
      Z.min (len p) (len (memory vm) - off),
      if Z.min (len p) (len (memory vm) - off) <? len p
      then Some ErrShortBuffer else None) vm.
Proof.
  intros Hoff Hsize. unfold ReadAt.
  pose proof (len_nonneg p) as Hp.
  erewrite bind_Ok by (cbn; reflexivity). cbv beta zeta.
  rewrite (transferLength_in _ _ _ Hoff Hsize).
  set (n := Z.min (len p) (len (memory vm) - off)).
  assert (Hn : 0 <= n <= len p /\ off + n <= len (memory vm)) by (subst n; lia).
  change (2 ^ 63) with 9223372036854775808 in Hsize.
  rewrite (int64_small n) by (change (2 ^ 63) with 9223372036854775808; lia).
  rewrite (int64_small (off + n)) by (change (2 ^ 63) with 9223372036854775808; lia).
  erewrite bind_Ok by (apply sliceRange_run; lia). cbv beta.
  unfold ret, copy. cbn [fst].
  replace (off + n - off) with n by lia.
  assert (Hsrc : Z.min (len p)
                   (len (firstn (Z.to_nat n) (skipn (Z.to_nat off) (memory vm)))) = n).
  { rewrite len_firstn by lia. rewrite len_skipn by lia. lia. }
  rewrite Hsrc.
  rewrite firstn_firstn, Nat.min_id. reflexivity.
Qed.

Lemma WriteAt_run vm p off :
  0 <= off <= len (memory vm) -> len (memory vm) + len p < 2 ^ 63 ->
  WriteAt p off vm =
  Ok (Z.min (len p) (len (memory vm) - off),
      if Z.min (len p) (len (memory vm) - off) <? len p
      then Some ErrShortWrite else None)
     (set_memory vm
        (splice (memory vm) off
           (firstn (Z.to_nat (Z.min (len p) (len (memory vm) - off))) p))).
Proof.
  intros Hoff Hsize. unfold WriteAt.
  pose proof (len_nonneg p) as Hp.
  erewrite bind_Ok by (cbn; reflexivity). cbv beta zeta.
  rewrite (transferLength_in _ _ _ Hoff Hsize).
  set (n := Z.min (len p) (len (memory vm) - off)).
  assert (Hn : 0 <= n <= len p /\ off + n <= len (memory vm)) by (subst n; lia).
  erewrite bind_Ok by (apply sliceFrom_run; lia). cbv beta.
  erewrite bind_Ok by (apply sliceRange_run; lia). cbv beta.
  unfold bind, modify, ret, copy. cbn [snd skipn Z.to_nat].
  rewrite Z.sub_0_r.
  assert (Hcnt : Z.min (len (skipn (Z.to_nat off) (memory vm)))
                   (len (firstn (Z.to_nat n) p)) = n).
  { rewrite len_firstn by lia. rewrite len_skipn by lia. lia. }
  rewrite Hcnt.
  rewrite firstn_firstn, Nat.min_id. reflexivity.
Qed.

(** X9.  [ReadAt] with an offset inside the memory copies
    [n = min(len(p), len(memory) - off)] bytes from offset [off] to the
    front of the buffer, leaves the rest of the buffer, returns [n], and
    reports [io.ErrShortBuffer] exactly when [n < len(p)]; the machine is
    not changed. *)
Theorem ReadAt_copies_what_fits vm p off :
  0 <= off <= len (memory vm) -> len (memory vm) + len p < 2 ^ 63 ->
  exists p' n err,
    ReadAt p off vm = Ok (p', n, err) vm /\
    n = Z.min (len p) (len (memory vm) - off) /\
    len p' = len p /\
    (forall i, 0 <= i < n ->
       nth_error p' (Z.to_nat i) = nth_error (memory vm) (Z.to_nat (off + i))) /\
    (forall i, n <= i ->
       nth_error p' (Z.to_nat i) = nth_error p (Z.to_nat i)) /\
    (err = Some ErrShortBuffer <-> off + len p > len (memory vm)) /\
    (err = None <-> off + len p <= len (memory vm)).
Proof.
  intros Hoff Hsize.
  pose proof (len_nonneg p) as Hp.
  do 3 eexists. split; [apply ReadAt_run; assumption |].
  set (n := Z.min (len p) (len (memory vm) - off)).
  assert (Hn : 0 <= n <= len p /\ off + n <= len (memory vm)) by (subst n; lia).
  assert (Hl : List.length (firstn (Z.to_nat n) (skipn (Z.to_nat off) (memory vm)))
               = Z.to_nat n).
  { rewrite length_firstn, length_skipn. unfold len in *. lia. }
  split; [reflexivity |]. split; [| split; [| split; [| split]]].
  - rewrite len_app, len_firstn, !len_skipn by lia. lia.
  - intros i Hi. rewrite nth_error_app1 by (rewrite Hl; lia).
    rewrite nth_error_firstn.
    destruct (Nat.ltb_spec (Z.to_nat i) (Z.to_nat n)); [| lia].
    rewrite nth_error_skipn. f_equal. lia.
  - intros i Hi. rewrite nth_error_app2 by (rewrite Hl; lia).
    rewrite Hl, nth_error_skipn. f_equal. lia.
  - destruct (Z.ltb_spec n (len p)) as [Hlt | Hge]; split; intros Herr;
      try discriminate; try reflexivity; subst n; lia.
  - destruct (Z.ltb_spec n (len p)) as [Hlt | Hge]; split; intros Herr;
      try discriminate; try reflexivity; subst n; lia.
Qed.

Lemma ReadAt_copies_what_fits_witness :
  exists p' n err,
    ReadAt [0; 0; 0] 2 (machine [] [] [10; 11; 12; 13]) =
      Ok (p', n, err) (machine [] [] [10; 11; 12; 13]) /\
    n = 2 /\ (err = Some ErrShortBuffer <-> 2 + 3 > 4).
Proof.
  destruct (ReadAt_copies_what_fits (machine [] [] [10; 11; 12; 13]) [0; 0; 0] 2)
    as (p' & n & err & E & Hn & _ & _ & _ & Herr & _);
    [split; vm_compute; discriminate | reflexivity |].
  exists p', n, err. split; [exact E |]. split; [exact Hn | exact Herr].
Defined.

(** X10.  An offset that is negative or beyond the end of the memory makes
    [ReadAt] and [WriteAt] panic in the Go run time; neither returns an
    error for it, and the memory is as it was. *)
Theorem Process_offset_outside_memory_panics vm p off :
  off < 0 \/ len (memory vm) < off ->
  ReadAt p off vm = Panic RuntimeIndexOutOfRange vm /\
  WriteAt p off vm = Panic RuntimeIndexOutOfRange vm.
Proof.
  intros Hoff. split.
  - unfold ReadAt. erewrite bind_Ok by (cbn; reflexivity). cbv beta zeta.
    erewrite bind_Panic; [reflexivity |]. apply sliceRange_out. exact Hoff.
  - unfold WriteAt. erewrite bind_Ok by (cbn; reflexivity). cbv beta zeta.
    erewrite bind_Panic; [reflexivity |]. apply sliceFrom_out. exact Hoff.
Qed.

Lemma Process_offset_outside_memory_panics_witness :
  ReadAt [0] 5 (machine [] [] [10; 11; 12; 13]) =
    Panic RuntimeIndexOutOfRange (machine [] [] [10; 11; 12; 13]) /\
  WriteAt [0] (-1) (machine [] [] [10; 11; 12; 13]) =
    Panic RuntimeIndexOutOfRange (machine [] [] [10; 11; 12; 13]).
Proof.
  split.
  - apply (Process_offset_outside_memory_panics (machine [] [] [10; 11; 12; 13]) [0] 5).
    right. reflexivity.
  - apply (Process_offset_outside_memory_panics (machine [] [] [10; 11; 12; 13]) [0] (-1)).
    left. reflexivity.
Defined.

(** X11.  What [WriteAt] wrote, [ReadAt] reads back: with the same offset
    and a buffer of the same length it returns the same count and the
    written prefix of [p]; when [p] fits into the memory that is all of [p],
    with no error.  [WriteAt] never changes the size of the memory and
    touches no byte below [off] or from [off + n] on. *)
Theorem WriteAt_then_ReadAt vm p q off :
  0 <= off <= len (memory vm) -> len (memory vm) + len p < 2 ^ 63 ->
  len q = len p ->
  exists n werr vm' rerr,
    WriteAt p off vm = Ok (n, werr) vm' /\
    len (memory vm') = len (memory vm) /\
    (forall j, 0 <= j -> j < off \/ off + n <= j ->
       nth_error (memory vm') (Z.to_nat j) = nth_error (memory vm) (Z.to_nat j)) /\
    ReadAt q off vm' =
      Ok (firstn (Z.to_nat n) p ++ skipn (Z.to_nat n) q, n, rerr) vm' /\
    (off + len p <= len (memory vm) ->
       werr = None /\ ReadAt q off vm' = Ok (p, len p, None) vm').
Proof.
  intros Hoff Hsize Hq.
  pose proof (len_nonneg p) as Hp.
  set (n := Z.min (len p) (len (memory vm) - off)).
  assert (Hn : 0 <= n <= len p /\ off + n <= len (memory vm)) by (subst n; lia).
  assert (Hw : len (firstn (Z.to_nat n) p) = n) by (rewrite len_firstn; lia).
  assert (Hlen : len (splice (memory vm) off (firstn (Z.to_nat n) p)) = len (memory vm)).
  { apply len_splice; lia. }
  assert (Hread :
    ReadAt q off (set_memory vm (splice (memory vm) off (firstn (Z.to_nat n) p))) =
    Ok (firstn (Z.to_nat n) p ++ skipn (Z.to_nat n) q, n,
        if n <? len q then Some ErrShortBuffer else None)
       (set_memory vm (splice (memory vm) off (firstn (Z.to_nat n) p)))).
  { rewrite ReadAt_run; cbn [memory set_memory]; rewrite ?Hlen; try lia.
    rewrite Hq. fold n.
    rewrite skipn_splice by lia.
    rewrite firstn_app.
    assert (Hl : List.length (firstn (Z.to_nat n) p) = Z.to_nat n)
      by (unfold len in Hw; lia).
    rewrite Hl, Nat.sub_diag, firstn_O, app_nil_r.
    rewrite firstn_firstn, Nat.min_id. reflexivity. }
  eexists n, _, _, _.
  split; [apply WriteAt_run; assumption |].
  cbn [memory set_memory]. fold n.
  split; [exact Hlen |]. split; [| split; [exact Hread |]].
  - intros j Hj Hout. apply nth_error_splice_out; lia.
  - intros Hfit.
    assert (En : n = len p) by (subst n; lia).
    split.
    + destruct (Z.ltb_spec n (len p)); [lia | reflexivity].
    + rewrite Hread. rewrite Hq.
      destruct (Z.ltb_spec n (len p)); [lia |].
      rewrite En. unfold len.
      rewrite Nat2Z.id, firstn_all.
      rewrite skipn_all2 by (unfold len in Hq; lia).
      rewrite app_nil_r. reflexivity.
Qed.

Lemma WriteAt_then_ReadAt_witness :
  exists n vm',
    WriteAt [7; 8] 1 (machine [] [] [10; 11; 12; 13]) = Ok (n, None) vm' /\
    ReadAt [0; 0] 1 vm' = Ok ([7; 8], 2, None) vm'.
Proof.
  destruct (WriteAt_then_ReadAt (machine [] [] [10; 11; 12; 13]) [7; 8] [0; 0] 1)
    as (n & werr & vm' & rerr & Ew & _ & _ & _ & Hfit);
    [split; vm_compute; discriminate | reflexivity | reflexivity |].
  destruct Hfit as [-> Er]; [vm_compute; discriminate |].
  exists n, vm'. split; [exact Ew | exact Er].
Defined.

(** ** [ExecCode] and [Terminate] *)

Lemma skipn_repeat_zero (n m : nat) :
  skipn n (repeat 0 m) = repeat 0 (m - n).
Proof.
  revert m. induction n as [| n IH]; intros m.
  - rewrite Nat.sub_0_r. reflexivity.
  - destruct m as [| m]; [reflexivity |]. cbn [repeat skipn]. apply IH.
Qed.

Lemma splice_front_repeat (a : list Z) n :
  len a <= n ->
  splice (repeat 0 (Z.to_nat n)) 0 a = a ++ repeat 0 (Z.to_nat (n - len a)).
Proof.
  intros Hn. unfold splice, len in *. cbn [Z.to_nat firstn app Nat.add].
  f_equal. rewrite skipn_repeat_zero. f_equal. lia.
Qed.

Section MoreExecProperties.
Variable ops : ControlOps.
Variable funcTable : Z -> option (M unit).
Variable nativeCodeInvocation : Z -> M unit.
Variable GetFunction : Module -> Z -> option Function.

Lemma execLoop_aborted fuel vm :
  abort vm = true ->
  execLoop ops funcTable nativeCodeInvocation fuel vm = Ok tt vm.
Proof.
  intros Ha. destruct fuel; cbn [execLoop]; rewrite Ha, andb_false_r; reflexivity.
Qed.

Lemma execBody_enters {srv : Server} fuel fnIndex args vm fn c :
  0 <= fnIndex < len (funcs vm) -> fnIndex < 2 ^ 63 ->
  GetFunction (module vm) fnIndex = Some fn ->
  len (ParamTypes (Sig fn)) = len args ->
  nth_error (funcs vm) (Z.to_nat fnIndex) = Some (compiled c) ->
  len args <= totalLocalVars c ->
  execBody ops funcTable nativeCodeInvocation GetFunction fuel fnIndex args vm =
  (res <- execCode ops funcTable nativeCodeInvocation fuel c ;;
   if returns c then
     rtrnType <- indexAt (ReturnTypes (Sig fn)) 0 ;;
     match rtrnType with
     | ValueTypeI32 => ret (Normal (Some (U32 (uint32 res))))
     | ValueTypeI64 => ret (Normal (Some (U64 (uint64 res))))
     | ValueTypeF32 => ret (Normal (Some (F32 (Float32frombits (uint32 res)))))
     | ValueTypeF64 => ret (Normal (Some (F64 (Float64frombits res))))
     | ValueTypeOther _ => ret (EarlyErr (InvalidReturnTypeError rtrnType))
     end
   else ret (Normal None))
    (set_ctx vm (mkContext [] (args ++ repeat 0 (Z.to_nat (totalLocalVars c - len args)))
                           (cf_code c) 0 fnIndex)).
Proof.
  intros Hi Hi' Hfn Hn Hf Hargs.
  pose proof (len_nonneg args) as Hla.
  unfold execBody.
  erewrite bind_Ok by (cbn; reflexivity). cbv beta.
  rewrite int_small by lia.
  destruct (Z.gtb_spec fnIndex (len (funcs vm))) as [H | _]; [lia |].
  erewrite bind_Ok by (cbn; reflexivity). cbv beta.
  rewrite Hfn, Hn, Z.eqb_refl. cbn [negb].
  erewrite bind_Ok by (apply indexAt_run; [lia | exact Hf]). cbv beta iota.
  destruct (Z.ltb_spec (totalLocalVars c) 0) as [H | _]; [lia |].
  erewrite bind_Ok by (cbn; reflexivity). cbv beta.
  erewrite bind_Ok by (cbn; reflexivity). cbv beta.
  destruct (Z.ltb_spec (totalLocalVars c) (len args)) as [H | _]; [lia |].
  erewrite bind_Ok by (cbn; reflexivity). cbv beta.
  cbn [set_ctx ctx locals module globals memory funcs RecoverPanic abort pg PgTx
       PgRunNum opNum].
  rewrite splice_front_repeat by exact Hargs.
  reflexivity.
Qed.

(** X12.  After [Terminate] the machine runs nothing: [ExecCode] of a
    compiled function sets up the frame (empty stack, the arguments followed
    by zeroed locals, program counter 0) and leaves the loop before the
    first opcode, whatever the code is.  A function without a result
    then returns normally to the deferred commit; a function with a result
    reads the top of the empty stack, which is a Go run-time index panic. *)
Theorem ExecCode_after_Terminate fuel fnIndex args vm0 vm fn c :
  Terminate vm0 = Ok tt vm ->
  0 <= fnIndex < len (funcs vm) -> fnIndex < 2 ^ 63 ->
  GetFunction (module vm) fnIndex = Some fn ->
  len (ParamTypes (Sig fn)) = len args ->
  nth_error (funcs vm) (Z.to_nat fnIndex) = Some (compiled c) ->
  len args <= totalLocalVars c ->
  let frame := set_ctx vm (mkContext [] (args ++ repeat 0 (Z.to_nat (totalLocalVars c - len args)))
                                     (cf_code c) 0 fnIndex) in
  execBody ops funcTable nativeCodeInvocation GetFunction fuel fnIndex args vm =
    (if returns c then Panic RuntimeIndexOutOfRange frame
     else Ok (Normal None) frame) /\
  (returns c = true ->
   ExecCode ops funcTable nativeCodeInvocation GetFunction fuel fnIndex args vm =
   recovered (RecoverPanic vm) None RuntimeIndexOutOfRange frame).
Proof.
  intros Ht Hi Hi' Hfn Hn Hf Hargs frame.
  assert (Ha : abort vm = true).
  { unfold Terminate, modify in Ht. injection Ht as <-. reflexivity. }
  assert (Hbody :
    execBody ops funcTable nativeCodeInvocation GetFunction fuel fnIndex args vm =
    (if returns c then Panic RuntimeIndexOutOfRange frame
     else Ok (Normal None) frame)).
  { rewrite (execBody_enters fuel fnIndex args vm fn c) by assumption.
    fold frame. unfold execCode.
    assert (Hl : execLoop ops funcTable nativeCodeInvocation fuel frame = Ok tt frame)
      by (apply execLoop_aborted; exact Ha).
    unfold bind at 1. unfold bind at 1. rewrite Hl.
    destruct (returns c); reflexivity. }
  split; [exact Hbody |].
  intros Hret. unfold ExecCode. rewrite Hbody, Hret. reflexivity.
Qed.

(** X13.  [ExecCode] does not turn a host (Go) function into an error
    return: with a valid index and the right number of arguments it panics
    with "function at index ... is not a compiled function", before the
    frame is set up. *)
Theorem ExecCode_host_function_panics fuel fnIndex args vm fn typ :
  0 <= fnIndex < len (funcs vm) -> fnIndex < 2 ^ 63 ->
  GetFunction (module vm) fnIndex = Some fn ->
  len (ParamTypes (Sig fn)) = len args ->
  nth_error (funcs vm) (Z.to_nat fnIndex) = Some (goFunction typ) ->
  ExecCode ops funcTable nativeCodeInvocation GetFunction fuel fnIndex args vm =
  recovered (RecoverPanic vm) None (NotCompiledFunction fnIndex) vm.
Proof.
  intros Hi Hi' Hfn Hn Hf.
  unfold ExecCode, execBody.
  erewrite bind_Ok by (cbn; reflexivity). cbv beta.
  rewrite int_small by lia.
  destruct (Z.gtb_spec fnIndex (len (funcs vm))) as [H | _]; [lia |].
  erewrite bind_Ok by (cbn; reflexivity). cbv beta.
  rewrite Hfn, Hn, Z.eqb_refl. cbn [negb].
  erewrite bind_Ok by (apply indexAt_run; [lia | exact Hf]). cbv beta iota.
  reflexivity.
Qed.

(** With [RecoverPanic] set on entry no panic leaves [ExecCode]. *)
Lemma ExecCode_recovers_every_panic fuel fnIndex args vm :
  RecoverPanic vm = true ->
  forall p vm',
    ExecCode ops funcTable nativeCodeInvocation GetFunction fuel fnIndex args vm
    <> Unwound p vm'.
Proof.
  intros Hrec p vm'. unfold ExecCode, recovered. rewrite Hrec.
  destruct (execBody ops funcTable nativeCodeInvocation GetFunction fuel fnIndex args vm)
    as [[e | rtrn] vm1 | p1 vm1 | h]; try discriminate.
  destruct (Commit vm1) as [u vm2 | p2 vm2 | h]; discriminate.
Qed.

End MoreExecProperties.

(** [seven] on a terminated machine: the loop is not entered and the result
    is read from the empty stack. *)
Lemma ExecCode_after_Terminate_witness :
  ExecCode wagonOps exampleTable noNative lookupFunction 10 0 []
           (set_abort (sevenVM false) true) =
  Unwound RuntimeIndexOutOfRange
          (set_ctx (set_abort (sevenVM false) true)
                   (mkContext [] [] (cf_code seven) 0 0)).
Proof.
  destruct (ExecCode_after_Terminate wagonOps exampleTable noNative lookupFunction
              10 0 [] (sevenVM false) (set_abort (sevenVM false) true)
              (mkFunction sevenSig false "seven") seven)
    as [_ E];
    [reflexivity | split; [vm_compute; discriminate | reflexivity] | reflexivity
    | reflexivity | reflexivity | reflexivity | vm_compute; discriminate |].
  exact (E eq_refl).
Defined.

(** Function 0 of [indirectVM] is a host function of two parameters. *)
Lemma ExecCode_host_function_panics_witness :
  ExecCode wagonOps exampleTable noNative lookupFunction 10 0 [1; 2] (indirectVM 0) =
  Unwound (NotCompiledFunction 0) (indirectVM 0).
Proof.
  apply (ExecCode_host_function_panics wagonOps exampleTable noNative lookupFunction
           10 0 [1; 2] (indirectVM 0) (mkFunction sigBinary false "add") sigBinary);
    [split; [vm_compute; discriminate | reflexivity] | reflexivity | reflexivity
    | reflexivity | reflexivity].
Defined.

(** ** Stores and loads *)

Lemma uint8_wrapU w v : 8 <= w -> uint8 (wrapU w v) = uint8 v.
Proof.
  intros Hw. unfold uint8, wrapU. apply Z.mod_mod_divide.
  exists (2 ^ (w - 8)). rewrite <- Z.pow_add_r by lia. f_equal. lia.
Qed.

Lemma shiftr_wrapU w v : 8 <= w -> Z.shiftr (wrapU w v) 8 = wrapU (w - 8) (Z.shiftr v 8).
Proof.
  intros Hw. unfold wrapU. rewrite !Z.shiftr_div_pow2 by lia.
  replace w with (8 + (w - 8)) at 1 by lia.
  rewrite Z.pow_add_r by lia.
  rewrite Z.rem_mul_r by (try apply Z.pow_nonzero; try apply Z.pow_pos_nonneg; lia).
  rewrite Z.mul_comm, Z.div_add by (apply Z.pow_nonzero; lia).
  rewrite Z.div_small by (apply Z.mod_pos_bound; apply Z.pow_pos_nonneg; lia).
  reflexivity.
Qed.

Lemma bytes_S n v :
  LittleEndian.bytes (S n) v = uint8 v :: LittleEndian.bytes n (Z.shiftr v 8).
Proof. reflexivity. Qed.

Lemma bytes_wrapU n w v :
  8 * Z.of_nat n <= w -> LittleEndian.bytes n (wrapU w v) = LittleEndian.bytes n v.
Proof.
  revert w v. induction n as [| n IH]; intros w v Hw; [reflexivity |].
  rewrite !bytes_S.
  rewrite uint8_wrapU by lia. rewrite shiftr_wrapU by lia.
  rewrite IH by lia. reflexivity.
Qed.

Lemma uint8_range x : 0 <= uint8 x < 256.
Proof. unwrap. zlia. Qed.

Lemma bytes_allBytes n v : allBytes (LittleEndian.bytes n v).
Proof.
  revert v. induction n as [| n IH]; intros v.
  - constructor.
  - rewrite bytes_S. constructor; [apply uint8_range | apply IH].
Qed.

Lemma Uint16_bytes v tl vm :
  LittleEndian.Uint16 (LittleEndian.bytes 2 v ++ tl) vm = Ok (uint16 v) vm.
Proof.
  unfold LittleEndian.bytes. cbn [app]. unfold LittleEndian.Uint16, ret. f_equal.
  rewrite !Z.shiftr_div_pow2 by lia. unwrap. zlia.
Qed.

Lemma Uint32_bytes v tl vm :
  LittleEndian.Uint32 (LittleEndian.bytes 4 v ++ tl) vm = Ok (uint32 v) vm.
Proof.
  unfold LittleEndian.bytes. cbn [app]. unfold LittleEndian.Uint32, ret. f_equal.
  rewrite !Z.shiftr_div_pow2 by lia. unwrap. zlia.
Qed.

Lemma Uint64_bytes v tl vm :
  LittleEndian.Uint64 (LittleEndian.bytes 8 v ++ tl) vm = Ok (uint64 v) vm.
Proof.
  unfold LittleEndian.bytes. cbn [app]. unfold LittleEndian.Uint64, ret. f_equal.
  rewrite !Z.shiftr_div_pow2 by lia. unwrap. zlia.
Qed.

Lemma bytes_one v : LittleEndian.bytes 1 v = [uint8 v].
Proof. reflexivity. Qed.

Lemma wrapU8_wrapU w v : 8 <= w -> wrapU 8 (wrapU w v) = wrapU 8 v.
Proof. exact (uint8_wrapU w v). Qed.

Lemma store_run o vm imm v base rest :
  isStore o = true ->
  sinkReady vm ->
  codeUint32 (code (ctx vm)) (pc (ctx vm)) = Some imm ->
  stack (ctx vm) = v :: base :: rest ->
  effectiveAddr imm base + width o <= len (memory vm) ->
  exists c s,
    handler o vm =
    Ok tt (logState c s 5
             (set_memory (set_stack (set_pc vm (pc (ctx vm) + 4)) rest)
                (splice (memory vm) (effectiveAddr imm base)
                   (LittleEndian.bytes (Z.to_nat (width o)) v)))).
Proof.
  intros Hst Hr Hc Hs Hin.
  pose proof (effectiveAddr_range imm base) as Ha.
  change (2 ^ 32) with 4294967296 in Ha.
  open_machine vm.
  destruct o; try discriminate Hst; cbn [width handler] in *;
    autounfold with handlers stackops;
    eexists _, _;
    (etransitivity; [repeat (mem_step Hr) |]);
    (apply f_equal; apply f_equal);
    change (Z.to_nat 1) with 1%nat; change (Z.to_nat 2) with 2%nat;
    change (Z.to_nat 4) with 4%nat; change (Z.to_nat 8) with 8%nat;
    rewrite ?bytes_one;
    unfold Float32bits, Float64bits, Float32frombits, Float64frombits,
           uint8, uint16, uint32, uint64;
    rewrite ?wrapU8_wrapU by lia;
    rewrite ?bytes_wrapU by (cbn; lia);
    reflexivity.
Qed.

Lemma skipn_bytes_len {A} (l bs tl : list A) n :
  0 <= n -> skipn (Z.to_nat n) l = bs ++ tl -> 0 < len bs -> n + len bs <= len l.
Proof.
  intros Hn E Hbs. apply (f_equal (@List.length A)) in E.
  rewrite length_skipn, length_app in E. unfold len in *. lia.
Qed.

Lemma skipn_head {A} (l tl : list A) n x :
  skipn n l = x :: tl -> nth_error l n = Some x.
Proof.
  intros E. rewrite <- (Nat.add_0_r n), <- nth_error_skipn, E. reflexivity.
Qed.

Lemma load_run o vm imm v base rest tl :
  isStore o = false ->
  sinkReady vm ->
  codeUint32 (code (ctx vm)) (pc (ctx vm)) = Some imm ->
  stack (ctx vm) = base :: rest ->
  skipn (Z.to_nat (effectiveAddr imm base)) (memory vm) =
    LittleEndian.bytes (Z.to_nat (width o)) v ++ tl ->
  exists c s,
    handler o vm =
    Ok tt (logState c s 5
             (set_stack (set_pc vm (pc (ctx vm) + 4)) (loaded o v :: rest))).
Proof.
  intros Hst Hr Hc Hs Hm.
  pose proof (effectiveAddr_range imm base) as Ha.
  change (2 ^ 32) with 4294967296 in Ha.
  assert (Hin : effectiveAddr imm base + width o <= len (memory vm)).
  { pose proof (skipn_bytes_len _ _ _ _ (proj1 Ha) Hm) as Hl.
    rewrite len_bytes in Hl. destruct o; cbn [width] in *; lia. }
  open_machine vm.
  assert (Hx : forall vm, indexAt mem (effectiveAddr imm base) vm =
                          Ok (uint8 v) vm \/ width o <> 1).
  { intros vm. destruct (Z.eq_dec (width o) 1) as [E | E]; [left | right; exact E].
    rewrite E in Hm. apply indexAt_run; [lia |].
    eapply skipn_head. exact Hm. }
  destruct o; try discriminate Hst; cbn [width handler] in *;
    change (Z.to_nat 1) with 1%nat in *; change (Z.to_nat 2) with 2%nat in *;
    change (Z.to_nat 4) with 4%nat in *; change (Z.to_nat 8) with 8%nat in *;
    lazymatch type of Hm with
    | _ = LittleEndian.bytes 1 _ ++ _ =>
        assert (Hx' : forall vm, indexAt mem (effectiveAddr imm base) vm = Ok (uint8 v) vm)
          by (intros vm; destruct (Hx vm) as [E | E];
              [exact E | exfalso; apply E; reflexivity])
    | _ = LittleEndian.bytes 2 _ ++ _ =>
        assert (Hv : forall vm,
                   LittleEndian.Uint16 (skipn (Z.to_nat (effectiveAddr imm base)) mem) vm
                   = Ok (uint16 v) vm)
          by (intros vm; rewrite Hm; apply Uint16_bytes)
    | _ = LittleEndian.bytes 4 _ ++ _ =>
        assert (Hv : forall vm,
                   LittleEndian.Uint32 (skipn (Z.to_nat (effectiveAddr imm base)) mem) vm
                   = Ok (uint32 v) vm)
          by (intros vm; rewrite Hm; apply Uint32_bytes)
    | _ = LittleEndian.bytes 8 _ ++ _ =>
        assert (Hv : forall vm,
                   LittleEndian.Uint64 (skipn (Z.to_nat (effectiveAddr imm base)) mem) vm
                   = Ok (uint64 v) vm)
          by (intros vm; rewrite Hm; apply Uint64_bytes)
    end;
    clear Hx;
    autounfold with handlers stackops;
    eexists _, _;
    (etransitivity; [repeat (mem_step Hr) |]);
    (apply f_equal; apply f_equal);
    cbn [loaded];
    lazymatch goal with
    | |- set_stack _ (?a :: _) = set_stack ?X (?b :: ?r) =>
        transitivity (set_stack X (a :: r)); [reflexivity |];
        apply (f_equal (fun z => set_stack X (z :: r)))
    end;
    unfold Float32bits, Float64bits, Float32frombits, Float64frombits;
    clear; unwrap; zlia.
Qed.

Lemma nth_error_bytes n v k :
  0 <= k < Z.of_nat n ->
  nth_error (LittleEndian.bytes n v) (Z.to_nat k) = Some (Z.land (Z.shiftr v (8 * k)) 255).
Proof.
  revert v k. induction n as [| n IH]; intros v k Hk; [lia |].
  rewrite bytes_S.
  destruct (Z.eq_dec k 0) as [-> | Hne].
  - cbn [Z.to_nat nth_error]. rewrite Z.mul_0_r, Z.shiftr_0_r.
    unfold uint8, wrapU. change 255 with (Z.ones 8).
    rewrite Z.land_ones by lia. reflexivity.
  - replace (Z.to_nat k) with (S (Z.to_nat (k - 1))) by lia.
    cbn [nth_error]. rewrite IH by lia.
    rewrite Z.shiftr_shiftr by lia. do 3 f_equal. lia.
Qed.

Lemma allBytes_firstn n s : allBytes s -> allBytes (firstn n s).
Proof.
  unfold allBytes. intros Hs. revert n.
  induction Hs as [| x l Hx Hl IH]; intros [| n]; cbn [firstn]; constructor;
    [exact Hx | apply IH].
Qed.

Lemma allBytes_skipn n s : allBytes s -> allBytes (skipn n s).
Proof.
  unfold allBytes. intros Hs. revert n.
  induction Hs as [| x l Hx Hl IH]; intros [| n]; cbn [skipn];
    [constructor | constructor | constructor; assumption | apply IH].
Qed.

Lemma allBytes_splice s i bs :
  allBytes s -> allBytes bs -> allBytes (splice s i bs).
Proof.
  unfold splice. intros Hs Hb.
  apply Forall_app. split; [apply allBytes_firstn; exact Hs |].
  apply Forall_app. split; [exact Hb | apply allBytes_skipn; exact Hs].
Qed.

(** X14.  A store in bounds writes the [width] low bytes of the popped
    value, least significant first, at the effective address, and nothing
    else: byte [k] of the range becomes bits [8k .. 8k+7] of the value, every
    byte outside the range is as before, and a memory of bytes stays one
    whatever the upper bits of the operand slot hold. *)
Theorem store_writes_low_bytes o vm imm v base rest :
  isStore o = true ->
  sinkReady vm ->
  codeUint32 (code (ctx vm)) (pc (ctx vm)) = Some imm ->
  stack (ctx vm) = v :: base :: rest ->
  effectiveAddr imm base + width o <= len (memory vm) ->
  exists vm',
    handler o vm = Ok tt vm' /\
    stack (ctx vm') = rest /\
    (forall k, 0 <= k < width o ->
       nth_error (memory vm') (Z.to_nat (effectiveAddr imm base + k)) =
       Some (Z.land (Z.shiftr v (8 * k)) 255)) /\
    (forall j, 0 <= j -> j < effectiveAddr imm base \/ effectiveAddr imm base + width o <= j ->
       nth_error (memory vm') (Z.to_nat j) = nth_error (memory vm) (Z.to_nat j)) /\
    (allBytes (memory vm) -> allBytes (memory vm')).
Proof.
  intros Hst Hr Hc Hs Hin.
  pose proof (effectiveAddr_range imm base) as Ha.
  assert (Hw : 0 < width o) by (destruct o; cbn; lia).
  destruct (store_run o vm imm v base rest Hst Hr Hc Hs Hin) as (c & s & E).
  eexists. split; [exact E |].
  rewrite logState_ctx, logState_memory. cbn [ctx stack set_stack set_ctx memory set_memory set_pc].
  assert (Hl : len (LittleEndian.bytes (Z.to_nat (width o)) v) = width o)
    by (rewrite len_bytes; lia).
  split; [reflexivity |]. split; [| split].
  - intros k Hk.
    rewrite nth_error_splice_in by (rewrite ?Hl; lia).
    apply nth_error_bytes. lia.
  - intros j Hj Hout. apply nth_error_splice_out; rewrite ?Hl; lia.
  - intros Hb. apply allBytes_splice; [exact Hb | apply bytes_allBytes].
Qed.

(** [i32.store16] of 0x12345678 at address 1 of a 4-byte memory. *)
Lemma store_writes_low_bytes_witness :
  exists vm',
    i32Store16 (machine [0x12345678; 1] [0; 0; 0; 0] [9; 9; 9; 9]) = Ok tt vm' /\
    nth_error (memory vm') 1 = Some 0x78 /\
    nth_error (memory vm') 2 = Some 0x56 /\
    nth_error (memory vm') 3 = Some 9.
Proof.
  destruct (store_writes_low_bytes I32Store16
              (machine [0x12345678; 1] [0; 0; 0; 0] [9; 9; 9; 9]) 0 0x12345678 1 [])
    as (vm' & E & _ & Hin & Hout & _);
    [reflexivity | exact I | reflexivity | reflexivity | vm_compute; discriminate |].
  exists vm'. split; [exact E |]. split; [| split].
  - apply (Hin 0). split; [discriminate | reflexivity].
  - apply (Hin 1). split; [discriminate | reflexivity].
  - refine (Hout 3 _ _); [discriminate | right; vm_compute; discriminate].
Defined.

(** X15.  What a store wrote, a load of the same width reads back.  For
    every store and every load of the same width at the same effective
    address, the load pushes the stored value cut to the width: zero-extended
    by the unsigned and float loads, sign-extended to all 64 bits of the slot
    by the signed ones. *)
Theorem store_load_round_trip st ld vm imm v base rest q imm2 base2 rest2 :
  isStore st = true -> isStore ld = false -> width ld = width st ->
  sinkReady vm ->
  codeUint32 (code (ctx vm)) (pc (ctx vm)) = Some imm ->
  stack (ctx vm) = v :: base :: rest ->
  effectiveAddr imm base + width st <= len (memory vm) ->
  codeUint32 (code (ctx vm)) q = Some imm2 ->
  effectiveAddr imm2 base2 = effectiveAddr imm base ->
  exists vm1 vm2,
    handler st vm = Ok tt vm1 /\
    handler ld (set_stack (set_pc vm1 q) (base2 :: rest2)) = Ok tt vm2 /\
    stack (ctx vm2) = loaded ld v :: rest2 /\
    memory vm2 = memory vm1.
Proof.
  intros Hst Hld Hw Hr Hc Hs Hin Hq Haddr.
  pose proof (effectiveAddr_range imm base) as Ha.
  assert (Hw0 : 0 < width st) by (destruct st; cbn; lia).
  destruct (store_run st vm imm v base rest Hst Hr Hc Hs Hin) as (c & s & E).
  assert (Hl : len (LittleEndian.bytes (Z.to_nat (width st)) v) = width st)
    by (rewrite len_bytes; lia).
  edestruct (load_run ld
               (set_stack (set_pc (logState c s 5
                  (set_memory (set_stack (set_pc vm (pc (ctx vm) + 4)) rest)
                     (splice (memory vm) (effectiveAddr imm base)
                        (LittleEndian.bytes (Z.to_nat (width st)) v)))) q)
                  (base2 :: rest2))
               imm2 v base2 rest2) as (c2 & s2 & E2).
  - exact Hld.
  - ready.
  - cbn. rewrite logState_ctx. cbn. exact Hq.
  - reflexivity.
  - cbn [memory set_stack set_pc set_ctx]. rewrite logState_memory.
    cbn [memory set_memory]. rewrite Haddr, Hw.
    apply skipn_splice; rewrite ?Hl; lia.
  - eexists. eexists. split; [exact E |]. split; [exact E2 |].
    rewrite logState_ctx, !logState_memory. cbn. rewrite logState_memory.
    split; reflexivity.
Qed.

(** [i32.store8] of 0x1FF at address 2, then [i32.load8_s] there: the slot is
    -1 as a 64-bit number. *)
Lemma store_load_round_trip_witness :
  exists vm1 vm2,
    i32Store8 (machine [0x1FF; 2] [0; 0; 0; 0; 0x2C; 0; 0; 0; 0] [9; 9; 9; 9]) = Ok tt vm1 /\
    i32Load8s (set_stack (set_pc vm1 5) [2]) = Ok tt vm2 /\
    stack (ctx vm2) = [0xFFFFFFFFFFFFFFFF].
Proof.
  destruct (store_load_round_trip I32Store8 I32Load8s
              (machine [0x1FF; 2] [0; 0; 0; 0; 0x2C; 0; 0; 0; 0] [9; 9; 9; 9])
              0 0x1FF 2 [] 5 0 2 [])
    as (vm1 & vm2 & E1 & E2 & Hs & _);
    [reflexivity | reflexivity | reflexivity | exact I | reflexivity | reflexivity
    | vm_compute; discriminate | reflexivity | reflexivity |].
  exists vm1, vm2. split; [exact E1 |]. split; [exact E2 | exact Hs].
Defined.

(** ** Integer operators *)

#[local] Hint Unfold
  i64Clz i64Ctz i64Popcnt i64Add i64Sub i64Mul i64And i64Or i64Xor i64Rotl i64Rotr
  i64Eq i64Eqz i64Ne i64LtS i64LtU i64GtS i64GtU i64LeU i64LeS i64GeS i64GeU
  f64Abs f64Neg f64Ceil f64Floor f64Trunc f64Nearest f64Sqrt
  f64Add f64Sub f64Mul f64Div f64Min f64Max f64Copysign
  f64Eq f64Ne f64Lt f64Gt f64Le f64Ge f64ConvertSI64 f64ConvertUI64
  : handlers.

Lemma quot_range64 a b :
  - 2 ^ 63 <= a < 2 ^ 63 -> - 2 ^ 63 <= b < 2 ^ 63 -> b <> 0 ->
  ~ (a = INT64_MIN /\ b = -1) -> - 2 ^ 63 <= Z.quot a b < 2 ^ 63.
Proof.
  unfold INT64_MIN. change (2 ^ 63) with 9223372036854775808.
  intros Ha Hb Hb0 Hov.
  Z.quot_rem_to_equations. nia.
Qed.

Lemma rem_range64 a b :
  - 2 ^ 63 <= a < 2 ^ 63 -> - 2 ^ 63 <= b < 2 ^ 63 -> b <> 0 ->
  - 2 ^ 63 <= Z.rem a b < 2 ^ 63.
Proof.
  change (2 ^ 63) with 9223372036854775808.
  intros Ha Hb Hb0.
  Z.quot_rem_to_equations. nia.
Qed.

(** X16.  The signed 64-bit division and remainder.  For [a] and [b] in
    the [int64] range with [b <> 0], [i64.div_s] pushes the truncating
    quotient [a ÷ b] (wrapped to 64 bits, which changes it only for
    [INT64_MIN ÷ -1]) and [i64.rem_s] pushes the remainder with the sign of
    the dividend, [a - (a ÷ b) * b]; the remainder of [INT64_MIN] by [-1] is
    0.  Neither handler logs anything. *)
Theorem i64_div_rem_signed vm sa sb rest a b :
  stack (ctx vm) = sb :: sa :: rest ->
  int64 sa = a -> int64 sb = b -> b <> 0 ->
  i64DivS vm = Ok tt (set_stack vm (uint64 (int64 (Z.quot a b)) :: rest)) /\
  i64RemS vm = Ok tt (set_stack vm (uint64 (a - Z.quot a b * b) :: rest)) /\
  (~ (a = INT64_MIN /\ b = -1) -> int64 (Z.quot a b) = Z.quot a b) /\
  - 2 ^ 63 <= a - Z.quot a b * b < 2 ^ 63 /\
  Z.abs (a - Z.quot a b * b) < Z.abs b /\
  0 <= a * (a - Z.quot a b * b).
Proof.
  intros Hs Ha Hb Hb0. subst a b.
  pose proof (int64_range sa) as Ra. pose proof (int64_range sb) as Rb.
  assert (Hrem : Z.rem (int64 sa) (int64 sb) =
                 int64 sa - Z.quot (int64 sa) (int64 sb) * int64 sb).
  { pose proof (Z.quot_rem' (int64 sa) (int64 sb)). lia. }
  pose proof (rem_range64 _ _ Ra Rb Hb0) as Hm.
  open_machine vm.
  split; [| split; [| split; [| split; [| split]]]].
  - autounfold with handlers stackops. cbn.
    unfold quo. destruct (Z.eqb_spec (int64 sb) 0) as [| _]; [contradiction |].
    reflexivity.
  - autounfold with handlers stackops. cbn.
    unfold rem. destruct (Z.eqb_spec (int64 sb) 0) as [| _]; [contradiction |].
    cbn. rewrite int64_small by exact Hm. rewrite Hrem. reflexivity.
  - intros Hov. apply int64_small. apply quot_range64; assumption.
  - rewrite <- Hrem. exact Hm.
  - rewrite <- Hrem. apply Z.rem_bound_abs; exact Hb0.
  - rewrite <- Hrem, Z.mul_comm. apply Z.rem_sign_mul; exact Hb0.
Qed.

(** [-7 ÷ 2] and [-7 rem 2] on 64-bit slots. *)
Lemma i64_div_rem_signed_witness :
  i64DivS (machine [2; 0xFFFFFFFFFFFFFFF9] [] []) =
    Ok tt (machine [0xFFFFFFFFFFFFFFFD] [] []) /\
  i64RemS (machine [2; 0xFFFFFFFFFFFFFFF9] [] []) =
    Ok tt (machine [0xFFFFFFFFFFFFFFFF] [] []).
Proof.
  destruct (i64_div_rem_signed (machine [2; 0xFFFFFFFFFFFFFFF9] [] [])
              0xFFFFFFFFFFFFFFF9 2 [] (-7) 2)
    as (Ed & Er & _); [reflexivity | reflexivity | reflexivity | discriminate |].
  split; [exact Ed | exact Er].
Defined.

(** X17.  The unsigned divisions and remainders.  With a divisor that is
    not zero, [div_u] pushes the floor quotient and [rem_u] the remainder of
    the operands read as unsigned numbers (their low 32 bits for the i32
    handlers): the two results [q] and [r] satisfy [a = q * b + r] and
    [0 <= r < b]. *)
Theorem unsigned_div_rem vm sa sb rest :
  sinkReady vm ->
  stack (ctx vm) = sb :: sa :: rest ->
  (uint32 sb <> 0 ->
   exists q r,
     i32DivU vm = Ok tt (logState 0x6E "i32 Divide unsigned" 6
                           (set_stack vm (q :: rest))) /\
     i32RemU vm = Ok tt (logState 0x70 "i32 Remainder unsigned" 6
                           (set_stack vm (r :: rest))) /\
     uint32 sa = q * uint32 sb + r /\ 0 <= r < uint32 sb /\ 0 <= q < 2 ^ 32) /\
  (0 <= sa < 2 ^ 64 -> 0 < sb < 2 ^ 64 ->
   exists q r,
     i64DivU vm = Ok tt (set_stack vm (q :: rest)) /\
     i64RemU vm = Ok tt (set_stack vm (r :: rest)) /\
     sa = q * sb + r /\ 0 <= r < sb /\ 0 <= q < 2 ^ 64).
Proof.
  intros Hr Hs.
  open_machine vm.
  split.
  - intros Hb0.
    pose proof (uint32_range sa) as Ra. pose proof (uint32_range sb) as Rb.
    change (2 ^ 32) with 4294967296 in *.
    exists (uint32 sa / uint32 sb), (uint32 sa mod uint32 sb).
    assert (Hq : 0 <= uint32 sa / uint32 sb < 4294967296).
    { split; [apply Z.div_pos; lia |].
      apply Z.div_lt_upper_bound; nia. }
    assert (Hm : 0 <= uint32 sa mod uint32 sb < uint32 sb)
      by (apply Z.mod_pos_bound; lia).
    split; [| split; [| split; [| split]]].
    + autounfold with handlers stackops. cbn.
      unfold quo. destruct (Z.eqb_spec (uint32 sb) 0) as [| _]; [contradiction |].
      cbn. rewrite Z.quot_div_nonneg by lia.
      rewrite uint32_small by (change (2 ^ 32) with 4294967296; lia).
      rewrite uint64_small by (change (2 ^ 64) with 18446744073709551616; lia).
      apply opLog_ready. exact Hr.
    + autounfold with handlers stackops. cbn.
      unfold rem. destruct (Z.eqb_spec (uint32 sb) 0) as [| _]; [contradiction |].
      cbn. rewrite Z.rem_mod_nonneg by lia.
      rewrite uint32_small by (change (2 ^ 32) with 4294967296; lia).
      rewrite uint64_small by (change (2 ^ 64) with 18446744073709551616; lia).
      apply opLog_ready. exact Hr.
    + rewrite Z.mul_comm. apply Z.div_mod. lia.
    + exact Hm.
    + exact Hq.
  - intros Ra Rb.
    change (2 ^ 64) with 18446744073709551616 in *.
    exists (sa / sb), (sa mod sb).
    assert (Hq : 0 <= sa / sb < 18446744073709551616).
    { split; [apply Z.div_pos; lia |].
      apply Z.div_lt_upper_bound; nia. }
    assert (Hm : 0 <= sa mod sb < sb) by (apply Z.mod_pos_bound; lia).
    split; [| split; [| split; [| split]]].
    + autounfold with handlers stackops. cbn.
      unfold quo. destruct (Z.eqb_spec sb 0) as [| _]; [lia |].
      cbn. rewrite Z.quot_div_nonneg by lia.
      rewrite uint64_small by (change (2 ^ 64) with 18446744073709551616; lia).
      reflexivity.
    + autounfold with handlers stackops. cbn.
      unfold rem. destruct (Z.eqb_spec sb 0) as [| _]; [lia |].
      cbn. rewrite Z.rem_mod_nonneg by lia.
      rewrite uint64_small by (change (2 ^ 64) with 18446744073709551616; lia).
      reflexivity.
    + rewrite Z.mul_comm. apply Z.div_mod. lia.
    + exact Hm.
    + exact Hq.
Qed.

(** 0xFFFFFFFF divided by 16 as unsigned 32-bit numbers. *)
Lemma unsigned_div_rem_witness :
  exists q r,
    i32DivU (machine [16; 0xFFFFFFFF] [] []) = Ok tt (machine [q] [] []) /\
    i32RemU (machine [16; 0xFFFFFFFF] [] []) = Ok tt (machine [r] [] []) /\
    0xFFFFFFFF = q * 16 + r /\ 0 <= r < 16.
Proof.
  destruct (unsigned_div_rem (machine [16; 0xFFFFFFFF] [] []) 0xFFFFFFFF 16 [] I eq_refl)
    as [H32 _].
  destruct (H32 ltac:(discriminate)) as (q & r & Ed & Er & He & Hr & _).
  exists q, r. split; [exact Ed |]. split; [exact Er |]. split; [exact He | exact Hr].
Defined.

Ltac in_list Hin tac :=
  repeat (destruct Hin as [<- | Hin]; [tac |]); try contradiction.

Ltac test_case Hr :=
  autounfold with handlers stackops; cbn;
  match goal with
  | |- context [pushBool ?c] =>
      destruct c; cbn;
      do 2 eexists;
      (split; [first [reflexivity | apply opLog_ready; exact Hr] |]);
      (split; cycle 1; [rewrite ?logState_ctx; reflexivity | auto])
  end.

(** X18.  Every test and every relation pushes 0 or 1 in place of its
    operands and nothing else.  A test against zero ([i32.eqz], [i64.eqz])
    completes on a stack that holds its operand and replaces that one slot;
    a relation between two values (the i32, i64, f32 and f64 comparisons)
    completes on a stack that holds its two operands and replaces those two
    slots.  The slots below are left as they were.  (The sink is absent, or
    has an open transaction on a server that accepts the log call.) *)
Theorem comparisons_push_0_or_1 `{FloatOps} `{Float64Ops} h vm :
  sinkReady vm ->
  (In h tests ->
   forall a rest, stack (ctx vm) = a :: rest ->
   exists vm' s,
     h vm = Ok tt vm' /\ (s = 0 \/ s = 1) /\ stack (ctx vm') = s :: rest) /\
  (In h relations ->
   forall a b rest, stack (ctx vm) = a :: b :: rest ->
   exists vm' s,
     h vm = Ok tt vm' /\ (s = 0 \/ s = 1) /\ stack (ctx vm') = s :: rest).
Proof.
  intros Hr. split; intros Hin.
  - intros a rest Hs. open_machine vm.
    unfold tests in Hin. cbn [In] in Hin.
    in_list Hin ltac:(test_case Hr).
  - intros a b rest Hs. open_machine vm.
    unfold relations in Hin. cbn [In] in Hin.
    in_list Hin ltac:(test_case Hr).
Qed.

(** [3 < 5] as signed 32-bit numbers: the two operands give way to one
    slot. *)
Lemma comparisons_push_0_or_1_witness :
  exists vm' s,
    i32LtS (machine [5; 3] [] []) = Ok tt vm' /\
    (s = 0 \/ s = 1) /\
    stack (ctx vm') = [s].
Proof.
  assert (Hin : In i32LtS (@relations acceptingServer firstOperand firstOperand64))
    by (simpl; do 2 right; left; reflexivity).
  exact (proj2 (@comparisons_push_0_or_1 firstOperand firstOperand64 i32LtS
                  (machine [5; 3] [] []) I) Hin 5 3 [] eq_refl).
Defined.

(** X19.  A two-operand numeric handler run on a stack of fewer than two
    slots does not trap with a value of the package: the second (or first)
    pop indexes the empty stack, a Go run-time panic, and whatever slot was
    there has been popped. *)
Theorem binary_operator_stack_underflow `{FloatOps} h vm :
  In h (binary32 ++ binary64) ->
  (List.length (stack (ctx vm)) < 2)%nat ->
  h vm = Panic RuntimeIndexOutOfRange (set_stack vm []).
Proof.
  intros Hin Hlen.
  destruct vm as [[stk lcs cd p0 cf] md gl mem fs rp ab pgp tx rn k].
  cbn [ctx stack] in Hlen.
  destruct stk as [| a [| b rest]]; [| | cbn in Hlen; lia];
    unfold binary32, binary64 in Hin; cbn [In app] in Hin;
    in_list Hin ltac:(autounfold with handlers stackops; reflexivity).
Qed.

Lemma binary_operator_stack_underflow_witness :
  i64Add (machine [7] [] []) = Panic RuntimeIndexOutOfRange (machine [] [] []).
Proof.
  assert (Hin : In i64Add (@binary32 acceptingServer firstOperand ++ binary64)).
  { apply in_or_app. right. left. reflexivity. }
  exact (@binary_operator_stack_underflow firstOperand i64Add (machine [7] [] [])
           Hin (le_n 2)).
Defined.

Ltac run_stack_in E :=
  cbn [bind gets modify ret throw popUint64 pushUint64 pushBool quo rem
       set_stack set_ctx ctx stack locals code pc curFunc module globals memory
       funcs RecoverPanic abort pg PgTx PgRunNum opNum] in E.

Ltac frame_done E vm' :=
  first [ injection E as <-
        | apply opLog_inv in E; subst vm' ];
  unfold sameFrame;
  rewrite ?logState_ctx, ?logState_memory, ?logState_globals, ?logState_abort;
  cbn [set_stack set_ctx ctx stack locals code pc curFunc module globals memory
       funcs RecoverPanic abort pg PgTx PgRunNum opNum List.length];
  repeat split; reflexivity.

Ltac frame_case E vm' :=
  autounfold with handlers stackops in E; run_stack_in E;
  try discriminate E;
  repeat match type of E with
         | context [pushBool ?c] => destruct c; run_stack_in E
         | context [quo _ ?y] => unfold quo in E; destruct (y =? 0); run_stack_in E
         | context [rem _ ?y] => unfold rem in E; destruct (y =? 0); run_stack_in E
         end;
  try discriminate E;
  frame_done E vm'.

(** X20.  The numeric handlers work on the operand stack alone, whatever
    the server answers to their log calls.  When one of them completes, the
    linear memory, the globals, the locals, the program counter, the code
    and the abort flag are as before.  A handler with one operand (the
    unary i32, i64, f32 and f64 operators, the two [eqz] and all
    conversions) leaves the stack as deep as it was; one with two operands
    (the binary i32, i64, f32 and f64 operators and the relations) leaves
    it one slot shallower. *)
Theorem numeric_handlers_touch_only_the_stack `{Server} `{Platform} `{FloatOps} `{Float64Ops} h vm vm' :
  h vm = Ok tt vm' ->
  (In h (unary32 ++ unary64 ++ conversions64 ++ unaryF64) ->
   sameFrame vm vm' /\
   List.length (stack (ctx vm')) = List.length (stack (ctx vm))) /\
  (In h (binary32 ++ binary64 ++ binaryF64) ->
   sameFrame vm vm' /\
   S (List.length (stack (ctx vm'))) = List.length (stack (ctx vm))).
Proof.
  intros E.
  destruct vm as [[stk lcs cd p0 cf] md gl mem fs rp ab pgp tx rn k].
  split; intros Hin.
  - unfold unary32, unary64, conversions64, unaryF64 in Hin; cbn [In app] in Hin.
    destruct stk as [| a rest];
      in_list Hin ltac:(frame_case E vm').
  - unfold binary32, binary64, binaryF64 in Hin; cbn [In app] in Hin.
    destruct stk as [| a [| b rest]];
      in_list Hin ltac:(frame_case E vm').
Qed.

(** [i32.wrap/i64] on a machine with a memory and a local: only the stack
    changes, and it keeps its depth. *)
Lemma numeric_handlers_touch_only_the_stack_witness :
  sameFrame (mkVM (mkContext [0x100000002; 3] [5] [0xA7] 1 0) emptyModule [] [9] []
                  false false None None 0 0)
            (mkVM (mkContext [2; 3] [5] [0xA7] 1 0) emptyModule [] [9] []
                  false false None None 0 0) /\
  List.length [2; 3] = List.length [0x100000002; 3].
Proof.
  assert (Hin : In i32Wrapi64
                  (@unary32 acceptingServer saturating firstOperand ++ unary64 ++
                   @conversions64 acceptingServer saturating firstOperand ++
                   @unaryF64 saturating firstOperand firstOperand64)).
  { apply in_or_app; right. apply in_or_app; right. apply in_or_app; left.
    left; reflexivity. }
  destruct (@numeric_handlers_touch_only_the_stack
              acceptingServer saturating firstOperand firstOperand64 i32Wrapi64
              (mkVM (mkContext [0x100000002; 3] [5] [0xA7] 1 0) emptyModule [] [9] []
                    false false None None 0 0)
              (mkVM (mkContext [2; 3] [5] [0xA7] 1 0) emptyModule [] [9] []
                    false false None None 0 0) eq_refl) as [Hu _].
  exact (Hu Hin).
Defined.

(** X21.  Wrapping after extending gives the 32-bit value back: after
    [i64.extend_s/i32] or [i64.extend_u/i32], [i32.wrap/i64] leaves the low
    32 bits of the original slot, zero-extended; between the two the slot is
    the sign extension or the zero extension of those bits. *)
Theorem extend_then_wrap vm s rest :
  sinkReady vm ->
  stack (ctx vm) = s :: rest ->
  exists vs vs' vu vu',
    i64ExtendSI32 vm = Ok tt vs /\ i32Wrapi64 vs = Ok tt vs' /\
    i64ExtendUI32 vm = Ok tt vu /\ i32Wrapi64 vu = Ok tt vu' /\
    stack (ctx vs) = uint64 (int32 s) :: rest /\
    stack (ctx vu) = uint32 s :: rest /\
    stack (ctx vs') = uint32 s :: rest /\
    stack (ctx vu') = uint32 s :: rest.
Proof.
  intros Hr Hs.
  assert (Es : i64ExtendSI32 vm =
               Ok tt (logState 0xAC "i64 Extend i32 signed" 5
                        (set_stack vm (uint64 (int32 s) :: rest)))).
  { open_machine vm. autounfold with handlers stackops.
    cbn [bind gets modify ret popUint64 pushUint64 set_stack set_ctx ctx stack].
    replace (uint64 (int64 (int32 (uint32 s)))) with (uint64 (int32 s))
      by (clear; unwrap; zlia).
    apply opLog_ready. exact Hr. }
  assert (Eu : i64ExtendUI32 vm =
               Ok tt (logState 0xAD "i64 Extend i32 Unsigned" 5
                        (set_stack vm (uint32 s :: rest)))).
  { open_machine vm. autounfold with handlers stackops.
    cbn [bind gets modify ret popUint64 pushUint64 set_stack set_ctx ctx stack].
    replace (uint64 (uint32 s)) with (uint32 s) by (clear; unwrap; zlia).
    apply opLog_ready. exact Hr. }
  assert (Ew : forall vm1 x,
             sinkReady vm1 -> stack (ctx vm1) = x :: rest ->
             i32Wrapi64 vm1 =
             Ok tt (logState 0xA7 "i32 Wrap i64" 5 (set_stack vm1 (uint32 x :: rest)))).
  { intros vm1 x Hr1 Hs1. clear Es Eu Hr Hs. open_machine vm1.
    autounfold with handlers stackops.
    cbn [bind gets modify ret popUint64 pushUint64 set_stack set_ctx ctx stack].
    replace (uint64 (uint32 x)) with (uint32 x) by (clear; unwrap; zlia).
    apply opLog_ready. exact Hr1. }
  do 4 eexists.
  split; [exact Es |]. split; [apply Ew; [ready | rewrite logState_ctx; reflexivity] |].
  split; [exact Eu |]. split; [apply Ew; [ready | rewrite logState_ctx; reflexivity] |].
  rewrite !logState_ctx. cbn [set_stack set_ctx ctx stack].
  split; [reflexivity |]. split; [reflexivity |].
  split; f_equal; clear; unwrap; zlia.
Qed.

(** The slot 0xFFFFFFFF ([-1] as an i32) through both extensions. *)
Lemma extend_then_wrap_witness :
  exists vs vs' vu vu',
    i64ExtendSI32 (machine [0xFFFFFFFF] [] []) = Ok tt vs /\ i32Wrapi64 vs = Ok tt vs' /\
    i64ExtendUI32 (machine [0xFFFFFFFF] [] []) = Ok tt vu /\ i32Wrapi64 vu = Ok tt vu' /\
    stack (ctx vs) = [0xFFFFFFFFFFFFFFFF] /\
    stack (ctx vu) = [0xFFFFFFFF] /\
    stack (ctx vs') = [0xFFFFFFFF] /\
    stack (ctx vu') = [0xFFFFFFFF].
Proof.
  exact (extend_then_wrap (machine [0xFFFFFFFF] [] []) 0xFFFFFFFF [] I eq_refl).
Defined.

(** ** [select] *)

(** X22.  [select] pops the condition, then the second and the first
    value, and pushes the first value when the low 32 bits of the condition
    are not zero, the second otherwise.  Its [opLog] call passes nine
    fields, one more than [opLog] has a case for, so a [select] never leaves
    a row, and it completes whatever the state of the sink is. *)
Theorem selectOp_picks_and_is_not_logged vm c val2 val1 rest :
  stack (ctx vm) = c :: val2 :: val1 :: rest ->
  selectOp vm =
    Ok tt (set_stack vm ((if uint32 c =? 0 then val2 else val1) :: rest)) /\
  rows (set_stack vm ((if uint32 c =? 0 then val2 else val1) :: rest)) = rows vm /\
  opNum (set_stack vm ((if uint32 c =? 0 then val2 else val1) :: rest)) = opNum vm.
Proof.
  intros Hs. open_machine vm.
  split; [| split; reflexivity].
  unfold selectOp, popUint32.
  cbn [bind gets modify ret popUint64 pushUint64 set_stack set_ctx ctx stack].
  unfold opLog. cbn [pg].
  destruct (uint32 c =? 0); cbn [negb]; destruct pgp; reflexivity.
Qed.

(** A sink without an open transaction, on which every logged handler
    panics, does not stop [select]. *)
Lemma selectOp_picks_and_is_not_logged_witness :
  selectOp (mkVM (mkContext [0; 20; 10] [] [] 0 0) emptyModule [] [] []
                 false false (Some []) None 0 0) =
  Ok tt (mkVM (mkContext [20] [] [] 0 0) emptyModule [] [] []
              false false (Some []) None 0 0).
Proof.
  exact (proj1 (selectOp_picks_and_is_not_logged
                  (mkVM (mkContext [0; 20; 10] [] [] 0 0) emptyModule [] [] []
                        false false (Some []) None 0 0) 0 20 10 [] eq_refl)).
Defined.

(** ** The log *)

Lemma opLog_sends `{Server} c s n vm u vm' pool tx :
  opLog c s n vm = Ok u vm' -> pg vm = Some pool -> PgTx vm = Some tx -> n <= 8 ->
  exists ok : bool,
    opNum vm' = (if ok then opNum vm + 1 else opNum vm) /\
    ((pg vm' = Some pool /\
      PgTx vm' = Some (tx ++ [(Insert (mkRow (opNum vm) (PgRunNum vm) c s) n, ok)])) \/
     (ok = true /\ Z.rem (opNum vm) 10000 = 0 /\
      pg vm' = Some (pool ++ [tx ++ [(Insert (mkRow (opNum vm) (PgRunNum vm) c s) n, true);
                                     (CommitTx, true)]]) /\
      PgTx vm' = Some [])).
Proof.
  unfold opLog. intros E Hpg Htx Hn. rewrite Hpg, Htx in E.
  destruct (Z.ltb_spec 8 n) as [| _]; [lia |].
  cbv zeta in E.
  destruct (execOk _ _ _).
  - exists true.
    destruct (Z.eqb_spec (Z.rem (opNum vm) 10000) 0) as [Hz | Hz].
    + destruct (commitOk _); [| discriminate E].
      destruct (beginOk _); [| discriminate E].
      injection E as _ <-. cbn [pg PgTx opNum set_log].
      split; [reflexivity |]. right. rewrite <- app_assoc. auto.
    + injection E as _ <-. cbn [pg PgTx opNum set_log].
      split; [reflexivity |]. left. auto.
  - exists false. injection E as _ <-. cbn [pg PgTx opNum set_log].
    split; [reflexivity |]. left. auto.
Qed.

Ltac run_numeric E :=
  autounfold with handlers stackops in E; run_stack_in E;
  try discriminate E;
  repeat match type of E with
         | context [pushBool ?c] => destruct c; run_stack_in E
         | context [quo _ ?y] => unfold quo in E; destruct (y =? 0); run_stack_in E
         | context [rem _ ?y] => unfold rem in E; destruct (y =? 0); run_stack_in E
         end;
  try discriminate E.

Ltac sent_case E pool tx :=
  run_numeric E;
  lazymatch type of E with
  | opLog ?c ?s ?n ?v = _ =>
      let ok := fresh "ok" in
      let Hn := fresh in
      let Hc := fresh in
      destruct (opLog_sends c s n v _ _ pool tx E eq_refl eq_refl ltac:(lia))
        as (ok & Hn & Hc);
      exists (mkRow (opNum v) (PgRunNum v) c s), n, ok;
      split; [reflexivity |]; split; [reflexivity |];
      split; [exact Hn | exact Hc]
  end.

Ltac unsent_case E :=
  run_numeric E; injection E as <-; repeat split; reflexivity.

(** X24.  Which numeric operators reach the log, whatever the server
    answers.  A 32-bit integer or float operator, or a conversion, that
    completes on a machine with a pool and an open transaction has sent
    exactly one insert through the transaction, numbered with the operation
    counter; the counter has moved on by one if the server accepted the
    insert and has not moved if it refused.  (When the counter was a
    multiple of 10000 and the insert was accepted, the transaction has also
    been committed and an empty one begun.)  A 64-bit integer operator or a
    float64 operator calls [opLog] nowhere: it leaves the pool, the
    transaction and the counter as they were, whatever state the sink is
    in. *)
Theorem numeric_operators_reaching_the_log `{Server} `{Platform} `{FloatOps} `{Float64Ops} h vm vm' :
  h vm = Ok tt vm' ->
  (In h (unary32 ++ binary32 ++ conversions64) ->
   forall pool tx, pg vm = Some pool -> PgTx vm = Some tx ->
   exists r n (ok : bool),
     op_num r = opNum vm /\ run_num r = PgRunNum vm /\
     opNum vm' = (if ok then opNum vm + 1 else opNum vm) /\
     ((pg vm' = Some pool /\ PgTx vm' = Some (tx ++ [(Insert r n, ok)])) \/
      (ok = true /\ Z.rem (opNum vm) 10000 = 0 /\
       pg vm' = Some (pool ++ [tx ++ [(Insert r n, true); (CommitTx, true)]]) /\
       PgTx vm' = Some []))) /\
  (In h (unary64 ++ binary64 ++ unaryF64 ++ binaryF64) ->
   pg vm' = pg vm /\ PgTx vm' = PgTx vm /\ opNum vm' = opNum vm).
Proof.
  intros E.
  destruct vm as [[stk lcs cd p0 cf] md gl mem fs rp ab pgp tx0 rn k].
  split.
  - intros Hin pool tx Hpg Htx. cbn [pg PgTx] in Hpg, Htx. subst pgp tx0.
    unfold unary32, binary32, conversions64 in Hin; cbn [In app] in Hin.
    destruct stk as [| a [| b rest]];
      in_list Hin ltac:(sent_case E pool tx).
  - intros Hin.
    unfold unary64, binary64, unaryF64, binaryF64 in Hin; cbn [In app] in Hin.
    destruct stk as [| a [| b rest]];
      in_list Hin ltac:(unsent_case E).
Qed.

(** [i32.add] on a machine with an open transaction whose server refuses
    the insert: the insert has been sent, the counter stays at 0. *)
Lemma numeric_operators_reaching_the_log_witness :
  exists vm',
    @i32Add refusingServer (set_stack sevenVMLogged [1; 2]) = Ok tt vm' /\
    opNum vm' = 0 /\
    PgTx vm' = Some [(Insert (mkRow 0 1 0x6A "i32 Add") 6, false)] /\
    exists r n (ok : bool),
      op_num r = 0 /\ run_num r = 1 /\
      opNum vm' = (if ok then 0 + 1 else 0) /\
      ((pg vm' = Some [] /\ PgTx vm' = Some ([] ++ [(Insert r n, ok)])) \/
       (ok = true /\ Z.rem 0 10000 = 0 /\
        pg vm' = Some ([] ++ [[] ++ [(Insert r n, true); (CommitTx, true)]]) /\
        PgTx vm' = Some [])).
Proof.
  pose (vm' := set_log (set_stack sevenVMLogged [3]) (Some [])
                 (Some [(Insert (mkRow 0 1 0x6A "i32 Add") 6, false)]) 0).
  assert (E : @i32Add refusingServer (set_stack sevenVMLogged [1; 2]) = Ok tt vm')
    by (vm_compute; reflexivity).
  assert (Hin : In (@i32Add refusingServer)
                  (@unary32 refusingServer saturating firstOperand ++
                   @binary32 refusingServer firstOperand ++
                   @conversions64 refusingServer saturating firstOperand)).
  { apply in_or_app; right. apply in_or_app; left. left; reflexivity. }
  exists vm'. split; [exact E |]. split; [reflexivity |]. split; [reflexivity |].
  exact (proj1 (@numeric_operators_reaching_the_log
                  refusingServer saturating firstOperand firstOperand64
                  (@i32Add refusingServer) (set_stack sevenVMLogged [1; 2]) vm' E)
           Hin [] [] eq_refl eq_refl).
Defined.

(** ** Constants *)

Lemma skipn_nonempty_le {A} (l : list A) n x tl :
  0 <= n -> skipn (Z.to_nat n) l = x :: tl -> n <= len l.
Proof.
  intros Hn E. apply (f_equal (@List.length A)) in E.
  rewrite length_skipn in E. cbn [List.length] in E. unfold len. lia.
Qed.

Lemma fetchUint32_bytes vm v tl :
  0 <= pc (ctx vm) ->
  skipn (Z.to_nat (pc (ctx vm))) (code (ctx vm)) = LittleEndian.bytes 4 v ++ tl ->
  fetchUint32 vm = Ok (uint32 v) (set_pc vm (pc (ctx vm) + 4)).
Proof.
  intros Hp Hc.
  assert (Hle : pc (ctx vm) <= len (code (ctx vm))).
  { rewrite bytes_S in Hc. cbn [app] in Hc. eapply skipn_nonempty_le; eassumption. }
  unfold fetchUint32.
  do 2 (erewrite bind_Ok by (cbn; reflexivity); cbv beta).
  erewrite bind_Ok by (apply sliceFrom_run; lia). cbv beta.
  rewrite Hc.
  erewrite bind_Ok by (apply Uint32_bytes). cbv beta.
  reflexivity.
Qed.

Lemma fetchUint64_bytes vm v tl :
  0 <= pc (ctx vm) ->
  skipn (Z.to_nat (pc (ctx vm))) (code (ctx vm)) = LittleEndian.bytes 8 v ++ tl ->
  fetchUint64 vm = Ok (uint64 v) (set_pc vm (pc (ctx vm) + 8)).
Proof.
  intros Hp Hc.
  assert (Hle : pc (ctx vm) <= len (code (ctx vm))).
  { rewrite bytes_S in Hc. cbn [app] in Hc. eapply skipn_nonempty_le; eassumption. }
  unfold fetchUint64.
  do 2 (erewrite bind_Ok by (cbn; reflexivity); cbv beta).
  erewrite bind_Ok by (apply sliceFrom_run; lia). cbv beta.
  rewrite Hc.
  erewrite bind_Ok by (apply Uint64_bytes). cbv beta.
  reflexivity.
Qed.

(** X25.  The immediate of a constant is read least significant byte
    first, so the encoder's bytes round-trip: when the code at the program
    counter holds the 4 (8) little-endian bytes of [v], [i32.const]
    ([i64.const]) pushes [v] cut to 32 (64) bits and moves the program counter
    past them. *)
Theorem const_pushes_its_immediate vm v tl :
  sinkReady vm ->
  0 <= pc (ctx vm) ->
  (skipn (Z.to_nat (pc (ctx vm))) (code (ctx vm)) = LittleEndian.bytes 4 v ++ tl ->
   i32Const vm =
   Ok tt (logState 0x41 "i32 constant" 5
            (set_stack (set_pc vm (pc (ctx vm) + 4)) (uint32 v :: stack (ctx vm))))) /\
  (skipn (Z.to_nat (pc (ctx vm))) (code (ctx vm)) = LittleEndian.bytes 8 v ++ tl ->
   i64Const vm =
   Ok tt (logState 0x42 "i64 constant" 5
            (set_stack (set_pc vm (pc (ctx vm) + 8)) (uint64 v :: stack (ctx vm))))).
Proof.
  intros Hr Hp. split; intros Hc.
  - unfold i32Const.
    erewrite bind_Ok by (eapply fetchUint32_bytes; eassumption). cbv beta.
    unfold pushUint32.
    erewrite bind_Ok by (cbn; reflexivity). cbv beta.
    replace (uint64 (uint32 v)) with (uint32 v) by (clear; unwrap; zlia).
    apply opLog_ready. exact Hr.
  - unfold i64Const.
    erewrite bind_Ok by (eapply fetchUint64_bytes; eassumption). cbv beta.
    erewrite bind_Ok by (cbn; reflexivity). cbv beta.
    apply opLog_ready. exact Hr.
Qed.

(** [i64.const -2]: eight bytes, 0xFE first. *)
Lemma const_pushes_its_immediate_witness :
  i64Const (machine [] [0xFE; 0xFF; 0xFF; 0xFF; 0xFF; 0xFF; 0xFF; 0xFF; 0x0f] []) =
  Ok tt (set_pc (machine [0xFFFFFFFFFFFFFFFE]
                         [0xFE; 0xFF; 0xFF; 0xFF; 0xFF; 0xFF; 0xFF; 0xFF; 0x0f] []) 8).
Proof.
  exact (proj2 (const_pushes_its_immediate
                  (machine [] [0xFE; 0xFF; 0xFF; 0xFF; 0xFF; 0xFF; 0xFF; 0xFF; 0x0f] [])
                  (-2) [0x0f] I ltac:(discriminate)) eq_refl).
Defined.

(** ** Direct calls *)

Section MoreCallProperties.
Variable callFunction : function -> Z -> M unit.

(** X26.  [call] resolves the callee twice: first its name in the
    module's function index space, then the function itself in [vm.funcs].
    An index without an entry in the function index space is a Go run-time
    index panic before anything is logged; an index with an entry there but
    none in [vm.funcs] panics after the "start" row has been written; with
    both entries the callee runs on the machine that holds the start row,
    and the "end" row follows it.  This holds whatever the callee does. *)
Theorem call_resolves_the_callee_twice vm idx :
  sinkReady vm ->
  codeUint32 (code (ctx vm)) (pc (ctx vm)) = Some idx ->
  let entered := set_pc vm (pc (ctx vm) + 4) in
  let started := logState 0x10 "Call function start" 4 entered in
  (len (FunctionIndexSpace (module vm)) <= idx ->
   call callFunction vm = Panic RuntimeIndexOutOfRange entered) /\
  (idx < len (FunctionIndexSpace (module vm)) -> len (funcs vm) <= idx ->
   call callFunction vm = Panic RuntimeIndexOutOfRange started) /\
  (forall f,
     idx < len (FunctionIndexSpace (module vm)) ->
     nth_error (funcs vm) (Z.to_nat idx) = Some f ->
     call callFunction vm =
     (callFunction f (int64 idx) ;; opLog 0x10 "Call function end" 4) started).
Proof.
  intros Hr Hc entered started.
  destruct (idx_int _ _ _ Hc) as [_ H0].
  assert (Hfetch : fetchUint32 vm = Ok idx entered) by (apply fetchUint32_run; exact Hc).
  assert (Hre : sinkReady entered) by (subst entered; ready).
  assert (Hstart : opLog 0x10 "Call function start" 4 entered = Ok tt started)
    by (apply opLog_ready; exact Hre).
  assert (Hname : idx < len (FunctionIndexSpace (module vm)) ->
                  exists fn, forall vm0,
                    indexAt (FunctionIndexSpace (module vm)) idx vm0 = Ok fn vm0).
  { intros Hlt. apply indexAt_total. lia. }
  split; [| split].
  - intros Hout. unfold call.
    rewrite (bind_Ok _ _ _ _ _ Hfetch). cbv beta.
    erewrite bind_Ok by (cbn; reflexivity). cbv beta.
    erewrite bind_Panic; [reflexivity |].
    apply indexAt_out. exact Hout.
  - intros Hlt Hout. destruct (Hname Hlt) as [fn Hfn]. unfold call.
    rewrite (bind_Ok _ _ _ _ _ Hfetch). cbv beta.
    erewrite bind_Ok by (cbn; reflexivity). cbv beta.
    rewrite (bind_Ok _ _ _ _ _ (Hfn entered)). cbv beta.
    rewrite (bind_Ok _ _ _ _ _ Hstart). cbv beta.
    erewrite bind_Ok by (cbn; reflexivity). cbv beta.
    erewrite bind_Panic; [reflexivity |].
    apply indexAt_out. subst started entered. rewrite logState_funcs. exact Hout.
  - intros f Hlt Hf. destruct (Hname Hlt) as [fn Hfn]. unfold call.
    rewrite (bind_Ok _ _ _ _ _ Hfetch). cbv beta.
    erewrite bind_Ok by (cbn; reflexivity). cbv beta.
    rewrite (bind_Ok _ _ _ _ _ (Hfn entered)). cbv beta.
    rewrite (bind_Ok _ _ _ _ _ Hstart). cbv beta.
    erewrite bind_Ok by (cbn; reflexivity). cbv beta.
    erewrite bind_Ok; [reflexivity |].
    apply indexAt_run; [exact H0 |].
    subst started entered. rewrite logState_funcs. exact Hf.
Qed.

End MoreCallProperties.

(** [call 0] on [indirectVM]: function 0 is there and is entered. *)
Lemma call_resolves_the_callee_twice_witness :
  call noCall (indirectVM 0) = Ok tt (set_pc (indirectVM 0) 4).
Proof.
  destruct (call_resolves_the_callee_twice noCall (indirectVM 0) 0 I eq_refl)
    as (_ & _ & Hgo).
  exact (Hgo (goFunction sigBinary) eq_refl eq_refl).
Defined.

(** ** The dispatch loop *)

Lemma fetchInt64_bytes vm v tl :
  0 <= pc (ctx vm) ->
  skipn (Z.to_nat (pc (ctx vm))) (code (ctx vm)) = LittleEndian.bytes 8 v ++ tl ->
  fetchInt64 vm = Ok (int64 v) (set_pc vm (pc (ctx vm) + 8)).
Proof.
  intros Hp Hc. unfold fetchInt64.
  erewrite bind_Ok by (eapply fetchUint64_bytes; eassumption). cbv beta.
  unfold ret. f_equal. clear. unwrap. zlia.
Qed.

Lemma discardTop_run n vm :
  0 <= n <= len (stack (ctx vm)) -> n < 2 ^ 63 ->
  discardTop n vm = Ok tt (set_stack vm (skipn (Z.to_nat n) (stack (ctx vm)))).
Proof.
  intros Hn Hn'. unfold discardTop.
  erewrite bind_Ok by (cbn; reflexivity). cbv beta.
  rewrite int_small by lia.
  destruct (Z.ltb_spec n 0); [lia |].
  destruct (Z.ltb_spec (len (stack (ctx vm))) n); [lia |].
  reflexivity.
Qed.

Section LoopProperties.
Variable ops : ControlOps.
Variable funcTable : Z -> option (M unit).
Variable nativeCodeInvocation : Z -> M unit.

(** X27.  One step at a [JMP_NZ] (the lowered [br_if]).  The step reads
    the 8-byte target, the preserve-top flag and the 8-byte discard count,
    and pops the condition.  When the low 32 bits of the condition are zero
    the run goes on behind the 17 immediate bytes with the rest of the stack
    untouched.  Otherwise the program counter becomes the target and the
    [discard] topmost slots are cut off; with the flag set the old top is
    pushed back on what is left, so a discard count of 0 duplicates it. *)
Theorem step_at_JmpNz vm target flag discard t1 t3 cnd rest :
  sinkReady vm ->
  0 <= pc (ctx vm) ->
  nth_error (code (ctx vm)) (Z.to_nat (pc (ctx vm))) = Some (OpJmpNz ops) ->
  OpJmpNz ops <> opReturn ops -> OpJmpNz ops <> OpJmp ops -> OpJmpNz ops <> OpJmpZ ops ->
  skipn (Z.to_nat (pc (ctx vm) + 1)) (code (ctx vm)) = LittleEndian.bytes 8 target ++ t1 ->
  nth_error (code (ctx vm)) (Z.to_nat (pc (ctx vm) + 9)) = Some flag ->
  skipn (Z.to_nat (pc (ctx vm) + 10)) (code (ctx vm)) = LittleEndian.bytes 8 discard ++ t3 ->
  - 2 ^ 63 <= target < 2 ^ 63 ->
  0 <= discard <= len rest -> discard < 2 ^ 63 ->
  stack (ctx vm) = cnd :: rest ->
  (flag = 0 \/ rest <> []) ->
  step ops funcTable nativeCodeInvocation vm =
  Ok Continue
     (logState (OpJmpNz ops) "Jmp if Not Zero / branch if" 7
        (if uint32 cnd =? 0
         then set_stack (set_pc vm (pc (ctx vm) + 18)) rest
         else set_stack (set_pc vm target)
                (if int8 flag =? 0
                 then skipn (Z.to_nat discard) rest
                 else hd 0 rest :: skipn (Z.to_nat discard) rest))).
Proof.
  intros Hr Hp Hop N1 N2 N3 Ht Hf Hd Rt Rd Rd' Hs Htop.
  open_machine vm.
  unfold step.
  do 2 (erewrite bind_Ok by (cbn; reflexivity); cbv beta).
  erewrite bind_Ok by (apply indexAt_run; eassumption). cbv beta.
  erewrite bind_Ok by (cbn; reflexivity). cbv beta.
  destruct (Z.eqb_spec (OpJmpNz ops) (opReturn ops)) as [E | _]; [contradiction |].
  destruct (Z.eqb_spec (OpJmpNz ops) (OpJmp ops)) as [E | _]; [contradiction |].
  destruct (Z.eqb_spec (OpJmpNz ops) (OpJmpZ ops)) as [E | _]; [contradiction |].
  rewrite Z.eqb_refl.
  erewrite bind_Ok by (eapply fetchInt64_bytes; cbn; [lia | eassumption]). cbv beta.
  rewrite (int64_small target) by exact Rt.
  unfold fetchBool.
  erewrite bind_Ok.
  2: { erewrite bind_Ok.
       2: { apply fetchInt8_run; cbn; [lia |].
            replace (p0 + 1 + 8) with (p0 + 9) by lia. exact Hf. }
       reflexivity. }
  cbv beta.
  erewrite bind_Ok.
  2: { eapply fetchInt64_bytes; cbn; [lia |].
       replace (p0 + 1 + 8 + 1) with (p0 + 10) by lia. exact Hd. }
  cbv beta.
  rewrite (int64_small discard) by lia.
  unfold popUint32.
  erewrite bind_Ok by (cbn; reflexivity). cbv beta.
  replace (p0 + 1 + 8 + 1 + 8) with (p0 + 18) by lia.
  destruct (Z.eqb_spec (uint32 cnd) 0) as [Ez | Ez]; cbn [negb].
  - erewrite bind_Ok by (cbn; reflexivity). cbv beta.
    erewrite bind_Ok by (apply opLog_ready; exact Hr). reflexivity.
  - destruct (Z.eqb_spec (int8 flag) 0) as [Ef | Ef]; cbn [negb].
    + erewrite bind_Ok.
      2: { erewrite bind_Ok by (cbn; reflexivity). cbv beta.
           unfold discardPreserving.
           erewrite bind_Ok by (cbn; reflexivity). cbv beta.
           erewrite bind_Ok by (apply discardTop_run; cbn; assumption). cbv beta.
           reflexivity. }
      cbv beta.
      erewrite bind_Ok by (apply opLog_ready; exact Hr). reflexivity.
    + destruct rest as [| top below].
      { destruct Htop as [-> | Hne]; [| contradiction].
        exfalso. apply Ef. reflexivity. }
      erewrite bind_Ok.
      2: { erewrite bind_Ok by (cbn; reflexivity). cbv beta.
           unfold discardPreserving.
           erewrite bind_Ok by (cbn; reflexivity). cbv beta.
           erewrite bind_Ok by (apply discardTop_run; cbn; assumption). cbv beta.
           unfold pushUint64, modify. reflexivity. }
      cbv beta.
      erewrite bind_Ok by (apply opLog_ready; exact Hr). reflexivity.
Qed.

End LoopProperties.

(** A taken [br_if] with the preserve-top flag and a discard count of 2. *)
Lemma step_at_JmpNz_witness :
  step wagonOps exampleTable noNative
       (machine [1; 7; 8; 9]
                [0x0d; 40; 0; 0; 0; 0; 0; 0; 0; 1; 2; 0; 0; 0; 0; 0; 0; 0] []) =
  Ok Continue
     (set_pc (machine [7; 9]
                [0x0d; 40; 0; 0; 0; 0; 0; 0; 0; 1; 2; 0; 0; 0; 0; 0; 0; 0] []) 40).
Proof.
  apply (step_at_JmpNz wagonOps exampleTable noNative
           (machine [1; 7; 8; 9]
                    [0x0d; 40; 0; 0; 0; 0; 0; 0; 0; 1; 2; 0; 0; 0; 0; 0; 0; 0] [])
           40 1 2 [1; 2; 0; 0; 0; 0; 0; 0; 0] [] 1 [7; 8; 9]);
    try reflexivity; try discriminate; try exact I.
  all: try (right; discriminate).
  all: try (vm_compute; split; [discriminate | reflexivity]).
  all: vm_compute; split; discriminate.
Defined.

(** ** The result of [ExecCode] *)

Section ResultProperties.
Context `{Server}.
Variable ops : ControlOps.
Variable funcTable : Z -> option (M unit).
Variable nativeCodeInvocation : Z -> M unit.
Variable GetFunction : Module -> Z -> option Function.

(** X28.  What [ExecCode] makes of the value [execCode] hands back.  The
    function runs on a fresh frame: empty stack, the arguments followed by
    zeroed locals, program counter 0.  Its result is converted by the
    declared result type: an i32 or f32 result is the low 32 bits of the top
    slot (so the sign extension a signed handler left in the upper half does
    not reach the caller), an i64 or f64 result the whole slot.  The
    deferred function then commits the open transaction.  If the server
    accepts the commit, [ExecCode] returns the converted value and no error;
    if it refuses, the deferred function panics with the server's error:
    the panic leaves [ExecCode], or, with [RecoverPanic] set, the call
    returns the converted value together with that error.  With any other
    result type [ExecCode] returns [InvalidReturnTypeError] before the
    commit is set up. *)
Theorem ExecCode_converts_by_result_type fuel fnIndex args vm fn c res vm1 t tx :
  0 <= fnIndex < len (funcs vm) -> fnIndex < 2 ^ 63 ->
  GetFunction (module vm) fnIndex = Some fn ->
  len (ParamTypes (Sig fn)) = len args ->
  nth_error (funcs vm) (Z.to_nat fnIndex) = Some (compiled c) ->
  len args <= totalLocalVars c ->
  returns c = true ->
  nth_error (ReturnTypes (Sig fn)) 0 = Some t ->
  execCode ops funcTable nativeCodeInvocation fuel c
    (set_ctx vm (mkContext [] (args ++ repeat 0 (Z.to_nat (totalLocalVars c - len args)))
                           (cf_code c) 0 fnIndex)) = Ok res vm1 ->
  PgTx vm1 = Some tx ->
  ExecCode ops funcTable nativeCodeInvocation GetFunction fuel fnIndex args vm =
  let finish (v : value) :=
    if commitOk tx then
      Returned (Some v) None
        (set_log vm1 (option_map (fun pool => pool ++ [tx ++ [(CommitTx, true)]]) (pg vm1))
                 (Some (tx ++ [(CommitTx, true)])) (opNum vm1))
    else
      recovered (RecoverPanic vm) (Some v) DatabaseError
        (set_log vm1 (pg vm1) (Some (tx ++ [(CommitTx, false)])) (opNum vm1)) in
  match t with
  | ValueTypeI32 => finish (U32 (uint32 res))
  | ValueTypeI64 => finish (U64 (uint64 res))
  | ValueTypeF32 => finish (F32 (uint32 res))
  | ValueTypeF64 => finish (F64 res)
  | ValueTypeOther _ => Returned None (Some (InvalidReturnTypeError t)) vm1
  end.
Proof.
  intros Hi Hi' Hfn Hn Hf Hargs Hret Ht Hrun Htx.
  unfold ExecCode.
  rewrite (execBody_enters ops funcTable nativeCodeInvocation GetFunction
             fuel fnIndex args vm fn c) by assumption.
  rewrite (bind_Ok _ _ _ _ _ Hrun). cbv beta. rewrite Hret.
  erewrite bind_Ok by (apply indexAt_run; [lia | exact Ht]). cbv beta zeta.
  destruct t; cbn [ret]; unfold ret; try reflexivity;
    unfold Commit; rewrite Htx; destruct (commitOk tx); reflexivity.
Qed.

End ResultProperties.

(** [seven] on a machine with an open transaction whose server refuses
    every request: the inserts are refused and printed, the function runs to
    its end, and the refused commit takes the result away. *)
Lemma ExecCode_converts_by_result_type_witness :
  exists vm',
    @ExecCode refusingServer wagonOps (@exampleTable refusingServer) noNative
              lookupFunction 10 0 [] sevenVMLogged =
    Unwound DatabaseError vm'.
Proof.
  eexists.
  refine (@ExecCode_converts_by_result_type refusingServer
            wagonOps (@exampleTable refusingServer) noNative lookupFunction
            10 0 [] sevenVMLogged (mkFunction sevenSig false "seven") seven 7 _
            ValueTypeI32 _ _ _ eq_refl eq_refl eq_refl _ eq_refl eq_refl _ _).
  - split; [discriminate | reflexivity].
  - reflexivity.
  - discriminate.
  - vm_compute. reflexivity.
  - vm_compute. reflexivity.
Defined.

(** ** Rotations *)

Lemma land31 y : 0 <= y -> Z.land y 31 = y mod 32.
Proof.
  intros Hy. change 31 with (Z.ones 5). rewrite Z.land_ones by lia. reflexivity.
Qed.

Lemma rotl_count v : Z.land (uint64 (int (uint32 v))) 31 = uint32 v mod 32.
Proof.
  rewrite land31 by apply uint64_range. unwrap. zlia.
Qed.

Lemma rotr_count v : Z.land (uint64 (int (- int (uint32 v)))) 31 = (- uint32 v) mod 32.
Proof.
  rewrite land31 by apply uint64_range. unwrap. zlia.
Qed.

Lemma rotate_by_zero x : 0 <= x < 2 ^ 32 -> Z.lor (shl uint32 x 0) (shr x (32 - 0)) = x.
Proof.
  intros Hx. unfold shl, shr. rewrite Z.shiftl_0_r, uint32_small by exact Hx.
  rewrite Z.shiftr_div_pow2 by lia. rewrite Z.div_small by (cbn; lia).
  apply Z.lor_0_r.
Qed.

(** X29.  Unlike the shifts, the rotations do reduce their count: the
    count enters [i32.rotl] and [i32.rotr] modulo 32 only.  Two counts with
    the same low 5 bits give the same run, and a count that is a multiple of
    32 leaves the rotated operand (its low 32 bits) as the result. *)
Theorem rotations_reduce_the_count vm c c' x rest :
  sinkReady vm ->
  uint32 c mod 32 = uint32 c' mod 32 ->
  i32Rotl (set_stack vm (c :: x :: rest)) = i32Rotl (set_stack vm (c' :: x :: rest)) /\
  i32Rotr (set_stack vm (c :: x :: rest)) = i32Rotr (set_stack vm (c' :: x :: rest)) /\
  (uint32 c mod 32 = 0 ->
   i32Rotl (set_stack vm (c :: x :: rest)) =
     Ok tt (logState 0x77 "i32 Rotate left" 6 (set_stack vm (uint32 x :: rest))) /\
   i32Rotr (set_stack vm (c :: x :: rest)) =
     Ok tt (logState 0x78 "i32 Rotate right" 6 (set_stack vm (uint32 x :: rest)))).
Proof.
  intros Hr Hc.
  assert (Hneg : (- uint32 c) mod 32 = (- uint32 c') mod 32) by (clear - Hc; zlia).
  destruct vm as [[stk lcs cd p0 cf] md gl mem fs rp ab pgp tx rn k].
  split; [| split; [| intros Hz; split]].
  - autounfold with handlers stackops.
    cbn [bind gets modify ret popUint64 pushUint64 set_stack set_ctx ctx stack].
    unfold RotateLeft. rewrite !rotl_count, Hc. reflexivity.
  - autounfold with handlers stackops.
    cbn [bind gets modify ret popUint64 pushUint64 set_stack set_ctx ctx stack].
    unfold RotateLeft. rewrite !rotr_count, Hneg. reflexivity.
  - autounfold with handlers stackops.
    cbn [bind gets modify ret popUint64 pushUint64 set_stack set_ctx ctx stack].
    unfold RotateLeft. rewrite rotl_count, Hz.
    rewrite rotate_by_zero by apply uint32_range.
    rewrite (uint64_small (uint32 x))
      by (pose proof (uint32_range x); change (2 ^ 64) with 18446744073709551616;
          change (2 ^ 32) with 4294967296 in *; lia).
    apply opLog_ready. exact Hr.
  - assert (Hz' : (- uint32 c) mod 32 = 0) by (clear - Hz; zlia).
    autounfold with handlers stackops.
    cbn [bind gets modify ret popUint64 pushUint64 set_stack set_ctx ctx stack].
    unfold RotateLeft. rewrite rotr_count, Hz'.
    rewrite rotate_by_zero by apply uint32_range.
    rewrite (uint64_small (uint32 x))
      by (pose proof (uint32_range x); change (2 ^ 64) with 18446744073709551616;
          change (2 ^ 32) with 4294967296 in *; lia).
    apply opLog_ready. exact Hr.
Qed.

(** Rotating 0x80000001 left by 32 gives it back; shifting it left by 32
    gives 0. *)
Lemma rotations_reduce_the_count_witness :
  i32Rotl (machine [32; 0x80000001] [] []) = Ok tt (machine [0x80000001] [] []) /\
  i32Shl (machine [32; 0x80000001] [] []) = Ok tt (machine [0] [] []).
Proof.
  split; [| reflexivity].
  destruct (rotations_reduce_the_count (machine [] [] []) 32 0 0x80000001 [] I eq_refl)
    as (_ & _ & Hz).
  exact (proj1 (Hz eq_refl)).
Defined.

(** ** The sink reaches back through the server's error only *)

Section SinkBlind.
Context `{Server}.

Lemma sinkBlind_ret {A} (a : A) : sinkBlind (ret a).
Proof. intros vm Hr. cbn. auto. Qed.

Lemma sinkBlind_throw {A} p : sinkBlind (@throw A p).
Proof. intros vm Hr. cbn. auto. Qed.

Lemma sinkBlind_bind {A B} (m : M A) (k : A -> M B) :
  sinkBlind m -> (forall a, sinkBlind (k a)) -> sinkBlind (bind m k).
Proof.
  intros Hm Hk vm Hr. specialize (Hm vm Hr). unfold bind.
  destruct (m vm) as [a v1 | p v1 | h]; destruct (m (withoutSink vm)) as [a' v2 | p' v2 | h'];
    try contradiction.
  - destruct Hm as (<- & <- & Hr1). exact (Hk a v1 Hr1).
  - destruct (k a' v2); [exact Hm | right; exact Hm | exact Hm].
  - exact Hm.
  - exact Hm.
  - exact Hm.
Qed.

Lemma sinkBlind_gets {A} (f : VM -> A) :
  (forall vm, f (withoutSink vm) = f vm) -> sinkBlind (gets f).
Proof. intros Hf vm Hr. cbn. rewrite Hf. auto. Qed.

Lemma sinkBlind_modify (f : VM -> VM) :
  (forall vm, f (withoutSink vm) = withoutSink (f vm)) ->
  (forall vm, pg (f vm) = pg vm /\ PgTx (f vm) = PgTx vm) ->
  sinkBlind (modify f).
Proof.
  intros Hf Hs vm Hr. cbn. rewrite Hf. split; [reflexivity |]. split; [reflexivity |].
  unfold sinkReady in *. destruct (Hs vm) as [-> ->]. exact Hr.
Qed.

(** The one place where the sink reaches back: [opLog] panics with the
    error of a refused commit or begin. *)
Lemma sinkBlind_opLog c s n : sinkBlind (opLog c s n).
Proof.
  intros vm Hr.
  rewrite (opLog_disabled c s n (withoutSink vm)) by reflexivity.
  unfold opLog, sinkReady in *.
  destruct vm as [cx md gl mem fs rp ab p t rn k]. cbn [pg PgTx opNum PgRunNum] in *.
  destruct p as [pool |]; [| auto].
  destruct (8 <? n); [auto |].
  destruct t as [tx |]; [| contradiction].
  cbv zeta.
  destruct (execOk _ _ _); [| cbn; auto].
  destruct (Z.rem k 10000 =? 0); [| cbn; auto].
  destruct (commitOk _) eqn:Ec; [| split; [reflexivity | left; eauto]].
  destruct (beginOk _) eqn:Eb; [cbn; auto | split; [reflexivity | right; eauto]].
Qed.

(** An action that neither reads nor writes the machine. *)
Lemma sinkBlind_pure {A} (m : M A) :
  (exists a, forall vm, m vm = Ok a vm) \/ (exists p, forall vm, m vm = Panic p vm) ->
  sinkBlind m.
Proof.
  intros [[a E] | [p E]] vm Hr; rewrite !E; auto.
Qed.

Lemma sinkBlind_indexAt {A} (s : list A) i : sinkBlind (indexAt s i).
Proof.
  apply sinkBlind_pure. unfold indexAt.
  destruct (0 <=? i); [| right; eexists; reflexivity].
  destruct (nth_error s (Z.to_nat i)); [left | right]; eexists; reflexivity.
Qed.

Lemma sinkBlind_sliceFrom {A} (s : list A) i : sinkBlind (sliceFrom s i).
Proof.
  apply sinkBlind_pure. unfold sliceFrom.
  destruct ((0 <=? i) && (i <=? len s)); [left | right]; eexists; reflexivity.
Qed.

Lemma sinkBlind_Uint16 b : sinkBlind (LittleEndian.Uint16 b).
Proof.
  apply sinkBlind_pure. unfold LittleEndian.Uint16.
  destruct b as [| b0 [| b1 tl]]; [right | right | left]; eexists; reflexivity.
Qed.

Lemma sinkBlind_Uint32 b : sinkBlind (LittleEndian.Uint32 b).
Proof.
  apply sinkBlind_pure. unfold LittleEndian.Uint32.
  destruct b as [| b0 [| b1 [| b2 [| b3 tl]]]];
    [right | right | right | right | left]; eexists; reflexivity.
Qed.

Lemma sinkBlind_Uint64 b : sinkBlind (LittleEndian.Uint64 b).
Proof.
  apply sinkBlind_pure. unfold LittleEndian.Uint64.
  destruct b as [| b0 [| b1 [| b2 [| b3 [| b4 [| b5 [| b6 [| b7 tl]]]]]]]];
    [right | right | right | right | right | right | right | right | left];
    eexists; reflexivity.
Qed.

Lemma sinkBlind_quo x y : sinkBlind (quo x y).
Proof.
  apply sinkBlind_pure. unfold quo.
  destruct (y =? 0); [right | left]; eexists; reflexivity.
Qed.

Lemma sinkBlind_rem x y : sinkBlind (rem x y).
Proof.
  apply sinkBlind_pure. unfold rem.
  destruct (y =? 0); [right | left]; eexists; reflexivity.
Qed.

Lemma sinkBlind_makeBytes n : sinkBlind (makeBytes n).
Proof.
  apply sinkBlind_pure. unfold makeBytes.
  destruct (n <? 0); [right | left]; eexists; reflexivity.
Qed.

End SinkBlind.

Ltac blind_field :=
  let vm := fresh "vm" in
  intros vm; destruct vm as [[? ? ? ? ?] ? ? ? ? ? ? ? ? ? ?]; try split; reflexivity.

Ltac blind_step :=
  cbv beta zeta;
  lazymatch goal with
  | |- sinkBlind (bind _ _) => apply sinkBlind_bind; [| intros ?]
  | |- sinkBlind (ret _) => apply sinkBlind_ret
  | |- sinkBlind (throw _) => apply sinkBlind_throw
  | |- sinkBlind (opLog _ _ _) => apply sinkBlind_opLog
  | |- sinkBlind (indexAt _ _) => apply sinkBlind_indexAt
  | |- sinkBlind (sliceFrom _ _) => apply sinkBlind_sliceFrom
  | |- sinkBlind (LittleEndian.Uint16 _) => apply sinkBlind_Uint16
  | |- sinkBlind (LittleEndian.Uint32 _) => apply sinkBlind_Uint32
  | |- sinkBlind (LittleEndian.Uint64 _) => apply sinkBlind_Uint64
  | |- sinkBlind (quo _ _) => apply sinkBlind_quo
  | |- sinkBlind (rem _ _) => apply sinkBlind_rem
  | |- sinkBlind (makeBytes _) => apply sinkBlind_makeBytes
  | |- sinkBlind (gets _) => apply sinkBlind_gets; blind_field
  | |- sinkBlind (modify _) => apply sinkBlind_modify; blind_field
  | |- sinkBlind (fun _ => Halt _) => intros ? ?; reflexivity
  | |- sinkBlind (if ?c then _ else _) => destruct c
  | |- sinkBlind (match ?x with _ => _ end) => destruct x
  | |- sinkBlind ?m =>
      let h := head_of m in unfold h
  end
with head_of m :=
  lazymatch m with
  | ?f _ => head_of f
  | _ => m
  end.

Lemma embeddedHandlers_sinkBlind `{Server} `{Platform} `{FloatOps} `{Float64Ops} h :
  In h embeddedHandlers -> sinkBlind h.
Proof.
  intros Hin.
  unfold embeddedHandlers, unary32, binary32, unary64, binary64, conversions64,
         unaryF64, binaryF64, memops in Hin.
  cbn [In app List.map handler] in Hin.
  in_list Hin ltac:(repeat blind_step).
Qed.

Section SinkBlindLoop.
Context `{Server}.
Variable ops : ControlOps.
Variable funcTable : Z -> option (M unit).
Variable nativeCodeInvocation : Z -> M unit.
Hypothesis table_blind : forall op h, funcTable op = Some h -> sinkBlind h.
Hypothesis native_blind : forall i, sinkBlind (nativeCodeInvocation i).

Lemma step_sinkBlind : sinkBlind (step ops funcTable nativeCodeInvocation).
Proof.
  unfold step.
  repeat first
    [ lazymatch goal with
      | |- sinkBlind (match funcTable ?op with _ => _ end) =>
          let E := fresh "E" in
          destruct (funcTable op) as [h |] eqn:E;
          [ apply sinkBlind_bind; [exact (table_blind _ _ E) | intros ?] | ]
      | |- sinkBlind (nativeCodeInvocation _) => apply native_blind
      end
    | blind_step ].
Qed.

Lemma execLoop_sinkBlind fuel :
  sinkBlind (execLoop ops funcTable nativeCodeInvocation fuel).
Proof.
  induction fuel as [| fuel IH]; intros vm Hr; cbn [execLoop].
  - assert (Ec : (int (pc (ctx (withoutSink vm))) <? len (code (ctx (withoutSink vm))))
                 && negb (abort (withoutSink vm)) =
                 (int (pc (ctx vm)) <? len (code (ctx vm))) && negb (abort vm))
      by reflexivity.
    rewrite Ec.
    destruct ((int (pc (ctx vm)) <? len (code (ctx vm))) && negb (abort vm));
      [reflexivity | auto].
  - assert (Ec : (int (pc (ctx (withoutSink vm))) <? len (code (ctx (withoutSink vm))))
                 && negb (abort (withoutSink vm)) =
                 (int (pc (ctx vm)) <? len (code (ctx vm))) && negb (abort vm))
      by reflexivity.
    rewrite Ec.
    destruct ((int (pc (ctx vm)) <? len (code (ctx vm))) && negb (abort vm));
      [| auto].
    apply (sinkBlind_bind (step ops funcTable nativeCodeInvocation)); [| | exact Hr].
    + exact step_sinkBlind.
    + intros [|]; [exact IH | apply sinkBlind_ret].
Qed.

End SinkBlindLoop.

(** X30.  The sink reaches back into a run through the server's error
    only.  Whatever the server answers, every handler embedded here,
    started with a sink that is absent or has an open transaction, either
    ends as it ends on the same machine without any sink (with the same
    panic or none, and in the same state but for the sink), or panics with
    the error of a commit or begin that the server refused; a refused
    insert changes nothing but the sink.  The dispatch loop inherits this from the
    handlers of the dispatch table and the native-code entry, for any code
    and any amount of fuel.  With a server that refuses no commit and no
    begin only the first case is left: the sink is write-only. *)
Theorem sink_feeds_back_only_errors `{Server} `{Platform} `{FloatOps} `{Float64Ops} :
  (forall h, In h embeddedHandlers -> sinkBlind h) /\
  (forall ops funcTable nativeCodeInvocation,
     (forall op h, funcTable op = Some h -> sinkBlind h) ->
     (forall i, sinkBlind (nativeCodeInvocation i)) ->
     forall fuel, sinkBlind (execLoop ops funcTable nativeCodeInvocation fuel)) /\
  (~ refusesCommits ->
   forall h vm, In h embeddedHandlers -> sinkReady vm ->
     match h vm, h (withoutSink vm) with
     | Ok _ v1, Ok _ v2 => withoutSink v1 = v2
     | Panic p v1, Panic p' v2 => p = p' /\ withoutSink v1 = v2
     | Halt h1, Halt h2 => h1 = h2
     | _, _ => False
     end).
Proof.
  split; [| split].
  - exact embeddedHandlers_sinkBlind.
  - exact execLoop_sinkBlind.
  - intros Hno h vm Hin Hr.
    pose proof (embeddedHandlers_sinkBlind h Hin vm Hr) as Hb.
    destruct (h vm) as [a v1 | p v1 | h1];
      destruct (h (withoutSink vm)) as [a' v2 | p' v2 | h2];
      try contradiction; tauto.
Qed.

(** [i32.add] as the first operation on a machine whose server takes the
    insert and refuses the commit that follows it: with the sink the handler
    panics with the server's error, without it the handler completes. *)
Lemma sink_feeds_back_only_errors_witness :
  (exists v1 v2,
     @i32Add noCommitServer (set_stack sevenVMLogged [1; 2]) = Panic DatabaseError v1 /\
     @i32Add noCommitServer (withoutSink (set_stack sevenVMLogged [1; 2])) = Ok tt v2) /\
  match @i32Add noCommitServer (set_stack sevenVMLogged [1; 2]),
        @i32Add noCommitServer (withoutSink (set_stack sevenVMLogged [1; 2])) with
  | Ok a v1, Ok a' v2 => a = a' /\ withoutSink v1 = v2 /\ sinkReady v1
  | Panic p v1, Panic p' v2 =>
      (p = p' /\ withoutSink v1 = v2) \/ (p = DatabaseError /\ @refusesCommits noCommitServer)
  | Panic p v1, _ => p = DatabaseError /\ @refusesCommits noCommitServer
  | Halt h, Halt h' => h = h'
  | _, _ => False
  end.
Proof.
  split.
  - eexists _, _. split; vm_compute; reflexivity.
  - assert (Hin : In (@i32Add noCommitServer)
                    (@embeddedHandlers noCommitServer saturating firstOperand firstOperand64)).
    { unfold embeddedHandlers. apply in_or_app. right. apply in_or_app. left.
      simpl. left. reflexivity. }
    exact (proj1 (@sink_feeds_back_only_errors
                    noCommitServer saturating firstOperand firstOperand64)
             (@i32Add noCommitServer) Hin (set_stack sevenVMLogged [1; 2]) I).
Defined.
